(** * KRK endgame tablebase: construction, enumeration and query

    A shallow embedding of the tablebase generators of the repository
    ([tablebase_generator_fixed.py], [chess_solver_optimized.py],
    [chess_engine.py]) together with the fragment of the python-chess
    library they call, followed by the properties of the specification
    checked against them.

    Python values are modelled as follows: squares and loop indices are
    integers ([Z]); the tablebase dictionary is a finite map from FEN
    strings to pairs [(dtm, best_move)]; a [dtm] is an integer or the
    string ['DRAW']; a best move is a UCI string or [None]. *)

From Stdlib Require Import ZArith Lia Bool Ascii String.
From Stdlib Require Import Decimal DecimalString DecimalNat.
From stdpp Require Import base option list strings gmap fin_maps numbers.

Local Open Scope string_scope.
Local Open Scope Z_scope.

(** ** The python-chess fragment used by the generators

    The generators only ever build boards holding a white king, a white
    rook and a black king, and boards reached from those by one move.  The
    model below is python-chess restricted to that material: a board holds
    at most one piece of each of the three kinds. *)
Module chess.

Inductive Color := WHITE | BLACK.

Definition Color_eqb (c1 c2 : Color) : bool :=
  match c1, c2 with
  | WHITE, WHITE | BLACK, BLACK => true
  | _, _ => false
  end.

(** [not color] *)
Definition opponent (c : Color) : Color :=
  match c with WHITE => BLACK | BLACK => WHITE end.

Inductive PieceType := ROOK | KING.

(** [chess.Piece(piece_type, color)] for the three pieces the program
    places. *)
Inductive Piece := WhiteKing | WhiteRook | BlackKing.

Definition piece_type (p : Piece) : PieceType :=
  match p with WhiteKing | BlackKing => KING | WhiteRook => ROOK end.

Definition color (p : Piece) : Color :=
  match p with WhiteKing | WhiteRook => WHITE | BlackKing => BLACK end.

(** [Piece.symbol()] *)
Definition symbol (p : Piece) : string :=
  match p with WhiteKing => "K" | WhiteRook => "R" | BlackKing => "k" end.

(** Squares are integers, [A1 = 0], [H1 = 7], [H8 = 63]. *)
Definition square_file (sq : Z) : Z := Z.land sq 7.
Definition square_rank (sq : Z) : Z := Z.shiftr sq 3.
Definition square (file_index rank_index : Z) : Z := rank_index * 8 + file_index.

Definition on_board (sq : Z) : bool := (0 <=? sq) && (sq <? 64).

(** [chess.SQUARES = list(range(64))] *)
Definition SQUARES : list Z := seqZ 0 64.

(** [chess.SQUARES_180]: rank 8 first, files a to h within a rank. *)
Definition SQUARES_180 : list Z := map (fun sq => Z.lxor sq 56) SQUARES.

(** [chess.square_distance]: Chebyshev distance. *)
Definition square_distance (a b : Z) : Z :=
  Z.max (Z.abs (square_file a - square_file b))
        (Z.abs (square_rank a - square_rank b)).

Record Board := mkBoard {
  wk : option Z;            (* square of the white king, if on the board *)
  wr : option Z;            (* square of the white rook, if on the board *)
  bk : option Z;            (* square of the black king, if on the board *)
  turn : Color;
  halfmove_clock : nat;
  fullmove_number : nat
}.

(** [chess.Board(fen=None)]: an empty board, White to move, clocks 0 and 1. *)
Definition empty_board : Board := mkBoard None None None WHITE 0 1.

Definition at_square (o : option Z) (sq : Z) : bool :=
  match o with Some s => s =? sq | None => false end.

(** [Board.piece_at(square)] *)
Definition piece_at (b : Board) (sq : Z) : option Piece :=
  if at_square (wk b) sq then Some WhiteKing
  else if at_square (wr b) sq then Some WhiteRook
  else if at_square (bk b) sq then Some BlackKing
  else None.

Definition vacate (o : option Z) (sq : Z) : option Z :=
  if at_square o sq then None else o.

(** [Board.remove_piece_at(square)] *)
Definition remove_piece_at (b : Board) (sq : Z) : Board :=
  mkBoard (vacate (wk b) sq) (vacate (wr b) sq) (vacate (bk b) sq)
          (turn b) (halfmove_clock b) (fullmove_number b).

(** [Board.set_piece_at(square, piece)]: whatever stood on the square is
    removed first. *)
Definition set_piece_at (b : Board) (sq : Z) (p : Piece) : Board :=
  let b' := remove_piece_at b sq in
  match p with
  | WhiteKing => mkBoard (Some sq) (wr b') (bk b') (turn b') (halfmove_clock b') (fullmove_number b')
  | WhiteRook => mkBoard (wk b') (Some sq) (bk b') (turn b') (halfmove_clock b') (fullmove_number b')
  | BlackKing => mkBoard (wk b') (wr b') (Some sq) (turn b') (halfmove_clock b') (fullmove_number b')
  end.

(** [board.turn = turn] *)
Definition set_turn (b : Board) (t : Color) : Board :=
  mkBoard (wk b) (wr b) (bk b) t (halfmove_clock b) (fullmove_number b).

(** [Board.king(color)] *)
Definition king (b : Board) (c : Color) : option Z :=
  match c with WHITE => wk b | BLACK => bk b end.

Definition occupied (b : Board) (sq : Z) : bool :=
  match piece_at b sq with Some _ => true | None => false end.

(** [occupied_co[color]] as a test on squares. *)
Definition occupied_co (b : Board) (c : Color) (sq : Z) : bool :=
  match piece_at b sq with
  | Some p => Color_eqb (color p) c
  | None => false
  end.

(** [_sliding_attacks] along one delta: step until the edge of the board
    (a step that wraps around moves more than two squares away) or until an
    occupied square, which is included. *)
Fixpoint slide (occ : Z -> bool) (delta : Z) (sq : Z) (fuel : nat) : list Z :=
  match fuel with
  | O => []
  | S fuel' =>
      let sq' := sq + delta in
      if negb (on_board sq') || (2 <? square_distance sq' sq) then []
      else if occ sq' then [sq']
      else sq' :: slide occ delta sq' fuel'
  end.

Definition sliding_attacks (occ : Z -> bool) (deltas : list Z) (sq : Z) : list Z :=
  flat_map (fun delta => slide occ delta sq 8) deltas.

(** [BB_KING_ATTACKS[sq]] *)
Definition king_attacks (sq : Z) : list Z :=
  sliding_attacks (fun _ => true) [9; 8; 7; 1; -9; -8; -7; -1] sq.

(** Rank and file attacks of a rook for the given occupancy. *)
Definition rook_attacks (occ : Z -> bool) (sq : Z) : list Z :=
  sliding_attacks occ [-1; 1; -8; 8] sq.

Definition mem (sq : Z) (mask : list Z) : bool :=
  existsb (Z.eqb sq) mask.

(** [Board.attacks_mask(square)] *)
Definition attacks_mask (b : Board) (sq : Z) : list Z :=
  match piece_at b sq with
  | Some p =>
      match piece_type p with
      | KING => king_attacks sq
      | ROOK => rook_attacks (occupied b) sq
      end
  | None => []
  end.

(** [Board.is_attacked_by(color, square)]: some piece of [color] attacks
    [square], with the occupancy of the board as it stands. *)
Definition is_attacked_by (b : Board) (c : Color) (sq : Z) : bool :=
  match c with
  | WHITE =>
      match wk b with Some k => mem k (king_attacks sq) | None => false end
      || match wr b with Some r => mem r (rook_attacks (occupied b) sq) | None => false end
  | BLACK =>
      match bk b with Some k => mem k (king_attacks sq) | None => false end
  end.

(** [attackers_mask(color, square)] as the list of attacking squares: the
    pieces of [color] found on the king steps and on the rook lines that
    leave [square]. *)
Definition attackers (b : Board) (c : Color) (sq : Z) : list Z :=
  List.filter (fun s =>
      occupied_co b c s &&
      match piece_at b s with
      | Some p =>
          match piece_type p with
          | KING => mem s (king_attacks sq)
          | ROOK => mem s (rook_attacks (occupied b) sq)
          end
      | None => false
      end) SQUARES.

(** [Board.is_check()] *)
Definition is_check (b : Board) : bool :=
  match king b (turn b) with
  | Some k => is_attacked_by b (opponent (turn b)) k
  | None => false
  end.

Record Move := mkMove { from_square : Z; to_square : Z }.

(** [scan_reversed]: the squares of a mask from H8 down to A1. *)
Definition scan_reversed (mask : Z -> bool) : list Z :=
  List.filter mask (rev SQUARES).

(** [generate_pseudo_legal_moves(from_mask, to_mask)]: no pawns and no
    castling rights exist, so only piece moves are generated. *)
Definition generate_pseudo_legal_moves (b : Board)
    (from_mask to_mask : Z -> bool) : list Move :=
  flat_map (fun from =>
      map (mkMove from)
        (scan_reversed (fun to =>
           mem to (attacks_mask b from) && negb (occupied_co b (turn b) to) && to_mask to)))
    (scan_reversed (fun from => occupied_co b (turn b) from && from_mask from)).

(** [chess.ray(a, b)]: the whole line through two squares on a common rank
    or file (the only lines a rook gives check along), empty otherwise. *)
Definition ray (a b : Z) : list Z :=
  if a =? b then []
  else if square_rank a =? square_rank b then
    List.filter (fun s => square_rank s =? square_rank a) SQUARES
  else if square_file a =? square_file b then
    List.filter (fun s => square_file s =? square_file a) SQUARES
  else [].

(** [chess.between(a, b)]: the squares strictly between the two. *)
Definition between (a b : Z) : list Z :=
  List.filter (fun s => (Z.min a b <? s) && (s <? Z.max a b)) (ray a b).

Definition is_slider (b : Board) (sq : Z) : bool :=
  match piece_at b sq with
  | Some p => match piece_type p with ROOK => true | KING => false end
  | None => false
  end.

(** [_generate_evasions(king, checkers, from_mask, to_mask)]: the squares
    on the line of a checking slider (the slider's own square excepted) are
    closed to the king; then come the king moves, then, for a single
    checker, the captures of the checker and the interpositions. *)
Definition evasion_attacked (b : Board) (k : Z) (checkers : list Z) : list Z :=
  flat_map (fun checker =>
      List.filter (fun s => negb (s =? checker)) (ray k checker))
    (List.filter (is_slider b) checkers).

Definition evasion_king_moves (b : Board) (k : Z) (attacked : list Z) : list Move :=
  map (mkMove k)
    (scan_reversed (fun to =>
       mem to (king_attacks k) && negb (occupied_co b (turn b) to)
       && negb (mem to attacked))).

Definition evasion_blocks (b : Board) (k : Z) (checkers : list Z) : list Move :=
  match checkers with
  | [checker] =>
      generate_pseudo_legal_moves b
        (fun from => negb (at_square (wk b) from || at_square (bk b) from))
        (fun to => mem to (between k checker) || (to =? checker))
  | _ => []
  end.

Definition generate_evasions (b : Board) (k : Z) (checkers : list Z) : list Move :=
  evasion_king_moves b k (evasion_attacked b k checkers)
  ++ evasion_blocks b k checkers.

(** [_is_safe(king, blockers, move)].  A king move is safe when its
    destination is not attacked by the opponent.  For the other pieces
    [blockers] (the pieces pinned by an enemy slider) is empty here: Black
    has no slider and no piece besides its king. *)
Definition is_safe (b : Board) (k : Z) (m : Move) : bool :=
  if from_square m =? k then
    negb (is_attacked_by b (opponent (turn b)) (to_square m))
  else true.

(** [Board.generate_legal_moves()], the iteration order of
    [board.legal_moves]. *)
Definition legal_moves (b : Board) : list Move :=
  match king b (turn b) with
  | Some k =>
      let checkers := attackers b (opponent (turn b)) k in
      match checkers with
      | [] => List.filter (is_safe b k)
                (generate_pseudo_legal_moves b (fun _ => true) (fun _ => true))
      | _ => List.filter (is_safe b k) (generate_evasions b k checkers)
      end
  | None => generate_pseudo_legal_moves b (fun _ => true) (fun _ => true)
  end.

(** [not board.legal_moves] is [not any(generate_legal_moves())]. *)
Definition has_legal_moves (b : Board) : bool :=
  match legal_moves b with [] => false | _ :: _ => true end.

(** [Board.is_checkmate()] *)
Definition is_checkmate (b : Board) : bool :=
  if negb (is_check b) then false else negb (has_legal_moves b).

(** [Board.is_stalemate()] *)
Definition is_stalemate (b : Board) : bool :=
  if is_check b then false else negb (has_legal_moves b).

(** [Board.push(move)]: the clocks are advanced, a capture resets the
    halfmove clock, the piece is moved (a piece on the destination is
    replaced) and the turn passes.  python-chess asserts that the origin
    square is occupied; [legal_moves] yields no other move. *)
Definition push (b : Board) (m : Move) : Board :=
  let halfmove := S (halfmove_clock b) in
  let fullmove :=
    match turn b with BLACK => S (fullmove_number b) | WHITE => fullmove_number b end in
  let halfmove :=
    if occupied_co b (opponent (turn b)) (from_square m)
       || occupied_co b (opponent (turn b)) (to_square m)
    then O else halfmove in
  match piece_at b (from_square m) with
  | Some p =>
      let b1 := remove_piece_at b (from_square m) in
      let b2 := set_piece_at b1 (to_square m) p in
      mkBoard (wk b2) (wr b2) (bk b2) (opponent (turn b)) halfmove fullmove
  | None =>
      mkBoard (wk b) (wr b) (bk b) (opponent (turn b)) halfmove fullmove
  end.

(** *** Text: square names, UCI moves and FEN *)

(** [str(n)] for a non-negative integer. *)
Definition str (n : nat) : string := NilZero.string_of_uint (Nat.to_uint n).

(** [int(s)] on a string of decimal digits; anything else is a
    [ValueError]. *)
Definition int_of_str (s : string) : option nat :=
  match NilZero.uint_of_string s with
  | Some d => Some (Nat.of_uint d)
  | None => None
  end.

Definition FILE_NAMES : list string := ["a"; "b"; "c"; "d"; "e"; "f"; "g"; "h"].
Definition RANK_NAMES : list string := ["1"; "2"; "3"; "4"; "5"; "6"; "7"; "8"].

(** [chess.SQUARE_NAMES[sq]] *)
Definition square_name (sq : Z) : string :=
  nth (Z.to_nat (square_file sq)) FILE_NAMES "" ++
  nth (Z.to_nat (square_rank sq)) RANK_NAMES "".

(** [Move.uci()]; there are no promotions. *)
Definition uci (m : Move) : string :=
  square_name (from_square m) ++ square_name (to_square m).

(** The squares of one rank, files a to h. *)
Definition rank_squares (r : Z) : list Z := map (fun f => square f r) (seqZ 0 8).

Definition RANKS_180 : list Z := [7; 6; 5; 4; 3; 2; 1; 0].

(** One rank of [Board.board_fen()]: runs of empty squares are written as
    their length, flushed before a piece and at the end of the rank. *)
Definition flush (empty : nat) : string :=
  match empty with O => "" | _ => str empty end.

Fixpoint row_fen (cells : list (option Piece)) (empty : nat) : string :=
  match cells with
  | [] => flush empty
  | None :: cells' => row_fen cells' (S empty)
  | Some p :: cells' => flush empty ++ symbol p ++ row_fen cells' O
  end.

(** ["/".join(rows)] *)
Fixpoint join_slash (rows : list string) : string :=
  match rows with
  | [] => ""
  | [r] => r
  | r :: rows' => r ++ "/" ++ join_slash rows'
  end.

(** [Board.board_fen()] *)
Definition board_fen (b : Board) : string :=
  join_slash (map (fun r => row_fen (map (piece_at b) (rank_squares r)) O) RANKS_180).

Definition turn_symbol (c : Color) : string :=
  match c with WHITE => "w" | BLACK => "b" end.

(** [Board.fen()]: board, turn, castling rights (none), en passant square
    (none), halfmove clock and fullmove number. *)
Definition fen (b : Board) : string :=
  board_fen b ++ " " ++ turn_symbol (turn b) ++ " - - " ++
  str (halfmove_clock b) ++ " " ++ str (fullmove_number b).

(** [s.split(sep)] for a one-character separator. *)
Fixpoint split_on (sep : ascii) (s : string) (cur : string) : list string :=
  match s with
  | EmptyString => [cur]
  | String c s' =>
      if Ascii.eqb c sep then cur :: split_on sep s' ""
      else split_on sep s' (cur ++ String c "")
  end.

Definition is_space (c : ascii) : bool :=
  Ascii.eqb c " " || Ascii.eqb c "009" || Ascii.eqb c "010"
  || Ascii.eqb c "011" || Ascii.eqb c "012" || Ascii.eqb c "013".

(** [s.split()]: the maximal runs of non-blank characters. *)
Fixpoint split_ws (s : string) (cur : string) : list string :=
  match s with
  | EmptyString => match cur with EmptyString => [] | _ => [cur] end
  | String c s' =>
      if is_space c then
        match cur with
        | EmptyString => split_ws s' ""
        | _ => cur :: split_ws s' ""
        end
      else split_ws s' (cur ++ String c "")
  end.

(** [Piece.from_symbol] for the three pieces of the fragment. *)
Definition piece_of_symbol (c : ascii) : option Piece :=
  if Ascii.eqb c "K" then Some WhiteKing
  else if Ascii.eqb c "R" then Some WhiteRook
  else if Ascii.eqb c "k" then Some BlackKing
  else None.

Definition empty_run (c : ascii) : option nat :=
  if Ascii.eqb c "1" then Some 1%nat else if Ascii.eqb c "2" then Some 2%nat
  else if Ascii.eqb c "3" then Some 3%nat else if Ascii.eqb c "4" then Some 4%nat
  else if Ascii.eqb c "5" then Some 5%nat else if Ascii.eqb c "6" then Some 6%nat
  else if Ascii.eqb c "7" then Some 7%nat else if Ascii.eqb c "8" then Some 8%nat
  else None.

(** One row of the board part: digits stand for runs of empty squares, two
    digits may not follow each other, every other character must be a
    piece symbol. *)
Fixpoint parse_row (s : string) (previous_was_digit : bool)
    : option (list (option Piece)) :=
  match s with
  | EmptyString => Some []
  | String c s' =>
      match empty_run c with
      | Some n =>
          if previous_was_digit then None
          else match parse_row s' true with
               | Some cells => Some (replicate n None ++ cells)%list
               | None => None
               end
      | None =>
          match piece_of_symbol c with
          | Some p =>
              match parse_row s' false with
              | Some cells => Some (Some p :: cells)
              | None => None
              end
          | None => None
          end
      end
  end.

(** A row must describe exactly eight squares. *)
Definition parse_full_row (s : string) : option (list (option Piece)) :=
  match parse_row s false with
  | Some cells => if (length cells =? 8)%nat then Some cells else None
  | None => None
  end.

Fixpoint parse_rows (rows : list string) : option (list (list (option Piece))) :=
  match rows with
  | [] => Some []
  | r :: rows' =>
      match parse_full_row r, parse_rows rows' with
      | Some cells, Some rest => Some (cells :: rest)
      | _, _ => None
      end
  end.

Definition place (b : Board) (cell : Z * option Piece) : Board :=
  match snd cell with
  | Some p => set_piece_at b (fst cell) p
  | None => b
  end.

(** [Board._set_board_fen]: eight valid rows, then the pieces are put on
    the squares in the order of [SQUARES_180]. *)
Definition set_board_fen (b : Board) (board_part : string) : option Board :=
  let rows := split_on "/" board_part "" in
  if negb (length rows =? 8)%nat then None
  else match parse_rows rows with
       | Some grid => Some (fold_left place (zip SQUARES_180 (concat grid)) b)
       | None => None
       end.

Definition parse_turn (s : string) : option Color :=
  if String.eqb s "w" then Some WHITE
  else if String.eqb s "b" then Some BLACK
  else None.

(** [chess.Board(fen)], that is [Board.set_fen]: the parts after the board
    are optional and default to White, no castling, no en passant, 0 and 1.
    Castling rights and en passant squares other than ["-"] lie outside the
    fragment; a malformed string raises [ValueError] ([None]). *)
Definition Board_of_fen (s : string) : option Board :=
  match split_ws s "" with
  | [] => None
  | board_part :: parts =>
      let turn_part := nth 0 parts "w" in
      let castling_part := nth 1 parts "-" in
      let ep_part := nth 2 parts "-" in
      let halfmove_part := nth 3 parts "0" in
      let fullmove_part := nth 4 parts "1" in
      if (5 <? length parts)%nat then None
      else if negb (String.eqb castling_part "-" && String.eqb ep_part "-") then None
      else
        match parse_turn turn_part, int_of_str halfmove_part,
              int_of_str fullmove_part, set_board_fen empty_board board_part with
        | Some t, Some hm, Some fm, Some b =>
            Some (mkBoard (wk b) (wr b) (bk b) t hm (Nat.max fm 1))
        | _, _, _, _ => None
        end
  end.

(** *** Legality of one move, square names read back, the move stack *)

(** [bool(move)]: only the null move, [Move(0, 0)], is false. *)
Definition move_bool (m : Move) : bool :=
  negb ((from_square m =? 0) && (to_square m =? 0)).

(** [m1 == m2] on moves. *)
Definition Move_eqb (m1 m2 : Move) : bool :=
  (from_square m1 =? from_square m2) && (to_square m1 =? to_square m2).

(** [move in moves], for the moves a generator yields. *)
Definition move_in (m : Move) (moves : list Move) : bool :=
  existsb (Move_eqb m) moves.

(** [Board.is_pseudo_legal(move)].  The move is not null and not a drop,
    its origin holds a piece of the side to move, it is no castling move
    (no castling rights exist), its destination holds no piece of the side
    to move, and the piece attacks the destination. *)
Definition is_pseudo_legal (b : Board) (m : Move) : bool :=
  if negb (move_bool m) then false
  else
    match piece_at b (from_square m) with
    | None => false
    | Some _ =>
        if negb (occupied_co b (turn b) (from_square m)) then false
        else if occupied_co b (turn b) (to_square m) then false
        else mem (to_square m) (attacks_mask b (from_square m))
    end.

(** [Board.is_castling(move)]: a king that moves more than one file or
    onto a rook of its own side. *)
Definition is_castling (b : Board) (m : Move) : bool :=
  if at_square (wk b) (from_square m) || at_square (bk b) (from_square m) then
    (1 <? Z.abs (square_file (from_square m) - square_file (to_square m)))
    || (Color_eqb (turn b) WHITE && at_square (wr b) (to_square m))
  else false.

(** [_is_safe(king, blockers, move)] as python-chess writes it, with the
    test for castling; no move is an en passant capture and the set of
    pinned pieces is empty. *)
Definition _is_safe (b : Board) (k : Z) (m : Move) : bool :=
  if from_square m =? k then
    if is_castling b m then true
    else negb (is_attacked_by b (opponent (turn b)) (to_square m))
  else true.

(** [_generate_evasions(king, checkers, from_mask, to_mask)] with its two
    masks. *)
Definition generate_evasions_masked (b : Board) (k : Z) (checkers : list Z)
    (from_mask to_mask : Z -> bool) : list Move :=
  ((if from_mask k then
      map (mkMove k)
        (scan_reversed (fun to =>
           mem to (king_attacks k) && negb (occupied_co b (turn b) to)
           && negb (mem to (evasion_attacked b k checkers)) && to_mask to))
    else [])
   ++ match checkers with
      | [checker] =>
          generate_pseudo_legal_moves b
            (fun from => negb (at_square (wk b) from || at_square (bk b) from)
                         && from_mask from)
            (fun to => (mem to (between k checker) || (to =? checker)) && to_mask to)
      | _ => []
      end)%list.

(** [Board.is_into_check(move)] *)
Definition is_into_check (b : Board) (m : Move) : bool :=
  match king b (turn b) with
  | None => false
  | Some k =>
      let checkers := attackers b (opponent (turn b)) k in
      if match checkers with [] => false | _ :: _ => true end
         && negb (move_in m (generate_evasions_masked b k checkers
                               (fun from => from =? from_square m)
                               (fun to => to =? to_square m)))
      then true
      else negb (_is_safe b k m)
  end.

(** [Board.is_legal(move)], which is what [move in board.legal_moves]
    evaluates; [and] does not evaluate [is_into_check] for a move that is not
    pseudo-legal. *)
Definition is_legal (b : Board) (m : Move) : bool :=
  if is_pseudo_legal b m then negb (is_into_check b m) else false.

(** [chess.SQUARE_NAMES = [f + r for r in RANK_NAMES for f in FILE_NAMES]] *)
Definition SQUARE_NAMES : list string :=
  flat_map (fun r => map (fun f => f ++ r) FILE_NAMES) RANK_NAMES.

(** [names.index(name)], counting from [i]; [None] is the [ValueError] of a
    name that is not in the list. *)
Fixpoint index_from (name : string) (names : list string) (i : Z) : option Z :=
  match names with
  | [] => None
  | n :: names' => if String.eqb n name then Some i else index_from name names' (i + 1)
  end.

(** [chess.parse_square(name)] *)
Definition parse_square (name : string) : option Z :=
  index_from name SQUARE_NAMES 0.

(** What [Move.from_uci] returns: a move from one square to another, or a
    drop or a promotion, which [is_pseudo_legal] refuses on a board without
    pawns. *)
Inductive UciMove :=
  | Plain (m : Move)
  | DropOrPromotion.

(** [PIECE_SYMBOLS.index(c)] succeeds on the six piece letters. *)
Definition is_piece_symbol (c : ascii) : bool :=
  existsb (Ascii.eqb c) ["p"; "n"; "b"; "r"; "q"; "k"]%char.

(** [c.lower()] is a piece letter. *)
Definition lower_is_piece_symbol (c : ascii) : bool :=
  is_piece_symbol c || existsb (Ascii.eqb c) ["P"; "N"; "B"; "R"; "Q"; "K"]%char.

(** [Move.from_uci(uci)]; [None] is [InvalidMoveError]. *)
Definition from_uci (uci : string) : option UciMove :=
  if String.eqb uci "0000" then Some (Plain (mkMove 0 0))
  else if (String.length uci =? 4)%nat
          && match String.get 1 uci with Some c => Ascii.eqb c "@" | None => false end
  then
    match String.get 0 uci, parse_square (substring 2 2 uci) with
    | Some c, Some _ => if lower_is_piece_symbol c then Some DropOrPromotion else None
    | _, _ => None
    end
  else if (4 <=? String.length uci)%nat && (String.length uci <=? 5)%nat then
    match parse_square (substring 0 2 uci), parse_square (substring 2 2 uci) with
    | Some from, Some to =>
        if (String.length uci =? 5)%nat then
          match String.get 4 uci with
          | Some c =>
              if is_piece_symbol c then
                if from =? to then None else Some DropOrPromotion
              else None
          | None => None
          end
        else if from =? to then None else Some (Plain (mkMove from to))
    | _, _ => None
    end
  else None.

(** A [chess.Board] object also records the moves made on it: [move_stack]
    holds the moves and [_stack] the state of the board before each of
    them.  [push] appends to both and [pop] removes the last of both, so
    they are kept as one list of pairs, the last move last. *)
Record Game := mkGame {
  position : Board;
  stack : list (Move * Board)
}.

(** [Board.push(move)] on the object. *)
Definition Game_push (g : Game) (m : Move) : Game :=
  mkGame (push (position g) m) (stack g ++ [(m, position g)]).

(** [l.pop()]: the list without its last element, and that element;
    [None] is the [IndexError] of an empty list. *)
Fixpoint pop_last {A} (l : list A) : option (list A * A) :=
  match l with
  | [] => None
  | [x] => Some ([], x)
  | x :: l' =>
      match pop_last l' with
      | Some (rest, y) => Some (x :: rest, y)
      | None => None
      end
  end.

(** [Board.pop()]: the last move is taken off and the state saved before
    it is restored. *)
Definition Game_pop (g : Game) : option (Move * Game) :=
  match pop_last (stack g) with
  | Some (rest, (m, before)) => Some (m, mkGame before rest)
  | None => None
  end.

(** [Board.clear()]: an empty board, White to move, clocks 0 and 1, and an
    empty move stack. *)
Definition Game_clear (g : Game) : Game := mkGame empty_board [].

(** [Board.set_piece_at(square, piece)] on the object also clears the move
    stack. *)
Definition Game_set_piece_at (g : Game) (sq : Z) (p : Piece) : Game :=
  mkGame (set_piece_at (position g) sq p) [].

(** [board.turn = turn] leaves the move stack alone. *)
Definition Game_set_turn (g : Game) (t : Color) : Game :=
  mkGame (set_turn (position g) t) (stack g).

(** [Board.is_insufficient_material()]: a side with a rook can mate, two
    bare kings cannot. *)
Definition is_insufficient_material (b : Board) : bool :=
  match wr b with Some _ => false | None => true end.

End chess.

(** ** Tablebase values

    [self.tablebase] maps a FEN string to a pair [(dtm, best_move)] where
    [dtm] is an integer or the string ['DRAW'] and [best_move] is a UCI
    string or [None]. *)

Inductive Dtm :=
  | Mate (d : nat)      (* an integer distance to mate *)
  | DRAW.               (* the string 'DRAW' *)

Definition Dtm_eqb (x y : Dtm) : bool :=
  match x, y with
  | Mate a, Mate b => (a =? b)%nat
  | DRAW, DRAW => true
  | _, _ => false
  end.

Abbreviation Entry := (Dtm * option string)%type.
Abbreviation Tablebase := (gmap string Entry).

(** [range(64)] *)
Definition range64 : list Z := seqZ 0 64.

(** The board built in the innermost loop of the enumerators:
    [chess.Board(fen=None)], three [set_piece_at] calls and the turn. *)
Definition krk_board (wk_sq wr_sq bk_sq : Z) (turn : chess.Color) : chess.Board :=
  chess.set_turn
    (chess.set_piece_at
       (chess.set_piece_at
          (chess.set_piece_at chess.empty_board wk_sq chess.WhiteKing)
          wr_sq chess.WhiteRook)
       bk_sq chess.BlackKing)
    turn.

(** [board.push(move); next_fen = board.fen(); board.pop()] *)
Definition next_fen (board : chess.Board) (move : chess.Move) : string :=
  chess.fen (chess.push board move).

(** ** [TablebaseGenerator] of [tablebase_generator_fixed.py] *)
Module TablebaseGenerator.

(** The body of the three nested loops of [_generate_all_positions]: the
    FEN strings appended for one triple of squares. *)
Definition positions_at (wk_sq wr_sq bk_sq : Z) : list string :=
  if (wk_sq =? wr_sq) || (wk_sq =? bk_sq) || (wr_sq =? bk_sq) then []
  else
    let wk_rank := wk_sq / 8 in
    let wk_file := wk_sq mod 8 in
    let bk_rank := bk_sq / 8 in
    let bk_file := bk_sq mod 8 in
    if (Z.abs (wk_rank - bk_rank) <=? 1) && (Z.abs (wk_file - bk_file) <=? 1) then []
    else
      flat_map (fun turn =>
          let board := krk_board wk_sq wr_sq bk_sq turn in
          if chess.Color_eqb turn chess.WHITE
             && chess.is_attacked_by board chess.BLACK wk_sq
          then []
          else [chess.fen board])
        [chess.WHITE; chess.BLACK].

Definition _generate_all_positions : list string :=
  flat_map (fun wk_sq =>
    flat_map (fun wr_sq =>
      flat_map (fun bk_sq => positions_at wk_sq wr_sq bk_sq) range64)
      range64)
    range64.

(** Step 2 of [generate_krk_tablebase]. *)
Fixpoint find_checkmates (positions : list string) (tablebase : Tablebase)
    : option Tablebase :=
  match positions with
  | [] => Some tablebase
  | fen :: rest =>
      board ← chess.Board_of_fen fen;
      find_checkmates rest
        (if chess.is_checkmate board then <[fen := (Mate 0, None)]> tablebase
         else tablebase)
  end.

(** Step 3 of [generate_krk_tablebase]. *)
Fixpoint find_stalemates (positions : list string) (tablebase : Tablebase)
    : option Tablebase :=
  match positions with
  | [] => Some tablebase
  | fen :: rest =>
      board ← chess.Board_of_fen fen;
      find_stalemates rest
        (if chess.is_stalemate board then <[fen := (DRAW, None)]> tablebase
         else tablebase)
  end.

(** [next_dtm < best_dtm] where [best_dtm] starts as [float('inf')]. *)
Definition below (next_dtm : nat) (best_dtm : option nat) : bool :=
  match best_dtm with
  | None => true
  | Some best => (next_dtm <? best)%nat
  end.

(** White to move: the loop over [board.legal_moves] keeping the first
    move to a successor with the least integer [dtm]. *)
Fixpoint white_scan (tablebase : Tablebase) (board : chess.Board)
    (moves : list chess.Move) (best_move : option string) (best_dtm : option nat)
    : option string * option nat :=
  match moves with
  | [] => (best_move, best_dtm)
  | move :: rest =>
      match tablebase !! next_fen board move with
      | Some (Mate next_dtm, _) =>
          if below next_dtm best_dtm
          then white_scan tablebase board rest (Some (chess.uci move)) (Some next_dtm)
          else white_scan tablebase board rest best_move best_dtm
      | _ => white_scan tablebase board rest best_move best_dtm
      end
  end.

(** Black to move: the loop computing [(all_moves_lose, worst_dtm)]; it
    breaks at the first successor that is missing or drawn. *)
Fixpoint black_scan (tablebase : Tablebase) (board : chess.Board)
    (moves : list chess.Move) (worst_dtm : nat) : bool * nat :=
  match moves with
  | [] => (true, worst_dtm)
  | move :: rest =>
      match tablebase !! next_fen board move with
      | None => (false, worst_dtm)
      | Some (DRAW, _) => (false, worst_dtm)
      | Some (Mate next_dtm, _) =>
          black_scan tablebase board rest
            (if (worst_dtm <? next_dtm)%nat then next_dtm else worst_dtm)
      end
  end.

(** The second loop of the Black branch: the first move whose successor
    has [dtm == worst_dtm]. *)
Fixpoint find_defense (tablebase : Tablebase) (board : chess.Board)
    (moves : list chess.Move) (worst_dtm : nat) : option string :=
  match moves with
  | [] => None
  | move :: rest =>
      match tablebase !! next_fen board move with
      | Some (next_dtm, _) =>
          if Dtm_eqb next_dtm (Mate worst_dtm) then Some (chess.uci move)
          else find_defense tablebase board rest worst_dtm
      | None => find_defense tablebase board rest worst_dtm
      end
  end.

(** Truth value of [best_move]: [None] and the empty string are false. *)
Definition truthy (best_move : option string) : bool :=
  match best_move with
  | Some s => negb (String.eqb s "")
  | None => false
  end.

(** [dtm == current_dtm - 1] on integers. *)
Definition is_previous (dtm current_dtm : nat) : bool :=
  (Z.of_nat dtm =? Z.of_nat current_dtm - 1).

(** The body of the scan over [all_positions] inside the [while] loop, for
    one position: the new tablebase and whether the position was labelled
    (appended to [new_positions]). *)
Definition examine (tablebase : Tablebase) (current_dtm : nat) (fen : string)
    : option (Tablebase * bool) :=
  match tablebase !! fen with
  | Some _ => Some (tablebase, false)
  | None =>
      board ← chess.Board_of_fen fen;
      match chess.turn board with
      | chess.WHITE =>
          let '(best_move, best_dtm) :=
            white_scan tablebase board (chess.legal_moves board) None None in
          if truthy best_move
             && match best_dtm with
                | Some best => is_previous best current_dtm
                | None => false
                end
          then Some (<[fen := (Mate current_dtm, best_move)]> tablebase, true)
          else Some (tablebase, false)
      | chess.BLACK =>
          if negb (chess.has_legal_moves board) then Some (tablebase, false)
          else
            let '(all_moves_lose, worst_dtm) :=
              black_scan tablebase board (chess.legal_moves board) 0 in
            if all_moves_lose && is_previous worst_dtm current_dtm then
              let best_defense :=
                find_defense tablebase board (chess.legal_moves board) worst_dtm in
              Some (<[fen := (Mate current_dtm, best_defense)]> tablebase, true)
            else Some (tablebase, false)
      end
  end.

(** One pass of the [while] loop over [all_positions]; the dictionary is
    updated in place, so labels of this pass are visible to the positions
    examined after them. *)
Fixpoint scan_positions (positions : list string) (tablebase : Tablebase)
    (current_dtm : nat) (found : bool) : option (Tablebase * bool) :=
  match positions with
  | [] => Some (tablebase, found)
  | fen :: rest =>
      match examine tablebase current_dtm fen with
      | Some (tablebase', labelled) =>
          scan_positions rest tablebase' current_dtm (found || labelled)
      | None => None
      end
  end.

(** [while positions_found_last_iteration and current_dtm < 50]: the
    recursion is on [50 - current_dtm], the number of passes the cap still
    allows.  The result carries the final [current_dtm], the number of
    passes made. *)
Fixpoint induction_passes (remaining : nat) (all_positions : list string)
    (tablebase : Tablebase) (current_dtm : nat) : option (Tablebase * nat) :=
  match remaining with
  | O => Some (tablebase, current_dtm)
  | S remaining' =>
      let current_dtm := S current_dtm in
      match scan_positions all_positions tablebase current_dtm false with
      | Some (tablebase', true) =>
          induction_passes remaining' all_positions tablebase' current_dtm
      | Some (tablebase', false) => Some (tablebase', current_dtm)
      | None => None
      end
  end.

(** The closing loop: every position still missing is a draw. *)
Fixpoint mark_draws (positions : list string) (tablebase : Tablebase) : Tablebase :=
  match positions with
  | [] => tablebase
  | fen :: rest =>
      mark_draws rest
        (match tablebase !! fen with
         | Some _ => tablebase
         | None => <[fen := (DRAW, None)]> tablebase
         end)
  end.

(** [_backward_induction_fixed(all_positions)], with the number of passes
    of the [while] loop. *)
Definition induction_with_passes (all_positions : list string) (tablebase : Tablebase)
    : option (Tablebase * nat) :=
  match induction_passes 50 all_positions tablebase 0 with
  | Some (tablebase', passes) => Some (mark_draws all_positions tablebase', passes)
  | None => None
  end.

Definition _backward_induction_fixed (all_positions : list string)
    (tablebase : Tablebase) : option Tablebase :=
  match induction_with_passes all_positions tablebase with
  | Some (tablebase', _) => Some tablebase'
  | None => None
  end.

(** Steps 2 to 4 of [generate_krk_tablebase()], given the list
    [all_positions] of step 1. *)
Definition generate_from (all_positions : list string) (tablebase : Tablebase)
    : option Tablebase :=
  tablebase1 ← find_checkmates all_positions tablebase;
  tablebase2 ← find_stalemates all_positions tablebase1;
  _backward_induction_fixed all_positions tablebase2.

(** [generate_krk_tablebase()] run on a generator whose dictionary is
    [tablebase] (empty after [__init__]); printing is omitted. *)
Definition generate_krk_tablebase (tablebase : Tablebase) : option Tablebase :=
  generate_from _generate_all_positions tablebase.

(** The maximum integer [dtm] of the dictionary, as [_print_statistics]
    computes it ([max_dtm] starts at 0). *)
Definition max_dtm (tablebase : Tablebase) : nat :=
  map_fold (fun _ (entry : Entry) (max_dtm : nat) =>
      match fst entry with
      | Mate dtm => if (max_dtm <? dtm)%nat then dtm else max_dtm
      | DRAW => max_dtm
      end) 0%nat tablebase.

(** [_print_statistics()]: the numbers it computes before printing them.
    [draws] counts the entries whose [dtm] is ['DRAW'], [dtm_counts] maps
    each integer [dtm] to the number of entries that hold it. *)
Definition count_draws (tablebase : Tablebase) : nat :=
  map_fold (fun _ (entry : Entry) (draws : nat) =>
      match fst entry with
      | DRAW => S draws
      | Mate _ => draws
      end) 0%nat tablebase.

Definition count_dtms (tablebase : Tablebase) : gmap nat nat :=
  map_fold (fun _ (entry : Entry) (dtm_counts : gmap nat nat) =>
      match fst entry with
      | Mate dtm =>
          let dtm_counts :=
            match dtm_counts !! dtm with
            | Some _ => dtm_counts
            | None => <[dtm := 0%nat]> dtm_counts
            end in
          <[dtm := S (default 0%nat (dtm_counts !! dtm))]> dtm_counts
      | DRAW => dtm_counts
      end) ∅ tablebase.

Record Statistics := mkStatistics {
  total : nat;
  draws : nat;
  mates : Z;
  maximum_dtm : nat;
  dtm_counts : gmap nat nat
}.

Definition _print_statistics (tablebase : Tablebase) : Statistics :=
  let total := size tablebase in
  let draws := count_draws tablebase in
  let mates := Z.of_nat total - Z.of_nat draws in
  mkStatistics total draws mates (max_dtm tablebase) (count_dtms tablebase).

(** What [query_position] answers. *)
Definition option_str (o : option string) : string :=
  match o with Some s => s | None => "None" end.

(** [query_position(fen)]: the answer, and the dictionary, which is only
    read. *)
Definition query_position (tablebase : Tablebase) (fen : string)
    : string * Tablebase :=
  match tablebase !! fen with
  | Some (dtm, best_move) =>
      match dtm with
      | DRAW => ("Position is a draw", tablebase)
      | Mate d =>
          ("Mate in " ++ chess.str d ++ " moves. Best move: " ++ option_str best_move,
           tablebase)
      end
  | None => ("Position not found in tablebase", tablebase)
  end.

End TablebaseGenerator.

(** ** [OptimizedTablebaseGenerator] of [chess_solver_optimized.py]

    Its [_generate_all_positions] runs the same three loops but collects
    the strings in a Python [set].  A set is iterated in an order the
    program does not control; the functions below take that order as the
    list [all_positions], an enumeration without repetition of the set. *)
Module OptimizedTablebaseGenerator.

Definition _generate_all_positions : gset string :=
  list_to_set
    (flat_map (fun wk =>
       flat_map (fun wr =>
         flat_map (fun bk => TablebaseGenerator.positions_at wk wr bk) range64)
         range64)
       range64).

(** [order] is an iteration order of the set [s]. *)
Definition iteration_order (s : gset string) (order : list string) : Prop :=
  NoDup order ∧ ∀ fen, fen ∈ order ↔ fen ∈ s.

(** Step 2 of [generate_tablebase_simple]: checkmates and, otherwise,
    stalemates. *)
Fixpoint find_terminals (positions : list string) (tablebase : Tablebase)
    : option Tablebase :=
  match positions with
  | [] => Some tablebase
  | fen :: rest =>
      board ← chess.Board_of_fen fen;
      find_terminals rest
        (if chess.is_checkmate board then <[fen := (Mate 0, None)]> tablebase
         else if chess.is_stalemate board then <[fen := (DRAW, None)]> tablebase
         else tablebase)
  end.

Definition known_fen (tablebase : Tablebase) (fen : string) : bool :=
  match tablebase !! fen with Some _ => true | None => false end.

(** [_is_near_mate(board)]: some legal move leads to a FEN of the
    dictionary. *)
Definition _is_near_mate (tablebase : Tablebase) (board : chess.Board) : bool :=
  existsb (fun move => known_fen tablebase (next_fen board move))
          (chess.legal_moves board).

(** [_get_best_move_simple(board)] *)
Definition _get_best_move_simple (tablebase : Tablebase) (board : chess.Board)
    : option string :=
  match List.find (fun move => known_fen tablebase (next_fen board move))
                  (chess.legal_moves board) with
  | Some move => Some (chess.uci move)
  | None =>
      match chess.legal_moves board with
      | move :: _ => Some (chess.uci move)
      | [] => None
      end
  end.

(** [l[:n]]; a negative [n] counts from the end. *)
Definition slice_to (n : Z) (l : list string) : list string :=
  if n <? 0 then take (length l - Z.to_nat (- n)) l
  else take (Z.to_nat n) l.

(** The loop over [positions_to_check] of one iteration; [new_found]
    counts the positions labelled. *)
Fixpoint check_positions (positions : list string) (tablebase : Tablebase)
    (iteration : nat) (new_found : nat) : option (Tablebase * nat) :=
  match positions with
  | [] => Some (tablebase, new_found)
  | fen :: rest =>
      match tablebase !! fen with
      | Some _ => check_positions rest tablebase iteration new_found
      | None =>
          board ← chess.Board_of_fen fen;
          if _is_near_mate tablebase board then
            check_positions rest
              (<[fen := (Mate iteration, _get_best_move_simple tablebase board)]> tablebase)
              iteration (S new_found)
          else check_positions rest tablebase iteration new_found
      end
  end.

(** [while iteration < max_iterations], [max_iterations = 10]; the
    recursion is on [max_iterations - iteration].  [known] is computed once,
    before the loop, and never updated. *)
Fixpoint iterations (remaining : nat) (all_positions : list string)
    (known : gset string) (tablebase : Tablebase) (iteration : nat)
    : option Tablebase :=
  match remaining with
  | O => Some tablebase
  | S remaining' =>
      let iteration := S iteration in
      let sample_size :=
        Z.min 1000 (Z.of_nat (length all_positions) - Z.of_nat (size known)) in
      let positions_to_check :=
        slice_to sample_size
          (List.filter (fun p => negb (bool_decide (p ∈ known))) all_positions) in
      match check_positions positions_to_check tablebase iteration 0 with
      | Some (tablebase', O) => Some tablebase'
      | Some (tablebase', S _) =>
          iterations remaining' all_positions known tablebase' iteration
      | None => None
      end
  end.

(** [_simple_backward_induction(all_positions)] *)
Definition _simple_backward_induction (all_positions : list string)
    (tablebase : Tablebase) : option Tablebase :=
  let known := dom tablebase in
  match iterations 10 all_positions known tablebase 0 with
  | Some tablebase' => Some (TablebaseGenerator.mark_draws all_positions tablebase')
  | None => None
  end.

(** [generate_tablebase_simple()], for the iteration order [all_positions]
    of the set of positions. *)
Definition generate_tablebase_simple (all_positions : list string)
    (tablebase : Tablebase) : option Tablebase :=
  tablebase1 ← find_terminals all_positions tablebase;
  _simple_backward_induction all_positions tablebase1.

(** [query(fen)]: the stored pair, or [(None, None)] for a FEN that is not
    a key. *)
Definition query (tablebase : Tablebase) (fen : string)
    : option Dtm * option string :=
  match tablebase !! fen with
  | Some (dtm, best_move) => (Some dtm, best_move)
  | None => (None, None)
  end.

End OptimizedTablebaseGenerator.

(** ** [ChessEndgameSolver] of [chess_solver_optimized.py]

    The part of the window that reads the tablebase: the highlight of the
    best move and the move played on SPACE or by auto-play.  Drawing and the
    event loop of pygame are not modelled. *)
Module ChessEndgameSolver.

Record Solver := mkSolver {
  tablebase : Tablebase;               (* [self.tablebase.tablebase] *)
  board : chess.Game;
  setup_mode : bool;
  selected_piece : option chess.Piece;
  best_move_squares : list (Z * Z);
  auto_play : bool
}.

Definition with_board (self : Solver) (board : chess.Game) : Solver :=
  mkSolver (tablebase self) board (setup_mode self) (selected_piece self)
    (best_move_squares self) (auto_play self).

Definition with_best_move_squares (self : Solver) (squares : list (Z * Z)) : Solver :=
  mkSolver (tablebase self) (board self) (setup_mode self) (selected_piece self)
    squares (auto_play self).

(** [setup_default_position()]: king e1, rook a1, king e8, White to move. *)
Definition setup_default_position (self : Solver) : Solver :=
  let board := chess.Game_clear (board self) in
  let board := chess.Game_set_piece_at board 4 chess.WhiteKing in
  let board := chess.Game_set_piece_at board 0 chess.WhiteRook in
  let board := chess.Game_set_piece_at board 60 chess.BlackKing in
  with_board self (chess.Game_set_turn board chess.WHITE).

(** [(7 - chess.square_rank(sq), chess.square_file(sq))] *)
Definition row_col (sq : Z) : Z * Z :=
  (7 - chess.square_rank sq, chess.square_file sq).

(** [update_best_move_highlight()]; [None] is the [ValueError] of
    [chess.parse_square] on a stored move that does not start with two
    square names. *)
Definition update_best_move_highlight (self : Solver) : option Solver :=
  let self := with_best_move_squares self [] in
  if negb (setup_mode self) then
    let fen := chess.fen (chess.position (board self)) in
    let '(dtm, best_move) := OptimizedTablebaseGenerator.query (tablebase self) fen in
    match best_move with
    | Some uci =>
        if negb (String.eqb uci "") then
          from_sq ← chess.parse_square (substring 0 2 uci);
          to_sq ← chess.parse_square (substring 2 2 uci);
          Some (with_best_move_squares self [row_col from_sq; row_col to_sq])
        else Some self
    | None => Some self
    end
  else Some self.

(** [play_best_move()]: the answer and the object afterwards; [None] is an
    exception ([InvalidMoveError] of [Move.from_uci], or the [ValueError] of
    the highlight). *)
Definition play_best_move (self : Solver) : option (bool * Solver) :=
  let fen := chess.fen (chess.position (board self)) in
  let '(dtm, best_move) := OptimizedTablebaseGenerator.query (tablebase self) fen in
  match best_move with
  | Some uci =>
      if negb (String.eqb uci "") then
        match chess.from_uci uci with
        | Some (chess.Plain move) =>
            if chess.is_legal (chess.position (board self)) move then
              match update_best_move_highlight
                      (with_board self (chess.Game_push (board self) move)) with
              | Some self' => Some (true, self')
              | None => None
              end
            else Some (false, self)
        | Some chess.DropOrPromotion => Some (false, self)
        | None => None
        end
      else Some (false, self)
  | None => Some (false, self)
  end.

End ChessEndgameSolver.

(** ** [ChessEngine] of [chess_engine.py] *)
Module ChessEngine.

Definition positions_at (wk wr bk : Z) : list string :=
  if (wk =? wr) || (wk =? bk) || (wr =? bk) then []
  else
    let wk_rank := wk / 8 in
    let wk_file := wk mod 8 in
    let bk_rank := bk / 8 in
    let bk_file := bk mod 8 in
    if (Z.abs (wk_rank - bk_rank) <=? 1) && (Z.abs (wk_file - bk_file) <=? 1) then []
    else
      flat_map (fun turn =>
          let board := krk_board wk wr bk turn in
          if chess.Color_eqb turn chess.WHITE
             && chess.is_attacked_by board chess.WHITE bk
          then []
          else if chess.Color_eqb turn chess.BLACK
                  && chess.is_attacked_by board chess.BLACK wk
          then []
          else [chess.fen board])
        [chess.WHITE; chess.BLACK].

Definition generate_all_krk_positions : list string :=
  flat_map (fun wk =>
    flat_map (fun wr =>
      flat_map (fun bk => positions_at wk wr bk) range64) range64) range64.

(** The object: [self.board], a python-chess board with its move stack,
    and [self.move_history]. *)
Record Engine := mkEngine {
  board : chess.Game;
  move_history : list chess.Move
}.

(** [ChessEngine()]: [chess.Board(fen=None)] and no history. *)
Definition init : Engine := mkEngine (chess.mkGame chess.empty_board []) [].

(** [setup_krk_endgame(wk_sq, wr_sq, bk_sq)]; [None] is the [ValueError]
    that [chess.parse_square] raises on a name that is no square. *)
Definition setup_krk_endgame (self : Engine) (wk_sq wr_sq bk_sq : string)
    : option Engine :=
  let board := chess.Game_clear (board self) in
  wk ← chess.parse_square wk_sq;
  let board := chess.Game_set_piece_at board wk chess.WhiteKing in
  wr ← chess.parse_square wr_sq;
  let board := chess.Game_set_piece_at board wr chess.WhiteRook in
  bk ← chess.parse_square bk_sq;
  let board := chess.Game_set_piece_at board bk chess.BlackKing in
  Some (mkEngine (chess.Game_set_turn board chess.WHITE) []).

Definition color_name (c : chess.Color) : string :=
  match c with chess.WHITE => "white" | chess.BLACK => "black" end.

(** [piece_map[piece.piece_type]] *)
Definition piece_map (piece_type : chess.PieceType) : string :=
  match piece_type with chess.ROOK => "R" | chess.KING => "K" end.

(** The pair [(color, piece_map[piece.piece_type])] shown for a piece. *)
Definition shown (piece : chess.Piece) : string * string :=
  (color_name (chess.color piece), piece_map (chess.piece_type piece)).

(** The body of the loop of [get_board_array()]:
    [board_array[row][col]] is assigned when the square holds a piece. *)
Definition show_square (b : chess.Board)
    (board_array : list (list (option (string * string)))) (square : Z)
    : list (list (option (string * string))) :=
  match chess.piece_at b square with
  | Some piece =>
      let row := 7 - chess.square_rank square in
      let col := chess.square_file square in
      alter (fun cells => <[Z.to_nat col := Some (shown piece)]> cells)
            (Z.to_nat row) board_array
  | None => board_array
  end.

(** [get_board_array()]: eight rows of eight cells, all [None] at first,
    filled in by a scan of [chess.SQUARES]. *)
Definition get_board_array (self : Engine) : list (list (option (string * string))) :=
  fold_left (show_square (chess.position (board self)))
    chess.SQUARES (replicate 8 (replicate 8 None)).

(** [get_legal_moves_from_square(row, col)] *)
Definition get_legal_moves_from_square (self : Engine) (row col : Z) : list (Z * Z) :=
  let square := chess.square col (7 - row) in
  flat_map (fun move =>
      if chess.from_square move =? square then
        [(7 - chess.square_rank (chess.to_square move),
          chess.square_file (chess.to_square move))]
      else [])
    (chess.legal_moves (chess.position (board self))).

(** [make_move(from_row, from_col, to_row, to_col)]: the answer and the
    object afterwards. *)
Definition make_move (self : Engine) (from_row from_col to_row to_col : Z)
    : bool * Engine :=
  let from_square := chess.square from_col (7 - from_row) in
  let to_square := chess.square to_col (7 - to_row) in
  let move := chess.mkMove from_square to_square in
  if chess.is_legal (chess.position (board self)) move then
    (true, mkEngine (chess.Game_push (board self) move) (move_history self ++ [move]))
  else (false, self).

(** [undo_move()]; [None] is the [IndexError] of [board.pop()] on a board
    whose move stack is empty. *)
Definition undo_move (self : Engine) : option (bool * Engine) :=
  match move_history self with
  | [] => Some (false, self)
  | _ :: _ =>
      match chess.Game_pop (board self), chess.pop_last (move_history self) with
      | Some (_, board), Some (history, _) => Some (true, mkEngine board history)
      | _, _ => None
      end
  end.

(** The dictionary [get_game_state()] returns. *)
Record GameState := mkGameState {
  state_turn : string;
  state_is_check : bool;
  state_is_checkmate : bool;
  state_is_stalemate : bool;
  state_is_insufficient_material : bool;
  state_move_count : nat;
  state_fen : string
}.

Definition get_game_state (self : Engine) : GameState :=
  let b := chess.position (board self) in
  mkGameState (color_name (chess.turn b)) (chess.is_check b) (chess.is_checkmate b)
    (chess.is_stalemate b) (chess.is_insufficient_material b)
    (length (move_history self)) (chess.fen b).

(** [str(n)] for an integer of either sign. *)
Definition str_int (n : Z) : string :=
  if n <? 0 then "-" ++ chess.str (Z.to_nat (- n)) else chess.str (Z.to_nat n).

(** [get_square_notation(row, col)], for the columns [chr] maps to one
    byte. *)
Definition get_square_notation (row col : Z) : string :=
  let file_letter := String (ascii_of_nat (Z.to_nat (97 + col))) "" in
  let rank_number := 8 - row in
  file_letter ++ str_int rank_number.

(** [is_square_attacked(row, col, by_color)]: any [by_color] other than
    ['white'] stands for Black. *)
Definition is_square_attacked (self : Engine) (row col : Z) (by_color : string) : bool :=
  let square := chess.square col (7 - row) in
  let color := if String.eqb by_color "white" then chess.WHITE else chess.BLACK in
  chess.is_attacked_by (chess.position (board self)) color square.

(** [get_piece_at(row, col)] *)
Definition get_piece_at (self : Engine) (row col : Z) : option (string * string) :=
  let square := chess.square col (7 - row) in
  match chess.piece_at (chess.position (board self)) square with
  | Some piece => Some (shown piece)
  | None => None
  end.


(** [get_fen()] *)
Definition get_fen (self : Engine) : string :=
  chess.fen (chess.position (board self)).

(** The body of the loop of [encode_position()]: the dictionary [pieces],
    as the triple of its values for ['wk'], ['wr'] and ['bk'], after one
    square. *)
Definition note_square (b : chess.Board)
    (pieces : option Z * option Z * option Z) (square : Z)
    : option Z * option Z * option Z :=
  let '(wk, wr, bk) := pieces in
  match chess.piece_at b square with
  | Some piece =>
      match chess.piece_type piece with
      | chess.KING =>
          if chess.Color_eqb (chess.color piece) chess.WHITE
          then (Some square, wr, bk)
          else (wk, wr, Some square)
      | chess.ROOK =>
          if chess.Color_eqb (chess.color piece) chess.WHITE
          then (wk, Some square, bk)
          else (wk, wr, bk)
      end
  | None => (wk, wr, bk)
  end.

(** [encode_position()]: the scan of [chess.SQUARES], and the turn. *)
Definition encode_position (self : Engine)
    : option Z * option Z * option Z * chess.Color :=
  let b := chess.position (board self) in
  (fold_left (note_square b) chess.SQUARES (None, None, None), chess.turn b).

End ChessEngine.

(** ** [ChessGUI] of [chess_UI.py]

    The part of the board window that drives the engine: the handling of a
    click.  Drawing and the event loop of pygame are not modelled. *)
Module ChessGUI.

Definition WINDOW_SIZE : Z := 640.
Definition BOARD_SIZE : Z := 8.
Definition SQUARE_SIZE : Z := WINDOW_SIZE / BOARD_SIZE.

Record GUI := mkGUI {
  engine : ChessEngine.Engine;
  selected_square : option (Z * Z);
  legal_moves : list (Z * Z);
  last_move : option ((Z * Z) * (Z * Z))
}.

(** [(row, col) in self.legal_moves] *)
Definition listed (row col : Z) (squares : list (Z * Z)) : bool :=
  existsb (fun square => (fst square =? row) && (snd square =? col)) squares.

(** [handle_click(pos)].  With a square selected the click is the
    destination of a move, tried when it is one of the destinations listed
    at selection time, and the selection is cleared; without a selection a
    click on a piece of the side to move selects it. *)
Definition handle_click (self : GUI) (pos : Z * Z) : GUI :=
  let '(x, y) := pos in
  if y >=? WINDOW_SIZE then self
  else
    let col := x / SQUARE_SIZE in
    let row := y / SQUARE_SIZE in
    if (0 <=? row) && (row <? BOARD_SIZE) && (0 <=? col) && (col <? BOARD_SIZE) then
      match selected_square self with
      | Some (from_row, from_col) =>
          let self :=
            if listed row col (legal_moves self) then
              let '(made, engine) :=
                ChessEngine.make_move (engine self) from_row from_col row col in
              if made then
                mkGUI engine (selected_square self) (legal_moves self)
                  (Some ((from_row, from_col), (row, col)))
              else mkGUI engine (selected_square self) (legal_moves self) (last_move self)
            else self in
          mkGUI (engine self) None [] (last_move self)
      | None =>
          let piece := ChessEngine.get_piece_at (engine self) row col in
          let state := ChessEngine.get_game_state (engine self) in
          match piece with
          | Some (color, _) =>
              if String.eqb color (ChessEngine.state_turn state) then
                mkGUI (engine self) (Some (row, col))
                  (ChessEngine.get_legal_moves_from_square (engine self) row col)
                  (last_move self)
              else self
          | None => self
          end
      end
    else self.

End ChessGUI.

(** * Vocabulary of the properties *)

Fixpoint all_chars (P : ascii -> bool) (s : string) : bool :=
  match s with
  | EmptyString => true
  | String c s' => P c && all_chars P s'
  end.

Definition is_digit (c : ascii) : bool :=
  Ascii.eqb c "0" || Ascii.eqb c "1" || Ascii.eqb c "2" || Ascii.eqb c "3"
  || Ascii.eqb c "4" || Ascii.eqb c "5" || Ascii.eqb c "6" || Ascii.eqb c "7"
  || Ascii.eqb c "8" || Ascii.eqb c "9".

(** The characters of one row of a board part. *)
Definition row_char (c : ascii) : bool :=
  is_digit c || Ascii.eqb c "K" || Ascii.eqb c "R" || Ascii.eqb c "k".

Definition board_char (c : ascii) : bool := row_char c || Ascii.eqb c "/".

(** The grid of a board, rank 8 first. *)
Definition grid_of (b : chess.Board) : list (list (option chess.Piece)) :=
  map (fun r => map (chess.piece_at b) (chess.rank_squares r)) chess.RANKS_180.

(** Boards of the fragment: pieces on distinct squares of the board, and a
    fullmove number of at least one. *)
Definition in_range (o : option Z) : Prop :=
  match o with Some s => 0 <= s < 64 | None => True end.

Definition apart (o1 o2 : option Z) : Prop :=
  match o1, o2 with Some a, Some b => a <> b | _, _ => True end.

Record well_formed (b : chess.Board) : Prop := mk_well_formed {
  wf_wk : in_range (chess.wk b);
  wf_wr : in_range (chess.wr b);
  wf_bk : in_range (chess.bk b);
  wf_wk_wr : apart (chess.wk b) (chess.wr b);
  wf_wk_bk : apart (chess.wk b) (chess.bk b);
  wf_wr_bk : apart (chess.wr b) (chess.bk b);
  wf_fullmove : (1 <= chess.fullmove_number b)%nat
}.

(** The square a piece ends on when the cells of [b] on the squares [sqs]
    are put on a board that held it on [previous]. *)
Definition placed (target previous : option Z) (sqs : list Z) : option Z :=
  match target with
  | Some s => if chess.mem s sqs then Some s else previous
  | None => previous
  end.

Definition off (o : option Z) (sqs : list Z) : Prop :=
  forall sq, In sq sqs -> chess.at_square o sq = false.

Ltac case_eqb :=
  repeat match goal with
         | |- context [Z.eqb ?a ?b] => destruct (Z.eqb_spec a b); subst
         | H : context [Z.eqb ?a ?b] |- _ => destruct (Z.eqb_spec a b); subst
         end.

(** A move of the side to move from one of its pieces to a square of the
    board that holds none of its pieces. *)
Definition plausible (b : chess.Board) (m : chess.Move) : Prop :=
  chess.occupied_co b (chess.turn b) (chess.from_square m) = true
  /\ 0 <= chess.to_square m < 64
  /\ chess.occupied_co b (chess.turn b) (chess.to_square m) = false.

(** The test of the enumerators for adjacent kings. *)
Definition kings_adjacent (wk_sq bk_sq : Z) : bool :=
  (Z.abs (wk_sq / 8 - bk_sq / 8) <=? 1) && (Z.abs (wk_sq mod 8 - bk_sq mod 8) <=? 1).

(** The condition under which the loops append the position of a tuple. *)
Definition emitted (wk_sq wr_sq bk_sq : Z) (t : chess.Color) : Prop :=
  (wk_sq <> wr_sq /\ wk_sq <> bk_sq /\ wr_sq <> bk_sq)
  /\ kings_adjacent wk_sq bk_sq = false
  /\ (t = chess.WHITE ->
      chess.is_attacked_by (krk_board wk_sq wr_sq bk_sq t) chess.BLACK wk_sq = false).

(** The positions of the enumeration, with the board each one is read
    back as. *)
Definition krk_position (fen : string) (b : chess.Board) : Prop :=
  exists wk_sq wr_sq bk_sq t,
    (0 <= wk_sq < 64 /\ 0 <= wr_sq < 64 /\ 0 <= bk_sq < 64)
    /\ (wk_sq <> wr_sq /\ wk_sq <> bk_sq /\ wr_sq <> bk_sq)
    /\ kings_adjacent wk_sq bk_sq = false
    /\ b = chess.mkBoard (Some wk_sq) (Some wr_sq) (Some bk_sq) t 0 1
    /\ fen = chess.fen b.

(** Every FEN of the list is read back as a board. *)
Definition readable (positions : list string) : Prop :=
  forall fen, In fen positions -> is_Some (chess.Board_of_fen fen).

(** The integer [dtm] stored for a FEN, if any. *)
Definition mate_dtm (tablebase : Tablebase) (fen : string) : option nat :=
  match tablebase !! fen with
  | Some (Mate d, _) => Some d
  | _ => None
  end.

(** The integer [dtm]s of the successors of [board], in the order of its
    legal moves; successors that are missing or drawn contribute nothing. *)
Definition successor_dtms (tablebase : Tablebase) (board : chess.Board)
    (moves : list chess.Move) : list nat :=
  omap (fun move => mate_dtm tablebase (next_fen board move)) moves.

Definition unreached (tablebase : Tablebase) (fen : string) : Prop :=
  exists board, chess.Board_of_fen fen = Some board
    /\ forall m, In m (chess.legal_moves board) ->
         tablebase !! next_fen board m = None.

(** The entry the construction stores for a FEN: checkmates get the
    integer 0, every other position of the list is a draw. *)
Definition expected_entry (positions : list string) (fen : string) : option Entry :=
  if bool_decide (fen ∈ positions) then
    match chess.Board_of_fen fen with
    | Some board =>
        Some (if chess.is_checkmate board then (Mate 0, None) else (DRAW, None))
    | None => None
    end
  else None.

(** The entry stored by the two terminal loops. *)
Definition terminal_entry (positions : list string) (fen : string) : option Entry :=
  if bool_decide (fen ∈ positions) then
    match chess.Board_of_fen fen with
    | Some board =>
        if chess.is_checkmate board then Some (Mate 0, None)
        else if chess.is_stalemate board then Some (DRAW, None)
        else None
    | None => None
    end
  else None.

(** No legal move from a position of the list leads to a FEN of the
    list. *)
Definition successors_outside (positions : list string) : Prop :=
  forall fen board m,
    In fen positions -> chess.Board_of_fen fen = Some board ->
    In m (chess.legal_moves board) -> ~ In (next_fen board m) positions.

Definition cornered_fen : string := "7k/R7/7K/8/8/8/8/8 b - - 0 1".

(** Black king h8, white rook a7, white king h6, Black to move. *)
Definition cornered_board : chess.Board :=
  chess.mkBoard (Some 47) (Some 48) (Some 63) chess.BLACK 0 1.

(** A checkmate: black king g8, white rook a8, white king g6. *)
Definition back_rank_fen : string := "R5k1/8/6K1/8/8/8/8/8 b - - 0 1".

Definition back_rank_board : chess.Board :=
  chess.mkBoard (Some 46) (Some 56) (Some 62) chess.BLACK 0 1.

(** White king g6, rook a1, black king g8, White to move: Ra8 mates. *)
Definition mate_in_one_fen : string := "6k1/8/6K1/8/8/8/8/R7 w - - 0 1".

Definition mate_in_one_board : chess.Board :=
  chess.mkBoard (Some 46) (Some 0) (Some 62) chess.WHITE 0 1.

Definition rook_a1a8 : chess.Move := chess.mkMove 0 56.

(** [board_array[r][c]], if the array has that cell. *)
Definition cell_at (board_array : list (list (option (string * string))))
    (r c : nat) : option (option (string * string)) :=
  board_array !! r ≫= (fun cells => cells !! c).



(** A window on the mate in one, with a tablebase that holds its move. *)
Definition solver_at_mate_in_one : ChessEndgameSolver.Solver :=
  ChessEndgameSolver.mkSolver
    (<[mate_in_one_fen := (Mate 1, Some "a1a8")]> ∅)
    (chess.mkGame mate_in_one_board []) false None [] false.

(** The sum of the values of [dtm_counts]. *)
Definition sum_counts (counts : gmap nat nat) : nat :=
  map_fold (fun _ (n : nat) (sum : nat) => (n + sum)%nat) 0%nat counts.

(** * Properties *)

(** ** FEN strings are read back as the board they were written from *)

#[local] Arguments String.append !_ _ / : simpl nomatch.

Lemma all_chars_app P s1 s2 :
  all_chars P (s1 ++ s2) = all_chars P s1 && all_chars P s2.
Proof.
  induction s1 as [|c s1 IH]; simpl; [reflexivity|].
  rewrite IH. apply andb_assoc.
Qed.

Lemma all_chars_impl (P Q : ascii -> bool) s :
  (forall c, P c = true -> Q c = true) ->
  all_chars P s = true -> all_chars Q s = true.
Proof.
  intros HPQ. induction s as [|c s IH]; simpl; [reflexivity|].
  rewrite !andb_true_iff. intros [Hc Hs]. split; auto.
Qed.

Lemma string_app_assoc (s1 s2 s3 : string) : (s1 ++ s2) ++ s3 = s1 ++ (s2 ++ s3).
Proof. induction s1 as [|c s1 IH]; simpl; [reflexivity|]. now rewrite IH. Qed.

Lemma string_app_nil_r (s : string) : s ++ "" = s.
Proof. induction s as [|c s IH]; simpl; [reflexivity|]. now rewrite IH. Qed.

Lemma digits_of_uint d : all_chars is_digit (NilEmpty.string_of_uint d) = true.
Proof. induction d; simpl; auto. Qed.

Lemma to_uint_nonnil n : Nat.to_uint n <> Nil.
Proof.
  rewrite <- (Unsigned.of_to n) at 1.
  rewrite Unsigned.to_of. apply DecimalFacts.unorm_nonnil.
Qed.

Lemma str_digits n : all_chars is_digit (chess.str n) = true.
Proof.
  unfold chess.str, NilZero.string_of_uint.
  destruct (Nat.to_uint n); try apply digits_of_uint. reflexivity.
Qed.

Lemma str_nonempty n : chess.str n <> "".
Proof.
  unfold chess.str, NilZero.string_of_uint.
  pose proof (to_uint_nonnil n). destruct (Nat.to_uint n); simpl; congruence.
Qed.

Lemma int_of_str_str n : chess.int_of_str (chess.str n) = Some n.
Proof.
  unfold chess.int_of_str, chess.str.
  rewrite NilZero.usu by apply to_uint_nonnil.
  now rewrite Unsigned.of_to.
Qed.

Lemma flush_chars e : all_chars row_char (chess.flush e) = true.
Proof.
  destruct e; [reflexivity|]. unfold chess.flush.
  eapply all_chars_impl; [|apply str_digits].
  intros c Hc. unfold row_char. now rewrite Hc.
Qed.

Lemma row_fen_chars cells e : all_chars row_char (chess.row_fen cells e) = true.
Proof.
  revert e. induction cells as [|[p|] cells IH]; intros e; simpl.
  - apply flush_chars.
  - rewrite !all_chars_app, flush_chars, IH. now destruct p.
  - apply IH.
Qed.

(** Splitting at blanks and at slashes *)

Lemma split_on_word sep w rest cur :
  all_chars (fun c => negb (Ascii.eqb c sep)) w = true ->
  chess.split_on sep (w ++ String sep rest) cur
  = (cur ++ w) :: chess.split_on sep rest "".
Proof.
  revert cur. induction w as [|c w IH]; intros cur; simpl.
  - intros _. rewrite Ascii.eqb_refl. now rewrite string_app_nil_r.
  - rewrite andb_true_iff, negb_true_iff. intros [Hc Hw].
    rewrite Hc, IH by assumption. now rewrite string_app_assoc.
Qed.

Lemma split_on_last sep w cur :
  all_chars (fun c => negb (Ascii.eqb c sep)) w = true ->
  chess.split_on sep w cur = [cur ++ w].
Proof.
  revert cur. induction w as [|c w IH]; intros cur; simpl.
  - intros _. now rewrite string_app_nil_r.
  - rewrite andb_true_iff, negb_true_iff. intros [Hc Hw].
    rewrite Hc, IH by assumption. now rewrite string_app_assoc.
Qed.

Lemma split_on_join rows :
  rows <> [] ->
  Forall (fun r => all_chars (fun c => negb (Ascii.eqb c "/")) r = true) rows ->
  chess.split_on "/" (chess.join_slash rows) "" = rows.
Proof.
  induction rows as [|r rows IH]; [congruence|]. intros _ Hrows.
  inversion Hrows as [|? ? Hr Hrest]; subst.
  destruct rows as [|r' rows].
  - simpl. now rewrite split_on_last.
  - change (chess.join_slash (r :: r' :: rows))
      with (r ++ String "/" (chess.join_slash (r' :: rows))).
    rewrite split_on_word by assumption. simpl append at 1.
    f_equal. apply IH; [congruence|assumption].
Qed.

Lemma split_ws_word w rest cur :
  all_chars (fun c => negb (chess.is_space c)) w = true ->
  cur ++ w <> "" ->
  chess.split_ws (w ++ String " " rest) cur
  = (cur ++ w) :: chess.split_ws rest "".
Proof.
  revert cur. induction w as [|c w IH]; intros cur; simpl.
  - intros _. rewrite string_app_nil_r. intros Hcur.
    destruct cur; [congruence|reflexivity].
  - rewrite andb_true_iff, negb_true_iff. intros [Hc Hw] Hne.
    rewrite Hc. rewrite IH; rewrite ?string_app_assoc; auto.
Qed.

Lemma split_ws_last w cur :
  all_chars (fun c => negb (chess.is_space c)) w = true ->
  cur ++ w <> "" ->
  chess.split_ws w cur = [cur ++ w].
Proof.
  revert cur. induction w as [|c w IH]; intros cur; simpl.
  - intros _. rewrite string_app_nil_r. intros Hcur.
    destruct cur; [congruence|reflexivity].
  - rewrite andb_true_iff, negb_true_iff. intros [Hc Hw] Hne.
    rewrite Hc. rewrite IH; rewrite ?string_app_assoc; auto.
Qed.

(** Reading a row back *)

Lemma parse_row_flush e rest cells :
  (1 <= e <= 8)%nat ->
  (forall c s, rest = String c s -> chess.empty_run c = None) ->
  chess.parse_row rest true = Some cells ->
  chess.parse_row (chess.flush e ++ rest) false = Some (replicate e None ++ cells)%list.
Proof.
  intros He _ Hrest.
  destruct e as [|[|[|[|[|[|[|[|[|e]]]]]]]]]; try lia;
    simpl; now rewrite Hrest.
Qed.

Lemma parse_row_after_digit rest :
  (forall c s, rest = String c s -> chess.empty_run c = None) ->
  chess.parse_row rest true = chess.parse_row rest false.
Proof.
  intros H. destruct rest as [|c s]; [reflexivity|].
  simpl. now rewrite (H c s eq_refl).
Qed.

Lemma parse_row_row_fen cells e :
  (e + length cells <= 8)%nat ->
  chess.parse_row (chess.row_fen cells e) false
  = Some (replicate e None ++ cells)%list.
Proof.
  revert e. induction cells as [|[p|] cells IH]; intros e He; simpl in *.
  - destruct e as [|e]; [reflexivity|].
    rewrite <- (string_app_nil_r (chess.flush (S e))).
    rewrite (parse_row_flush (S e) "" []); [reflexivity|lia|congruence|reflexivity].
  - assert (Hp : chess.parse_row (chess.symbol p ++ chess.row_fen cells 0) false
                 = Some (Some p :: cells)).
    { destruct p; simpl; rewrite IH by lia; reflexivity. }
    destruct e as [|e]; [exact Hp|].
    apply parse_row_flush; [lia| |].
    + intros c s Hc. destruct p; simpl in Hc; injection Hc as <- _; reflexivity.
    + rewrite parse_row_after_digit; [exact Hp|].
      intros c s Hc. destruct p; simpl in Hc; injection Hc as <- _; reflexivity.
  - rewrite IH by lia. f_equal.
    change (None :: cells) with ([None] ++ cells)%list.
    rewrite app_assoc. f_equal.
    change [None] with (replicate 1 (@None chess.Piece)).
    rewrite <- replicate_add. f_equal. lia.
Qed.

Lemma parse_full_row_row_fen cells :
  length cells = 8%nat ->
  chess.parse_full_row (chess.row_fen cells 0) = Some cells.
Proof.
  intros Hlen. unfold chess.parse_full_row.
  rewrite parse_row_row_fen by lia. simpl. now rewrite Hlen.
Qed.

Lemma parse_rows_row_fen (grid : list (list (option chess.Piece))) :
  Forall (fun cells => length cells = 8%nat) grid ->
  chess.parse_rows (map (fun cells => chess.row_fen cells 0) grid) = Some grid.
Proof.
  induction 1 as [|cells grid Hlen _ IH]; simpl; [reflexivity|].
  now rewrite parse_full_row_row_fen, IH.
Qed.

Lemma board_fen_grid b :
  chess.board_fen b = chess.join_slash (map (fun cells => chess.row_fen cells 0) (grid_of b)).
Proof. unfold chess.board_fen, grid_of. now rewrite map_map. Qed.

Lemma concat_grid_of b :
  concat (grid_of b) = map (chess.piece_at b) chess.SQUARES_180.
Proof.
  unfold grid_of. rewrite <- flat_map_concat_map.
  assert (H : chess.SQUARES_180 = flat_map chess.rank_squares chess.RANKS_180)
    by (vm_compute; reflexivity).
  rewrite H. generalize chess.RANKS_180 as ranks.
  induction ranks as [|r ranks IH]; cbn [flat_map]; [reflexivity|].
  now rewrite map_app, IH.
Qed.

Lemma board_fen_chars b : all_chars board_char (chess.board_fen b) = true.
Proof.
  rewrite board_fen_grid. generalize (grid_of b) as grid.
  assert (Hrow : forall cells, all_chars board_char (chess.row_fen cells 0) = true).
  { intros cells. eapply all_chars_impl; [|apply row_fen_chars].
    intros c Hc. unfold board_char. now rewrite Hc. }
  induction grid as [|cells [|cells' grid] IH].
  - reflexivity.
  - simpl. apply Hrow.
  - change (chess.join_slash (map (fun cells => chess.row_fen cells 0) (cells :: cells' :: grid)))
      with (chess.row_fen cells 0 ++ String "/"
              (chess.join_slash (map (fun cells => chess.row_fen cells 0) (cells' :: grid)))).
    rewrite all_chars_app, Hrow. simpl. exact IH.
Qed.

Lemma board_fen_nonempty b : chess.board_fen b <> "".
Proof.
  rewrite board_fen_grid. unfold grid_of, chess.RANKS_180.
  set (f := fun r : Z => map (chess.piece_at b) (chess.rank_squares r)).
  cbn [map chess.join_slash].
  destruct (chess.row_fen (f 7) 0); discriminate.
Qed.

Lemma set_board_fen_board_fen acc b :
  chess.set_board_fen acc (chess.board_fen b)
  = Some (fold_left chess.place
            (map (fun sq => (sq, chess.piece_at b sq)) chess.SQUARES_180) acc).
Proof.
  unfold chess.set_board_fen. rewrite board_fen_grid.
  rewrite split_on_join.
  - rewrite length_map. change (length (grid_of b)) with 8%nat. simpl negb. cbv iota.
    rewrite parse_rows_row_fen.
    + rewrite concat_grid_of. reflexivity.
    + unfold grid_of. apply Forall_map, Forall_forall. intros r _.
      now rewrite length_map.
  - discriminate.
  - apply Forall_map, Forall_forall. intros cells _. simpl.
    eapply all_chars_impl; [|apply row_fen_chars].
    intros c Hc. apply negb_true_iff.
    unfold row_char, is_digit in Hc.
    destruct (Ascii.eqb_spec c "/") as [->|]; [discriminate Hc|reflexivity].
Qed.

Lemma at_square_true o sq : chess.at_square o sq = true <-> o = Some sq.
Proof.
  destruct o as [s|]; simpl; [|split; discriminate].
  rewrite Z.eqb_eq. split; congruence.
Qed.

Lemma at_square_false o sq : chess.at_square o sq = false <-> o <> Some sq.
Proof. rewrite <- at_square_true. destruct (chess.at_square o sq); split; congruence. Qed.

Lemma vacate_off o sq : chess.at_square o sq = false -> chess.vacate o sq = o.
Proof. unfold chess.vacate. now intros ->. Qed.

Lemma mem_In sq l : chess.mem sq l = true <-> In sq l.
Proof.
  unfold chess.mem. rewrite existsb_exists. split.
  - intros (x & Hx & Heq). apply Z.eqb_eq in Heq. now subst.
  - intros H. exists sq. split; [assumption|apply Z.eqb_refl].
Qed.

Lemma mem_not_In sq l : chess.mem sq l = false <-> ~ In sq l.
Proof. rewrite <- mem_In. destruct (chess.mem sq l); split; congruence. Qed.

Lemma placed_cons_other target previous sq sqs :
  target <> Some sq ->
  placed target previous (sq :: sqs) = placed target previous sqs.
Proof.
  intros Hne. destruct target as [s|]; [|reflexivity]. simpl.
  destruct (Z.eqb_spec s sq) as [->|]; [congruence|reflexivity].
Qed.

Lemma placed_cons_here previous sq sqs :
  placed (Some sq) previous (sq :: sqs) = Some sq.
Proof. simpl. now rewrite Z.eqb_refl. Qed.

Lemma placed_fresh sq previous sqs :
  ~ In sq sqs -> placed (Some sq) previous sqs = previous.
Proof. intros H. simpl. apply mem_not_In in H. now rewrite H. Qed.

Lemma off_tail o sq sqs : off o (sq :: sqs) -> off o sqs.
Proof. intros H s Hs. apply H. now right. Qed.

Lemma off_head o sq sqs : off o (sq :: sqs) -> chess.at_square o sq = false.
Proof. intros H. apply H. now left. Qed.

Lemma off_fresh sq sqs : ~ In sq sqs -> off (Some sq) sqs.
Proof.
  intros H s Hs. apply at_square_false. intros [= ->]. contradiction.
Qed.

Lemma piece_at_cases b sq :
  match chess.piece_at b sq with
  | Some chess.WhiteKing => chess.wk b = Some sq
  | Some chess.WhiteRook => chess.wk b <> Some sq /\ chess.wr b = Some sq
  | Some chess.BlackKing =>
      chess.wk b <> Some sq /\ chess.wr b <> Some sq /\ chess.bk b = Some sq
  | None => chess.wk b <> Some sq /\ chess.wr b <> Some sq /\ chess.bk b <> Some sq
  end.
Proof.
  unfold chess.piece_at.
  destruct (chess.at_square (chess.wk b) sq) eqn:Ek;
    [|destruct (chess.at_square (chess.wr b) sq) eqn:Er;
      [|destruct (chess.at_square (chess.bk b) sq) eqn:Eb]];
    rewrite ?at_square_true, ?at_square_false in *; auto.
Qed.

Lemma fold_place b sqs acc :
  List.NoDup sqs ->
  apart (chess.wk b) (chess.wr b) ->
  apart (chess.wk b) (chess.bk b) ->
  apart (chess.wr b) (chess.bk b) ->
  off (chess.wk acc) sqs -> off (chess.wr acc) sqs -> off (chess.bk acc) sqs ->
  let r := fold_left chess.place
             (map (fun sq => (sq, chess.piece_at b sq)) sqs) acc in
  chess.wk r = placed (chess.wk b) (chess.wk acc) sqs
  /\ chess.wr r = placed (chess.wr b) (chess.wr acc) sqs
  /\ chess.bk r = placed (chess.bk b) (chess.bk acc) sqs
  /\ chess.turn r = chess.turn acc
  /\ chess.halfmove_clock r = chess.halfmove_clock acc
  /\ chess.fullmove_number r = chess.fullmove_number acc.
Proof.
  intros Hnd Hkr Hkk Hrk. revert acc.
  induction Hnd as [|sq sqs Hfresh Hnd IH]; intros acc Hwk Hwr Hbk.
  - simpl. destruct (chess.wk b), (chess.wr b), (chess.bk b); simpl; repeat split.
  - cbn [map fold_left].
    pose proof (off_head _ _ _ Hwk) as Hwk0.
    pose proof (off_head _ _ _ Hwr) as Hwr0.
    pose proof (off_head _ _ _ Hbk) as Hbk0.
    apply off_tail in Hwk, Hwr, Hbk.
    pose proof (piece_at_cases b sq) as Hcell.
    destruct (chess.piece_at b sq) as [[ | | ]|].
    + rename Hcell into Ek.
      change (chess.place acc (sq, Some chess.WhiteKing))
        with (chess.set_piece_at acc sq chess.WhiteKing).
      assert (Hr : chess.wr b <> Some sq)
        by (intros Hr; rewrite Ek, Hr in Hkr; now apply Hkr).
      assert (Hb : chess.bk b <> Some sq)
        by (intros Hb; rewrite Ek, Hb in Hkk; now apply Hkk).
      rewrite (placed_cons_other _ _ _ _ Hr), (placed_cons_other _ _ _ _ Hb).
      rewrite Ek, placed_cons_here.
      edestruct (IH (chess.set_piece_at acc sq chess.WhiteKing))
        as (-> & -> & -> & -> & -> & ->);
        cbn [chess.set_piece_at chess.remove_piece_at chess.wk chess.wr chess.bk
             chess.turn chess.halfmove_clock chess.fullmove_number];
        rewrite ?vacate_off by assumption; auto using off_fresh.
      rewrite Ek, placed_fresh by assumption. repeat split.
    + destruct Hcell as [Ek Er].
      change (chess.place acc (sq, Some chess.WhiteRook))
        with (chess.set_piece_at acc sq chess.WhiteRook).
      assert (Hb : chess.bk b <> Some sq)
        by (intros Hb; rewrite Er, Hb in Hrk; now apply Hrk).
      rewrite (placed_cons_other _ _ _ _ Ek), (placed_cons_other _ _ _ _ Hb).
      rewrite Er, placed_cons_here.
      edestruct (IH (chess.set_piece_at acc sq chess.WhiteRook))
        as (-> & -> & -> & -> & -> & ->);
        cbn [chess.set_piece_at chess.remove_piece_at chess.wk chess.wr chess.bk
             chess.turn chess.halfmove_clock chess.fullmove_number];
        rewrite ?vacate_off by assumption; auto using off_fresh.
      rewrite Er, placed_fresh by assumption. repeat split.
    + destruct Hcell as (Ek & Er & Eb).
      change (chess.place acc (sq, Some chess.BlackKing))
        with (chess.set_piece_at acc sq chess.BlackKing).
      rewrite (placed_cons_other _ _ _ _ Ek), (placed_cons_other _ _ _ _ Er).
      rewrite Eb, placed_cons_here.
      edestruct (IH (chess.set_piece_at acc sq chess.BlackKing))
        as (-> & -> & -> & -> & -> & ->);
        cbn [chess.set_piece_at chess.remove_piece_at chess.wk chess.wr chess.bk
             chess.turn chess.halfmove_clock chess.fullmove_number];
        rewrite ?vacate_off by assumption; auto using off_fresh.
      rewrite Eb, placed_fresh by assumption. repeat split.
    + destruct Hcell as (Ek & Er & Eb).
      change (chess.place acc (sq, None)) with acc.
      rewrite (placed_cons_other _ _ _ _ Ek), (placed_cons_other _ _ _ _ Er),
        (placed_cons_other _ _ _ _ Eb).
      apply IH; assumption.
Qed.

Lemma NoDup_SQUARES_180 : List.NoDup chess.SQUARES_180.
Proof.
  apply NoDup_ListNoDup.
  assert (H : bool_decide (NoDup chess.SQUARES_180) = true) by (vm_compute; reflexivity).
  exact (bool_decide_eq_true_1 _ H).
Qed.

Lemma In_range64 sq : In sq range64 <-> 0 <= sq < 64.
Proof.
  unfold range64. rewrite <- list_elem_of_In, elem_of_seqZ. lia.
Qed.

Lemma mem_SQUARES_180 sq : 0 <= sq < 64 -> chess.mem sq chess.SQUARES_180 = true.
Proof.
  intros Hsq.
  assert (H : forallb (fun s => chess.mem s chess.SQUARES_180) range64 = true)
    by (vm_compute; reflexivity).
  rewrite forallb_forall in H. apply H. now apply In_range64.
Qed.

Lemma placed_all target :
  in_range target -> placed target None chess.SQUARES_180 = target.
Proof.
  destruct target as [s|]; [|reflexivity]. intros Hs. simpl in Hs.
  unfold placed. now rewrite mem_SQUARES_180.
Qed.

Lemma split_ws_fen b :
  chess.split_ws (chess.fen b) ""
  = [chess.board_fen b; chess.turn_symbol (chess.turn b); "-"; "-";
     chess.str (chess.halfmove_clock b); chess.str (chess.fullmove_number b)].
Proof.
  assert (Hdigit : forall n, all_chars (fun c => negb (chess.is_space c)) (chess.str n) = true).
  { intros n. eapply all_chars_impl; [|apply str_digits].
    intros c. unfold is_digit. rewrite !orb_true_iff, !Ascii.eqb_eq.
    intros H. decompose [or] H; subst; reflexivity. }
  unfold chess.fen.
  change (" " ++ ?x) with (String " " x).
  rewrite split_ws_word; cycle 1.
  { eapply all_chars_impl; [|apply board_fen_chars].
    intros c. unfold board_char, row_char, is_digit.
    rewrite !orb_true_iff, !Ascii.eqb_eq.
    intros H. decompose [or] H; subst; reflexivity. }
  { apply board_fen_nonempty. }
  f_equal.
  change (" - - " ++ ?x) with (String " " ("-" ++ String " " ("-" ++ String " " x))).
  rewrite split_ws_word by (now destruct (chess.turn b)).
  f_equal.
  rewrite split_ws_word by (reflexivity || discriminate). f_equal.
  rewrite split_ws_word by (reflexivity || discriminate). f_equal.
  change (" " ++ ?x) with (String " " x).
  rewrite split_ws_word; [|apply Hdigit|apply str_nonempty]. f_equal.
  rewrite split_ws_last; [reflexivity|apply Hdigit|apply str_nonempty].
Qed.

(** [chess.Board(board.fen())] is [board]. *)
Lemma Board_of_fen_fen b :
  well_formed b -> chess.Board_of_fen (chess.fen b) = Some b.
Proof.
  intros [Hk Hr Hb Hkr Hkb Hrb Hfull].
  unfold chess.Board_of_fen. rewrite split_ws_fen.
  cbn [nth length]. change (5 <? 5)%nat with false. cbv iota.
  change ("-" =? "-")%string with true. cbn [andb negb]. cbv iota.
  rewrite !int_of_str_str, set_board_fen_board_fen.
  assert (Ht : chess.parse_turn (chess.turn_symbol (chess.turn b)) = Some (chess.turn b))
    by now destruct (chess.turn b).
  rewrite Ht.
  destruct (fold_place b chess.SQUARES_180 chess.empty_board)
    as (-> & -> & -> & _); try assumption; try (intros sq _; reflexivity).
  { apply NoDup_SQUARES_180. }
  cbn [chess.wk chess.wr chess.bk chess.empty_board].
  rewrite !placed_all by assumption.
  rewrite Nat.max_l by assumption.
  now destruct b.
Qed.

Lemma fen_inj b1 b2 :
  well_formed b1 -> well_formed b2 -> chess.fen b1 = chess.fen b2 -> b1 = b2.
Proof.
  intros H1 H2 Heq.
  apply Board_of_fen_fen in H1, H2. rewrite Heq in H1. congruence.
Qed.

(** ** The boards of the enumeration and their moves *)

Lemma krk_board_distinct wk_sq wr_sq bk_sq t :
  wk_sq <> wr_sq -> wk_sq <> bk_sq -> wr_sq <> bk_sq ->
  krk_board wk_sq wr_sq bk_sq t
  = chess.mkBoard (Some wk_sq) (Some wr_sq) (Some bk_sq) t 0 1.
Proof.
  intros. cbv [krk_board chess.set_turn chess.set_piece_at chess.remove_piece_at
       chess.vacate chess.at_square chess.empty_board chess.wk chess.wr chess.bk
       chess.turn chess.halfmove_clock chess.fullmove_number].
  case_eqb; congruence.
Qed.

Lemma krk_board_well_formed wk_sq wr_sq bk_sq t :
  0 <= wk_sq < 64 -> 0 <= wr_sq < 64 -> 0 <= bk_sq < 64 ->
  well_formed (krk_board wk_sq wr_sq bk_sq t).
Proof.
  intros. cbv [krk_board chess.set_turn chess.set_piece_at chess.remove_piece_at
       chess.vacate chess.at_square chess.empty_board chess.wk chess.wr chess.bk
       chess.turn chess.halfmove_clock chess.fullmove_number].
  case_eqb; constructor; cbn [in_range apart chess.wk chess.wr chess.bk
    chess.fullmove_number]; auto; congruence.
Qed.

Lemma In_scan_reversed mask sq :
  In sq (chess.scan_reversed mask) <-> 0 <= sq < 64 /\ mask sq = true.
Proof.
  unfold chess.scan_reversed. rewrite filter_In, <- in_rev.
  change chess.SQUARES with range64. now rewrite In_range64.
Qed.

Lemma pseudo_legal_plausible b from_mask to_mask m :
  In m (chess.generate_pseudo_legal_moves b from_mask to_mask) -> plausible b m.
Proof.
  unfold chess.generate_pseudo_legal_moves. rewrite in_flat_map.
  intros (from & Hfrom & Hm). apply in_map_iff in Hm as (to & <- & Hto).
  apply In_scan_reversed in Hfrom as [_ Hfrom], Hto as [Hrange Hto].
  apply andb_true_iff in Hfrom as [Hfrom _].
  apply andb_true_iff in Hto as [Hto _].
  apply andb_true_iff in Hto as [_ Hto]. apply negb_true_iff in Hto.
  split; [|split]; cbn [chess.from_square chess.to_square]; assumption.
Qed.

Lemma king_occupied b k :
  well_formed b -> chess.king b (chess.turn b) = Some k ->
  chess.occupied_co b (chess.turn b) k = true.
Proof.
  intros [_ _ _ Hkr Hkb Hrb _]. unfold chess.king, chess.occupied_co, chess.piece_at.
  destruct (chess.turn b); intros Hk; rewrite Hk in *; simpl.
  - now rewrite Z.eqb_refl.
  - destruct (chess.wk b) as [w|], (chess.wr b) as [r|]; simpl in *;
      case_eqb; try congruence; reflexivity.
Qed.

Lemma generate_evasions_unfold b k checkers :
  chess.generate_evasions b k checkers
  = (chess.evasion_king_moves b k (chess.evasion_attacked b k checkers)
     ++ chess.evasion_blocks b k checkers)%list.
Proof. reflexivity. Qed.

Lemma evasion_king_moves_unfold b k attacked :
  chess.evasion_king_moves b k attacked
  = map (chess.mkMove k)
      (chess.scan_reversed (fun to =>
         chess.mem to (chess.king_attacks k)
         && negb (chess.occupied_co b (chess.turn b) to)
         && negb (chess.mem to attacked))).
Proof. reflexivity. Qed.

Lemma evasion_blocks_single b k checker :
  chess.evasion_blocks b k [checker]
  = chess.generate_pseudo_legal_moves b
      (fun from => negb (chess.at_square (chess.wk b) from
                         || chess.at_square (chess.bk b) from))
      (fun to => chess.mem to (chess.between k checker) || (to =? checker)).
Proof. reflexivity. Qed.

Lemma evasion_blocks_other b k checkers :
  length checkers <> 1%nat -> chess.evasion_blocks b k checkers = [].
Proof. destruct checkers as [|c [|c' cs]]; simpl; congruence. Qed.

Lemma evasions_plausible b k checkers m :
  well_formed b -> chess.king b (chess.turn b) = Some k ->
  In m (chess.generate_evasions b k checkers) -> plausible b m.
Proof.
  intros Hwf Hk Hm. rewrite generate_evasions_unfold in Hm.
  apply in_app_or in Hm as [Hm|Hm].
  - rewrite evasion_king_moves_unfold in Hm.
    apply in_map_iff in Hm as (to & <- & Hto).
    apply In_scan_reversed in Hto as [Hrange Hto].
    destruct (andb_prop _ _ Hto) as [Hto' _].
    destruct (andb_prop _ _ Hto') as [_ Hown]. clear Hto Hto'.
    apply negb_true_iff in Hown.
    split; [|split]; cbn [chess.from_square chess.to_square].
    + apply king_occupied; assumption.
    + exact Hrange.
    + exact Hown.
  - destruct checkers as [|c [|c' cs]].
    + rewrite evasion_blocks_other in Hm by (simpl; lia). destruct Hm.
    + rewrite evasion_blocks_single in Hm.
      exact (pseudo_legal_plausible _ _ _ _ Hm).
    + rewrite evasion_blocks_other in Hm by (simpl; lia). destruct Hm.
Qed.

Lemma legal_moves_unfold b :
  chess.legal_moves b =
  match chess.king b (chess.turn b) with
  | Some k =>
      match chess.attackers b (chess.opponent (chess.turn b)) k with
      | [] => List.filter (chess.is_safe b k)
                (chess.generate_pseudo_legal_moves b (fun _ => true) (fun _ => true))
      | c :: cs => List.filter (chess.is_safe b k)
                (chess.generate_evasions b k (c :: cs))
      end
  | None => chess.generate_pseudo_legal_moves b (fun _ => true) (fun _ => true)
  end.
Proof. unfold chess.legal_moves. destruct (chess.king b (chess.turn b)); [|reflexivity].
  destruct (chess.attackers b (chess.opponent (chess.turn b)) z); reflexivity.
Qed.

Lemma legal_moves_plausible b m :
  well_formed b -> In m (chess.legal_moves b) -> plausible b m.
Proof.
  intros Hwf. rewrite legal_moves_unfold.
  destruct (chess.king b (chess.turn b)) as [k|] eqn:Hk;
    [|apply pseudo_legal_plausible].
  destruct (chess.attackers b (chess.opponent (chess.turn b)) k) as [|c cs].
  - rewrite filter_In. intros [Hm _]. exact (pseudo_legal_plausible _ _ _ _ Hm).
  - rewrite filter_In. intros [Hm _].
    exact (evasions_plausible _ _ _ _ Hwf Hk Hm).
Qed.

(** What one move does to a board of the enumeration: the result is again
    a board of the fragment, and its clocks are no longer 0 and 1 unless
    the black king was taken. *)
Lemma push_krk wk_sq wr_sq bk_sq t m :
  0 <= wk_sq < 64 -> 0 <= wr_sq < 64 -> 0 <= bk_sq < 64 ->
  wk_sq <> wr_sq -> wk_sq <> bk_sq -> wr_sq <> bk_sq ->
  let b := chess.mkBoard (Some wk_sq) (Some wr_sq) (Some bk_sq) t 0 1 in
  plausible b m ->
  well_formed (chess.push b m)
  /\ (chess.halfmove_clock (chess.push b m) <> O
      \/ chess.fullmove_number (chess.push b m) <> 1%nat
      \/ chess.bk (chess.push b m) = None).
Proof.
  intros Hk Hr Hb Hkr Hkb Hrb b (Hfrom & Hrange & Hto).
  destruct m as [from to]. subst b.
  cbn [chess.from_square chess.to_square chess.turn] in *.
  unfold chess.occupied_co, chess.piece_at in Hfrom, Hto.
  cbn [chess.wk chess.wr chess.bk chess.at_square] in Hfrom, Hto.
  unfold chess.push, chess.occupied_co, chess.piece_at.
  cbn [chess.wk chess.wr chess.bk chess.at_square chess.turn
       chess.from_square chess.to_square chess.halfmove_clock chess.fullmove_number].
  destruct (Z.eqb_spec wk_sq from) as [Ef|Hf1];
    [subst from|destruct (Z.eqb_spec wr_sq from) as [Ef|Hf2];
      [subst from|destruct (Z.eqb_spec bk_sq from) as [Ef|Hf3];
        [subst from|discriminate Hfrom]]];
    destruct t; try discriminate Hfrom;
    (destruct (Z.eqb_spec wk_sq to) as [Et|Ht1];
      [subst to; try discriminate Hto
      |destruct (Z.eqb_spec wr_sq to) as [Et|Ht2];
        [subst to; try discriminate Hto
        |destruct (Z.eqb_spec bk_sq to) as [Et|Ht3];
          [subst to; try discriminate Hto|]]]);
    try congruence;
    unfold chess.set_piece_at, chess.remove_piece_at, chess.vacate, chess.at_square;
    cbn [chess.wk chess.wr chess.bk chess.turn chess.halfmove_clock
         chess.fullmove_number chess.opponent chess.color chess.Color_eqb orb];
    rewrite ?Z.eqb_refl;
    repeat match goal with
           | |- context [Z.eqb ?a ?b] =>
               destruct (Z.eqb_spec a b); try congruence
           end;
    cbn [chess.wk chess.wr chess.bk chess.turn chess.halfmove_clock
         chess.fullmove_number];
    (split; [constructor; cbn; auto; congruence|]); cbn; auto.
Qed.

(** ** The enumeration *)

#[local] Arguments chess.king_attacks : simpl never.
#[local] Arguments chess.rook_attacks : simpl never.
#[local] Arguments chess.legal_moves : simpl never.
#[local] Arguments chess.fen : simpl never.
#[local] Arguments chess.Board_of_fen : simpl never.

Lemma forallb_range64_2 (P : Z -> Z -> bool) :
  forallb (fun a => forallb (P a) range64) range64 = true ->
  forall a b, 0 <= a < 64 -> 0 <= b < 64 -> P a b = true.
Proof.
  intros H a b Ha Hb. rewrite forallb_forall in H.
  specialize (H a (proj2 (In_range64 a) Ha)). rewrite forallb_forall in H.
  exact (H b (proj2 (In_range64 b) Hb)).
Qed.

Lemma kings_adjacent_distance wk_sq bk_sq :
  0 <= wk_sq < 64 -> 0 <= bk_sq < 64 ->
  kings_adjacent wk_sq bk_sq = (chess.square_distance wk_sq bk_sq <=? 1).
Proof.
  intros Hk Hb.
  apply (fun H => proj1 (Bool.eqb_true_iff _ _)
           (forallb_range64_2
              (fun a b => Bool.eqb (kings_adjacent a b)
                                   (chess.square_distance a b <=? 1)) H _ _ Hk Hb)).
  vm_compute. reflexivity.
Qed.

Lemma king_attacks_adjacent wk_sq bk_sq :
  0 <= wk_sq < 64 -> 0 <= bk_sq < 64 ->
  chess.mem bk_sq (chess.king_attacks wk_sq)
  = kings_adjacent wk_sq bk_sq && negb (wk_sq =? bk_sq).
Proof.
  intros Hk Hb.
  apply (fun H => proj1 (Bool.eqb_true_iff _ _)
           (forallb_range64_2
              (fun a b => Bool.eqb (chess.mem b (chess.king_attacks a))
                                   (kings_adjacent a b && negb (a =? b))) H _ _ Hk Hb)).
  vm_compute. reflexivity.
Qed.

Lemma all_positions_unfold :
  TablebaseGenerator._generate_all_positions
  = flat_map (fun wk_sq =>
      flat_map (fun wr_sq =>
        flat_map (fun bk_sq => TablebaseGenerator.positions_at wk_sq wr_sq bk_sq)
          range64) range64) range64.
Proof. reflexivity. Qed.

Opaque TablebaseGenerator._generate_all_positions.

Lemma In_positions_at wk_sq wr_sq bk_sq fen :
  In fen (TablebaseGenerator.positions_at wk_sq wr_sq bk_sq)
  <-> exists t, emitted wk_sq wr_sq bk_sq t
                /\ fen = chess.fen (krk_board wk_sq wr_sq bk_sq t).
Proof.
  unfold TablebaseGenerator.positions_at, emitted. fold (kings_adjacent wk_sq bk_sq).
  destruct (Z.eqb_spec wk_sq wr_sq) as [|Hkr];
    [|destruct (Z.eqb_spec wk_sq bk_sq) as [|Hkb];
      [|destruct (Z.eqb_spec wr_sq bk_sq) as [|Hrb]]]; cbn [orb];
    try (split; [intros []|intros (t & ((? & ? & ?) & _) & _); congruence]).
  destruct (kings_adjacent wk_sq bk_sq);
    [split; [intros []|intros (t & (_ & ? & _) & _); congruence]|].
  cbn [flat_map chess.Color_eqb andb app].
  destruct (chess.is_attacked_by (krk_board wk_sq wr_sq bk_sq chess.WHITE)
              chess.BLACK wk_sq) eqn:Hatt; cbn [app In]; split.
  - intros [<-|[]]. exists chess.BLACK. repeat split; auto; discriminate.
  - intros (t & (_ & _ & Ht) & ->). destruct t; [|now left].
    specialize (Ht eq_refl). congruence.
  - intros [<-|[<-|[]]]; [exists chess.WHITE|exists chess.BLACK];
      repeat split; auto; discriminate.
  - intros (t & _ & ->). destruct t; auto.
Qed.

Lemma In_all_positions fen :
  In fen TablebaseGenerator._generate_all_positions
  <-> exists wk_sq wr_sq bk_sq t,
        (0 <= wk_sq < 64 /\ 0 <= wr_sq < 64 /\ 0 <= bk_sq < 64)
        /\ emitted wk_sq wr_sq bk_sq t
        /\ fen = chess.fen (krk_board wk_sq wr_sq bk_sq t).
Proof.
  rewrite all_positions_unfold. rewrite in_flat_map. split.
  - intros (wk_sq & Hk & H). rewrite in_flat_map in H.
    destruct H as (wr_sq & Hr & H). rewrite in_flat_map in H.
    destruct H as (bk_sq & Hb & H). apply In_positions_at in H as (t & He & ->).
    apply In_range64 in Hk, Hr, Hb. exists wk_sq, wr_sq, bk_sq, t. auto.
  - intros (wk_sq & wr_sq & bk_sq & t & (Hk & Hr & Hb) & He & ->).
    apply In_range64 in Hk, Hr, Hb.
    exists wk_sq. split; [assumption|]. rewrite in_flat_map.
    exists wr_sq. split; [assumption|]. rewrite in_flat_map.
    exists bk_sq. split; [assumption|]. apply In_positions_at. eauto.
Qed.

Lemma krk_board_fields wk_sq wr_sq bk_sq t a b c t' h f :
  krk_board wk_sq wr_sq bk_sq t = chess.mkBoard (Some a) (Some b) (Some c) t' h f ->
  wk_sq = a /\ wr_sq = b /\ bk_sq = c /\ t = t'
  /\ wk_sq <> wr_sq /\ wk_sq <> bk_sq /\ wr_sq <> bk_sq.
Proof.
  cbv [krk_board chess.set_turn chess.set_piece_at chess.remove_piece_at
       chess.vacate chess.at_square chess.empty_board chess.wk chess.wr chess.bk
       chess.turn chess.halfmove_clock chess.fullmove_number].
  destruct (Z.eqb_spec wk_sq wr_sq); destruct (Z.eqb_spec wk_sq bk_sq);
    destruct (Z.eqb_spec wr_sq bk_sq); intros [= ? ? ? ?]; subst; auto 10.
Qed.

Lemma not_attacked_by_black wk_sq wr_sq bk_sq t :
  0 <= wk_sq < 64 -> 0 <= bk_sq < 64 ->
  wk_sq <> wr_sq -> wk_sq <> bk_sq -> wr_sq <> bk_sq ->
  kings_adjacent wk_sq bk_sq = false ->
  chess.is_attacked_by (krk_board wk_sq wr_sq bk_sq t) chess.BLACK wk_sq = false.
Proof.
  intros Hk Hb Hkr Hkb Hrb Hadj. rewrite krk_board_distinct by assumption.
  cbn [chess.is_attacked_by chess.bk].
  now rewrite king_attacks_adjacent, Hadj by assumption.
Qed.

Lemma all_positions_krk fen :
  In fen TablebaseGenerator._generate_all_positions
  <-> exists b, krk_position fen b.
Proof.
  rewrite In_all_positions. split.
  - intros (wk_sq & wr_sq & bk_sq & t & Hrange & (Hd & Hadj & _) & ->).
    destruct Hd as (? & ? & ?). rewrite krk_board_distinct by assumption.
    eexists. exists wk_sq, wr_sq, bk_sq, t. repeat split; auto; tauto.
  - intros (b & wk_sq & wr_sq & bk_sq & t & Hrange & Hd & Hadj & -> & ->).
    exists wk_sq, wr_sq, bk_sq, t. destruct Hd as (? & ? & ?).
    split; [assumption|]. split.
    + unfold emitted. repeat split; auto. intros _.
      apply not_attacked_by_black; tauto.
    + now rewrite krk_board_distinct.
Qed.

Lemma krk_position_well_formed fen b : krk_position fen b -> well_formed b.
Proof.
  intros (wk_sq & wr_sq & bk_sq & t & (? & ? & ?) & (? & ? & ?) & _ & -> & _).
  constructor; simpl; auto.
Qed.

Lemma krk_position_parse fen b :
  krk_position fen b -> chess.Board_of_fen fen = Some b.
Proof.
  intros H. pose proof (krk_position_well_formed _ _ H) as Hwf.
  destruct H as (? & ? & ? & ? & _ & _ & _ & _ & ->).
  now apply Board_of_fen_fen.
Qed.

(** The FEN reached by a legal move from a position of the enumeration is
    never the FEN of a position of the enumeration: [push] has advanced a
    clock, or the black king is gone. *)
Lemma successor_not_enumerated fen b m :
  krk_position fen b -> In m (chess.legal_moves b) ->
  ~ In (next_fen b m) TablebaseGenerator._generate_all_positions.
Proof.
  intros Hpos Hm Hin.
  pose proof (legal_moves_plausible _ _ (krk_position_well_formed _ _ Hpos) Hm) as Hpl.
  destruct Hpos as (wk_sq & wr_sq & bk_sq & t & (? & ? & ?) & (? & ? & ?) & _ & -> & _).
  destruct (push_krk wk_sq wr_sq bk_sq t m) as [Hwf Hclock]; auto.
  apply all_positions_krk in Hin as (b' & Hpos').
  pose proof (krk_position_well_formed _ _ Hpos') as Hwf'.
  destruct Hpos' as (? & ? & ? & ? & _ & _ & _ & Hb' & Hfen).
  unfold next_fen in Hfen. apply fen_inj in Hfen; [|assumption..].
  rewrite Hfen, Hb' in Hclock. simpl in Hclock.
  destruct Hclock as [?|[?|?]]; congruence.
Qed.

(** ** The loops of the generator *)

Lemma readable_cons fen positions :
  readable (fen :: positions) ->
  is_Some (chess.Board_of_fen fen) /\ readable positions.
Proof.
  intros H. split; [apply H; now left|]. intros f Hf. apply H. now right.
Qed.

(** What the dictionary holds after the checkmate loop. *)
Lemma find_checkmates_spec positions tablebase :
  readable positions ->
  exists tablebase',
    TablebaseGenerator.find_checkmates positions tablebase = Some tablebase'
    /\ forall fen,
         tablebase' !! fen =
         match chess.Board_of_fen fen with
         | Some board =>
             if bool_decide (fen ∈ positions) && chess.is_checkmate board
             then Some (Mate 0, None) else tablebase !! fen
         | None => tablebase !! fen
         end.
Proof.
  revert tablebase. induction positions as [|fen0 positions IH]; intros tablebase Hread.
  - exists tablebase. split; [reflexivity|]. intros fen.
    destruct (chess.Board_of_fen fen); reflexivity.
  - apply readable_cons in Hread as [[board0 Hboard0] Hread].
    cbn [TablebaseGenerator.find_checkmates]. rewrite Hboard0. cbn [mbind option_bind].
    edestruct IH as (tablebase' & -> & Hspec); [exact Hread|].
    exists tablebase'. split; [reflexivity|]. intros fen. rewrite Hspec.
    destruct (chess.Board_of_fen fen) as [board|] eqn:Hboard.
    + destruct (decide (fen = fen0)) as [->|Hne].
      * assert (board = board0) as -> by congruence.
        rewrite (bool_decide_eq_true_2 (fen0 ∈ fen0 :: positions)) by apply list_elem_of_here.
        destruct (chess.is_checkmate board0); rewrite ?andb_true_r, ?andb_false_r;
          cbn [andb]; rewrite ?lookup_insert_eq; try reflexivity.
        now destruct (bool_decide (fen0 ∈ positions)).
      * assert (bool_decide (fen ∈ fen0 :: positions) = bool_decide (fen ∈ positions)) as ->.
        { apply bool_decide_ext. rewrite elem_of_cons. intuition congruence. }
        destruct (_ && _); [reflexivity|].
        destruct (chess.is_checkmate board0); [|reflexivity].
        now rewrite lookup_insert_ne.
    + destruct (chess.is_checkmate board0); [|reflexivity].
      rewrite lookup_insert_ne; [reflexivity|]. intros ->. congruence.
Qed.

Lemma find_stalemates_spec positions tablebase :
  readable positions ->
  exists tablebase',
    TablebaseGenerator.find_stalemates positions tablebase = Some tablebase'
    /\ forall fen,
         tablebase' !! fen =
         match chess.Board_of_fen fen with
         | Some board =>
             if bool_decide (fen ∈ positions) && chess.is_stalemate board
             then Some (DRAW, None) else tablebase !! fen
         | None => tablebase !! fen
         end.
Proof.
  revert tablebase. induction positions as [|fen0 positions IH]; intros tablebase Hread.
  - exists tablebase. split; [reflexivity|]. intros fen.
    destruct (chess.Board_of_fen fen); reflexivity.
  - apply readable_cons in Hread as [[board0 Hboard0] Hread].
    cbn [TablebaseGenerator.find_stalemates]. rewrite Hboard0. cbn [mbind option_bind].
    edestruct IH as (tablebase' & -> & Hspec); [exact Hread|].
    exists tablebase'. split; [reflexivity|]. intros fen. rewrite Hspec.
    destruct (chess.Board_of_fen fen) as [board|] eqn:Hboard.
    + destruct (decide (fen = fen0)) as [->|Hne].
      * assert (board = board0) as -> by congruence.
        rewrite (bool_decide_eq_true_2 (fen0 ∈ fen0 :: positions)) by apply list_elem_of_here.
        destruct (chess.is_stalemate board0); rewrite ?andb_true_r, ?andb_false_r;
          cbn [andb]; rewrite ?lookup_insert_eq; try reflexivity.
        now destruct (bool_decide (fen0 ∈ positions)).
      * assert (bool_decide (fen ∈ fen0 :: positions) = bool_decide (fen ∈ positions)) as ->.
        { apply bool_decide_ext. rewrite elem_of_cons. intuition congruence. }
        destruct (_ && _); [reflexivity|].
        destruct (chess.is_stalemate board0); [|reflexivity].
        now rewrite lookup_insert_ne.
    + destruct (chess.is_stalemate board0); [|reflexivity].
      rewrite lookup_insert_ne; [reflexivity|]. intros ->. congruence.
Qed.

Lemma mark_draws_lookup positions (tablebase : Tablebase) fen :
  TablebaseGenerator.mark_draws positions tablebase !! fen =
  match tablebase !! fen with
  | Some entry => Some entry
  | None => if bool_decide (fen ∈ positions) then Some (DRAW, None) else None
  end.
Proof.
  revert tablebase. induction positions as [|fen0 positions IH]; intros tablebase.
  - simpl. now destruct (tablebase !! fen).
  - cbn [TablebaseGenerator.mark_draws]. rewrite IH.
    destruct (decide (fen = fen0)) as [->|Hne].
    + rewrite (bool_decide_eq_true_2 (fen0 ∈ fen0 :: positions)) by apply list_elem_of_here.
      destruct (tablebase !! fen0) eqn:E; [now rewrite E|].
      now rewrite lookup_insert_eq.
    + assert (bool_decide (fen ∈ fen0 :: positions) = bool_decide (fen ∈ positions)) as ->.
      { apply bool_decide_ext. rewrite elem_of_cons. intuition congruence. }
      destruct (tablebase !! fen0); [reflexivity|]. now rewrite lookup_insert_ne.
Qed.

(** *** The two inner loops *)

Lemma mate_dtm_Some tablebase fen d :
  mate_dtm tablebase fen = Some d <-> exists mv, tablebase !! fen = Some (Mate d, mv).
Proof.
  unfold mate_dtm. destruct (tablebase !! fen) as [[[d'|] mv]|]; split;
    try discriminate; try (intros [? [=]]).
  - intros [= ->]. eauto.
  - now subst.
Qed.

Lemma mate_dtm_None tablebase fen :
  mate_dtm tablebase fen = None
  <-> tablebase !! fen = None \/ exists mv, tablebase !! fen = Some (DRAW, mv).
Proof.
  unfold mate_dtm. destruct (tablebase !! fen) as [[[d'|] mv]|]; split;
    try discriminate; eauto; intros [[=]|[? [=]]].
Qed.

Lemma successor_dtms_cons tablebase board m moves :
  successor_dtms tablebase board (m :: moves)
  = match mate_dtm tablebase (next_fen board m) with
    | Some d => d :: successor_dtms tablebase board moves
    | None => successor_dtms tablebase board moves
    end.
Proof. reflexivity. Qed.

Lemma black_scan_all tablebase board moves worst_dtm :
  (forall m, In m moves -> is_Some (mate_dtm tablebase (next_fen board m))) ->
  TablebaseGenerator.black_scan tablebase board moves worst_dtm
  = (true, Nat.max worst_dtm (max_list (successor_dtms tablebase board moves))).
Proof.
  revert worst_dtm. induction moves as [|m moves IH]; intros worst_dtm Hall.
  - simpl. now rewrite Nat.max_0_r.
  - destruct (Hall m (or_introl eq_refl)) as [d Hd].
    cbn [TablebaseGenerator.black_scan]. rewrite successor_dtms_cons, Hd.
    apply mate_dtm_Some in Hd as [mv Hd]. rewrite Hd.
    rewrite IH by (intros; apply Hall; now right).
    cbn [max_list]. f_equal.
    unfold id. destruct (Nat.ltb_spec worst_dtm d); lia.
Qed.

Lemma black_scan_some_not tablebase board moves worst_dtm m :
  In m moves -> mate_dtm tablebase (next_fen board m) = None ->
  fst (TablebaseGenerator.black_scan tablebase board moves worst_dtm) = false.
Proof.
  revert worst_dtm. induction moves as [|m0 moves IH]; intros worst_dtm Hin Hm;
    [destruct Hin|].
  cbn [TablebaseGenerator.black_scan].
  destruct (tablebase !! next_fen board m0) as [[[d|] mv]|] eqn:E; try reflexivity.
  destruct Hin as [->|Hin]; [|now apply IH].
  unfold mate_dtm in Hm. rewrite E in Hm. discriminate.
Qed.

Lemma max_list_attained (l : list nat) : l <> [] -> In (max_list l) l.
Proof.
  induction l as [|x l IH]; [congruence|]; intros _.
  destruct l as [|y l].
  - left. simpl. unfold id. lia.
  - specialize (IH ltac:(discriminate)).
    change (max_list (x :: y :: l)) with (Nat.max x (max_list (y :: l))).
    destruct (Nat.max_spec x (max_list (y :: l))) as [[_ H]|[_ H]]; rewrite H;
      [right; exact IH|left; reflexivity].
Qed.

Lemma In_successor_dtms tablebase board moves d :
  In d (successor_dtms tablebase board moves)
  <-> exists m, In m moves /\ mate_dtm tablebase (next_fen board m) = Some d.
Proof.
  induction moves as [|m moves IH].
  - split; [intros []|intros (m & [] & _)].
  - rewrite successor_dtms_cons.
    destruct (mate_dtm tablebase (next_fen board m)) as [d0|] eqn:Hd0.
    + split.
      * intros [<-|Hin]; [exists m; split; [now left|assumption]|].
        apply IH in Hin as (m' & ? & ?). exists m'. split; [now right|assumption].
      * intros (m' & [<-|Hin] & Hm'); [left; congruence|].
        right. apply IH. eauto.
    + rewrite IH. split.
      * intros (m' & ? & ?). exists m'. split; [now right|assumption].
      * intros (m' & [<-|Hin] & Hm'); [congruence|eauto].
Qed.

Lemma successor_dtms_nonempty tablebase board moves :
  moves <> [] ->
  (forall m, In m moves -> is_Some (mate_dtm tablebase (next_fen board m))) ->
  successor_dtms tablebase board moves <> [].
Proof.
  destruct moves as [|m moves]; [congruence|]. intros _ Hall.
  destruct (Hall m (or_introl eq_refl)) as [d Hd].
  rewrite successor_dtms_cons, Hd. discriminate.
Qed.

Lemma find_defense_Some tablebase board moves worst_dtm s :
  TablebaseGenerator.find_defense tablebase board moves worst_dtm = Some s ->
  exists m, In m moves /\ s = chess.uci m
            /\ mate_dtm tablebase (next_fen board m) = Some worst_dtm.
Proof.
  induction moves as [|m moves IH]; [discriminate|].
  cbn [TablebaseGenerator.find_defense].
  destruct (tablebase !! next_fen board m) as [[[d|] mv]|] eqn:E; cbn [Dtm_eqb].
  - destruct (Nat.eqb_spec d worst_dtm) as [->|Hne].
    + intros [= <-]. exists m. split; [now left|]. split; [reflexivity|].
      unfold mate_dtm. now rewrite E.
    + intros H. destruct (IH H) as (m' & ? & ? & ?). exists m'. auto using in_cons.
  - intros H. destruct (IH H) as (m' & ? & ? & ?). exists m'. auto using in_cons.
  - intros H. destruct (IH H) as (m' & ? & ? & ?). exists m'. auto using in_cons.
Qed.

Lemma find_defense_found tablebase board moves worst_dtm m :
  In m moves -> mate_dtm tablebase (next_fen board m) = Some worst_dtm ->
  is_Some (TablebaseGenerator.find_defense tablebase board moves worst_dtm).
Proof.
  induction moves as [|m0 moves IH]; intros Hin Hm; [destruct Hin|].
  cbn [TablebaseGenerator.find_defense].
  destruct (tablebase !! next_fen board m0) as [[[d|] mv]|] eqn:E; cbn [Dtm_eqb].
  - destruct (Nat.eqb_spec d worst_dtm) as [->|Hne]; [eauto|].
    destruct Hin as [->|Hin]; [|now apply IH].
    unfold mate_dtm in Hm. rewrite E in Hm. congruence.
  - destruct Hin as [->|Hin]; [|now apply IH].
    unfold mate_dtm in Hm. rewrite E in Hm. discriminate.
  - destruct Hin as [->|Hin]; [|now apply IH].
    unfold mate_dtm in Hm. rewrite E in Hm. discriminate.
Qed.

(** The White loop returns the least integer [dtm] among the successors
    and the first move that reaches it. *)
Lemma white_scan_spec tablebase board moves best_move best_dtm bm bd :
  TablebaseGenerator.white_scan tablebase board moves best_move best_dtm = (bm, bd) ->
  (bm = best_move /\ bd = best_dtm
   /\ forall m d, In m moves -> mate_dtm tablebase (next_fen board m) = Some d ->
                  TablebaseGenerator.below d best_dtm = false)
  \/ (exists m d, In m moves /\ bm = Some (chess.uci m) /\ bd = Some d
                  /\ mate_dtm tablebase (next_fen board m) = Some d
                  /\ TablebaseGenerator.below d best_dtm = true
                  /\ forall m' d', In m' moves ->
                       mate_dtm tablebase (next_fen board m') = Some d' -> (d <= d')%nat).
Proof.
  revert best_move best_dtm.
  induction moves as [|m moves IH]; intros best_move best_dtm.
  - intros [= <- <-]. left. repeat split. intros m d [].
  - cbn [TablebaseGenerator.white_scan].
    destruct (mate_dtm tablebase (next_fen board m)) as [d|] eqn:Hd.
    + pose proof Hd as Hd'. apply mate_dtm_Some in Hd' as [mv E]. rewrite E.
      destruct (TablebaseGenerator.below d best_dtm) eqn:Hbelow; intros Hscan;
        destruct (IH _ _ Hscan) as [(-> & -> & Hrest)|(m1 & d1 & Hin & -> & -> & H1 & Hb1 & Hmin)].
      * right. exists m, d. split; [now left|]. repeat split; auto.
        intros m' d' [<-|Hin'] Hd''; [replace d' with d by congruence; lia|].
        specialize (Hrest _ _ Hin' Hd''). simpl in Hrest.
        apply Nat.ltb_ge in Hrest. exact Hrest.
      * right. exists m1, d1. split; [now right|]. repeat split; auto.
        -- simpl in Hb1. apply Nat.ltb_lt in Hb1.
           destruct best_dtm as [b0|]; [|reflexivity]. simpl in *.
           apply Nat.ltb_lt in Hbelow. apply Nat.ltb_lt. lia.
        -- intros m' d' [<-|Hin'] Hd''; [|eauto].
           simpl in Hb1. apply Nat.ltb_lt in Hb1. assert (d' = d) by congruence. lia.
      * left. repeat split; auto.
        intros m' d' [<-|Hin'] Hd''; [congruence|eauto].
      * right. exists m1, d1. split; [now right|]. repeat split; auto.
        intros m' d' [<-|Hin'] Hd''; [|eauto].
        assert (d' = d) by congruence. subst d'.
        destruct best_dtm as [b0|]; [|discriminate]. simpl in *.
        apply Nat.ltb_lt in Hb1. apply Nat.ltb_ge in Hbelow. lia.
    + assert (Hstep : match tablebase !! next_fen board m with
                      | Some (Mate next_dtm, _) =>
                          if TablebaseGenerator.below next_dtm best_dtm
                          then TablebaseGenerator.white_scan tablebase board moves
                                 (Some (chess.uci m)) (Some next_dtm)
                          else TablebaseGenerator.white_scan tablebase board moves
                                 best_move best_dtm
                      | _ => TablebaseGenerator.white_scan tablebase board moves
                               best_move best_dtm
                      end
                      = TablebaseGenerator.white_scan tablebase board moves
                          best_move best_dtm).
      { unfold mate_dtm in Hd.
        destruct (tablebase !! next_fen board m) as [[[d|] mv]|]; congruence. }
      rewrite Hstep. intros Hscan.
      destruct (IH _ _ Hscan) as [(-> & -> & Hrest)|(m1 & d1 & Hin & -> & -> & H1 & Hb1 & Hmin)].
      * left. repeat split; auto.
        intros m' d' [<-|Hin'] Hd''; [congruence|eauto].
      * right. exists m1, d1. split; [now right|]. repeat split; auto.
        intros m' d' [<-|Hin'] Hd''; [congruence|eauto].
Qed.

Lemma black_scan_true_all tablebase board moves worst_dtm m :
  fst (TablebaseGenerator.black_scan tablebase board moves worst_dtm) = true ->
  In m moves -> is_Some (mate_dtm tablebase (next_fen board m)).
Proof.
  intros Htrue Hin.
  destruct (mate_dtm tablebase (next_fen board m)) as [d|] eqn:Hd; [eauto|].
  rewrite (black_scan_some_not _ _ _ _ _ Hin Hd) in Htrue. discriminate.
Qed.

Lemma has_legal_moves_true board :
  chess.has_legal_moves board = true <-> chess.legal_moves board <> [].
Proof.
  unfold chess.has_legal_moves. destruct (chess.legal_moves board); split;
    congruence.
Qed.

Lemma is_previous_S worst_dtm d :
  TablebaseGenerator.is_previous worst_dtm (S d) = (worst_dtm =? d)%nat.
Proof.
  unfold TablebaseGenerator.is_previous.
  destruct (Nat.eqb_spec worst_dtm d); [apply Z.eqb_eq|apply Z.eqb_neq]; lia.
Qed.

Lemma is_previous_positive dtm current_dtm :
  TablebaseGenerator.is_previous dtm current_dtm = true -> (1 <= current_dtm)%nat.
Proof. unfold TablebaseGenerator.is_previous. rewrite Z.eqb_eq. lia. Qed.

(** What the Black branch of the loop body does, in full. *)
Lemma examine_black tablebase d fen board :
  tablebase !! fen = None ->
  chess.Board_of_fen fen = Some board ->
  chess.turn board = chess.BLACK ->
  let moves := chess.legal_moves board in
  (moves <> []
   /\ (forall m, In m moves -> is_Some (mate_dtm tablebase (next_fen board m)))
   /\ max_list (successor_dtms tablebase board moves) = d
   /\ exists m, In m moves
        /\ mate_dtm tablebase (next_fen board m) = Some d
        /\ TablebaseGenerator.examine tablebase (S d) fen
           = Some (<[fen := (Mate (S d), Some (chess.uci m))]> tablebase, true))
  \/ (~ (moves <> []
         /\ (forall m, In m moves -> is_Some (mate_dtm tablebase (next_fen board m)))
         /\ max_list (successor_dtms tablebase board moves) = d)
      /\ TablebaseGenerator.examine tablebase (S d) fen = Some (tablebase, false)).
Proof.
  intros Hnew Hboard Hturn moves.
  unfold TablebaseGenerator.examine. rewrite Hnew, Hboard. cbn [mbind option_bind].
  rewrite Hturn. fold moves.
  destruct (chess.has_legal_moves board) eqn:Hmoves; cbn [negb].
  2:{ right. split; [|reflexivity]. intros [Hne _].
      apply has_legal_moves_true in Hne. congruence. }
  apply has_legal_moves_true in Hmoves. fold moves in Hmoves.
  destruct (TablebaseGenerator.black_scan tablebase board moves 0)
    as [all_moves_lose worst_dtm] eqn:Hscan.
  destruct all_moves_lose; cbn [andb].
  2:{ right. split; [|reflexivity]. intros (_ & Hall & _).
      rewrite (black_scan_all _ _ _ _ Hall) in Hscan. discriminate. }
  assert (Hall : forall m, In m moves ->
                   is_Some (mate_dtm tablebase (next_fen board m))).
  { intros m. apply (black_scan_true_all _ _ _ 0%nat). now rewrite Hscan. }
  rewrite (black_scan_all _ _ _ _ Hall) in Hscan. cbn [Nat.max] in Hscan.
  injection Hscan as <-.
  rewrite is_previous_S.
  destruct (Nat.eqb_spec (max_list (successor_dtms tablebase board moves)) d)
    as [Hmax|Hmax].
  - left. repeat split; auto.
    pose proof (max_list_attained _ (successor_dtms_nonempty _ _ _ Hmoves Hall)) as Hatt.
    apply In_successor_dtms in Hatt as (m0 & Hin0 & Hm0).
    destruct (find_defense_found _ _ _ _ _ Hin0 Hm0) as [s Hs].
    rewrite Hs. apply find_defense_Some in Hs as (m & Hin & -> & Hm).
    exists m. rewrite <- Hmax. auto.
  - right. split; [|reflexivity]. tauto.
Qed.

(** The loop body either leaves the dictionary alone or adds one entry,
    for a FEN that had none: an integer [dtm] (the current one, at least 1)
    with a move. *)
Lemma examine_cases tablebase d fen tablebase' labelled :
  TablebaseGenerator.examine tablebase d fen = Some (tablebase', labelled) ->
  (tablebase' = tablebase /\ labelled = false)
  \/ (tablebase !! fen = None /\ labelled = true /\ (1 <= d)%nat
      /\ exists s, tablebase' = <[fen := (Mate d, Some s)]> tablebase).
Proof.
  unfold TablebaseGenerator.examine.
  destruct (tablebase !! fen) as [e|] eqn:Hnew; [intros [= <- <-]; now left|].
  destruct (chess.Board_of_fen fen) as [board|] eqn:Hboard; [|discriminate].
  cbn [mbind option_bind].
  destruct (chess.turn board) eqn:Hturn.
  - destruct (TablebaseGenerator.white_scan _ _ _ _ _) as [bm bd].
    destruct bm as [s|]; cbn [TablebaseGenerator.truthy andb];
      [|intros [= <- <-]; now left].
    destruct (negb (s =? "")%string); cbn [andb]; [|intros [= <- <-]; now left].
    destruct bd as [best|]; [|intros [= <- <-]; now left].
    destruct (TablebaseGenerator.is_previous best d) eqn:Hprev;
      intros [= <- <-]; [right|now left].
    apply is_previous_positive in Hprev. eauto 10.
  - destruct d as [|d].
    + destruct (negb (chess.has_legal_moves board)); [intros [= <- <-]; now left|].
      destruct (TablebaseGenerator.black_scan _ _ _ _) as [aml w].
      replace (TablebaseGenerator.is_previous w 0) with false
        by (symmetry; apply Z.eqb_neq; lia).
      rewrite andb_false_r. intros [= <- <-]; now left.
    + intros Hex.
      destruct (examine_black tablebase d fen board Hnew Hboard Hturn)
        as [(_ & _ & _ & m & _ & _ & Hlab)|[_ Hskip]];
        unfold TablebaseGenerator.examine in Hlab || unfold TablebaseGenerator.examine in Hskip;
        rewrite Hnew, Hboard in *; cbn [mbind option_bind] in *; rewrite Hturn in *.
      * rewrite Hlab in Hex. injection Hex as <- <-. right.
        repeat split; eauto; lia.
      * rewrite Hskip in Hex. injection Hex as <- <-. now left.
Qed.

Lemma examine_total tablebase d fen :
  is_Some (chess.Board_of_fen fen) ->
  is_Some (TablebaseGenerator.examine tablebase d fen).
Proof.
  intros [board Hboard]. unfold TablebaseGenerator.examine.
  destruct (tablebase !! fen); [eauto|]. rewrite Hboard. cbn [mbind option_bind].
  destruct (chess.turn board).
  - destruct (TablebaseGenerator.white_scan _ _ _ _ _) as [bm bd].
    destruct (_ && _); eauto.
  - destruct (negb _); [eauto|].
    destruct (TablebaseGenerator.black_scan _ _ _ _) as [aml w].
    destruct (_ && _); eauto.
Qed.

(** One pass: entries are only added, for FENs of the list that had none,
    with the current [dtm]; the flag tells whether one was added. *)
Lemma scan_positions_spec positions tablebase d found tablebase' found' :
  TablebaseGenerator.scan_positions positions tablebase d found
  = Some (tablebase', found') ->
  tablebase ⊆ tablebase'
  /\ (forall fen entry, tablebase' !! fen = Some entry ->
        tablebase !! fen = Some entry
        \/ (tablebase !! fen = None /\ In fen positions /\ (1 <= d)%nat
            /\ exists s, entry = (Mate d, Some s)))
  /\ (found' = false -> tablebase' = tablebase /\ found = false)
  /\ (found' = true -> found = true
        \/ exists fen s, tablebase !! fen = None
                         /\ tablebase' !! fen = Some (Mate d, Some s)).
Proof.
  revert tablebase found.
  induction positions as [|fen0 positions IH]; intros tablebase found.
  - intros [= <- <-]. repeat split; auto; intros; try discriminate; now left.
  - cbn [TablebaseGenerator.scan_positions].
    destruct (TablebaseGenerator.examine tablebase d fen0) as [[tb1 labelled]|] eqn:Hex;
      [|discriminate].
    intros Hscan. destruct (IH _ _ Hscan) as (Hsub & Hnew & Hfalse & Htrue).
    apply examine_cases in Hex
      as [[-> ->]|(Hnone & -> & Hd & s & ->)].
    + rewrite orb_false_r in *. split; [assumption|].
      split; [|split; assumption].
      intros fen entry Hfen. destruct (Hnew _ _ Hfen) as [?|(? & ? & ? & ?)]; auto.
      right. repeat split; auto. now right.
    + assert (Hsub0 : tablebase ⊆ <[fen0 := (Mate d, Some s)]> tablebase)
        by now apply insert_subseteq.
      split; [etrans; eassumption|]. split; [|split].
      * intros fen entry Hfen.
        destruct (Hnew _ _ Hfen) as [Hold|(Hnone' & Hin & Hd' & Hs)].
        -- destruct (decide (fen = fen0)) as [->|Hne].
           ++ rewrite lookup_insert_eq in Hold. injection Hold as <-.
              right. repeat split; auto. now left. eauto.
           ++ rewrite lookup_insert_ne in Hold by congruence. now left.
        -- destruct (decide (fen = fen0)) as [->|Hne].
           ++ now rewrite lookup_insert_eq in Hnone'.
           ++ rewrite lookup_insert_ne in Hnone' by congruence.
              right. repeat split; auto. now right.
      * intros ->. destruct (Hfalse eq_refl) as [_ Hf].
        rewrite orb_true_r in Hf. discriminate.
      * intros _. right. exists fen0, s. split; [assumption|].
        eapply lookup_weaken; [|exact Hsub]. apply lookup_insert_eq.
Qed.

Lemma scan_positions_total positions tablebase d found :
  readable positions ->
  is_Some (TablebaseGenerator.scan_positions positions tablebase d found).
Proof.
  revert tablebase found.
  induction positions as [|fen0 positions IH]; intros tablebase found Hread.
  - simpl. eauto.
  - apply readable_cons in Hread as [Hfen0 Hread].
    cbn [TablebaseGenerator.scan_positions].
    destruct (examine_total tablebase d fen0 Hfen0) as [[tb1 l] ->].
    now apply IH.
Qed.

(** The [while] loop. *)
Lemma induction_passes_spec remaining positions tablebase d0 tablebase' d' :
  TablebaseGenerator.induction_passes remaining positions tablebase d0
  = Some (tablebase', d') ->
  tablebase ⊆ tablebase'
  /\ (d0 <= d' <= d0 + remaining)%nat
  /\ ((0 < remaining)%nat -> (d0 < d')%nat)
  /\ (forall fen entry, tablebase' !! fen = Some entry ->
        tablebase !! fen = Some entry
        \/ (tablebase !! fen = None /\ In fen positions
            /\ exists i s, (d0 < i <= d')%nat /\ entry = (Mate i, Some s)))
  /\ (forall i, (d0 < i < d')%nat ->
        exists fen s, tablebase !! fen = None
                      /\ tablebase' !! fen = Some (Mate i, Some s))
  /\ ((d' < d0 + remaining)%nat ->
        TablebaseGenerator.scan_positions positions tablebase' d' false
        = Some (tablebase', false)).
Proof.
  revert tablebase d0.
  induction remaining as [|remaining IH]; intros tablebase d0.
  - intros [= <- <-]. repeat split; auto; try lia; intros; now left.
  - cbn [TablebaseGenerator.induction_passes].
    destruct (TablebaseGenerator.scan_positions positions tablebase (S d0) false)
      as [[tb1 [|]]|] eqn:Hscan; [| |discriminate].
    + intros Hrec.
      destruct (scan_positions_spec _ _ _ _ _ _ Hscan) as (Hsub1 & Hnew1 & _ & Hfound).
      destruct (IH _ _ Hrec) as (Hsub & Hbounds & _ & Hnew & Hevery & Hlast).
      split; [etrans; eassumption|]. split; [lia|]. split; [lia|].
      split; [|split].
      * intros fen entry Hfen.
        destruct (Hnew _ _ Hfen) as [Hold|(Hnone & Hin & i & s & Hi & ->)].
        -- destruct (Hnew1 _ _ Hold) as [?|(? & ? & ? & s & ->)]; [now left|].
           right. repeat split; auto. exists (S d0), s. split; [lia|reflexivity].
        -- right. split; [|split; [assumption|]].
           ++ destruct (tablebase !! fen) eqn:E; [|reflexivity].
              eapply lookup_weaken in E; [|exact Hsub1]. congruence.
           ++ exists i, s. split; [lia|reflexivity].
      * intros i Hi. destruct (decide (i = S d0)) as [->|Hne].
        -- destruct (Hfound eq_refl) as [[=]|(fen & s & Hnone & Hsome)].
           exists fen, s. split; [assumption|].
           eapply lookup_weaken; [exact Hsome|exact Hsub].
        -- destruct (Hevery i ltac:(lia)) as (fen & s & Hnone & Hsome).
           exists fen, s. split; [|assumption].
           destruct (tablebase !! fen) eqn:E; [|reflexivity].
           eapply lookup_weaken in E; [|exact Hsub1]. congruence.
      * intros Hlt. apply Hlast. lia.
    + intros [= <- <-].
      destruct (scan_positions_spec _ _ _ _ _ _ Hscan) as (Hsub1 & Hnew1 & Hsame & _).
      destruct (Hsame eq_refl) as [-> _].
      split; [reflexivity|]. split; [lia|]. split; [lia|].
      split; [intros; now left|]. split; [intros; lia|]. intros _. exact Hscan.
Qed.

Lemma induction_passes_total remaining positions tablebase d0 :
  readable positions ->
  is_Some (TablebaseGenerator.induction_passes remaining positions tablebase d0).
Proof.
  intros Hread. revert tablebase d0.
  induction remaining as [|remaining IH]; intros tablebase d0; [simpl; eauto|].
  cbn [TablebaseGenerator.induction_passes].
  destruct (scan_positions_total positions tablebase (S d0) false Hread)
    as [[tb1 [|]] ->]; eauto.
Qed.

(** *** A position none of whose successors is found in the dictionary *)

Lemma examine_unreached tablebase d fen :
  unreached tablebase fen ->
  TablebaseGenerator.examine tablebase d fen = Some (tablebase, false).
Proof.
  intros (board & Hboard & Hnone).
  assert (Hdtm : forall m, In m (chess.legal_moves board) ->
                   mate_dtm tablebase (next_fen board m) = None).
  { intros m Hm. apply mate_dtm_None. left. auto. }
  destruct (tablebase !! fen) as [e|] eqn:Hnew.
  { unfold TablebaseGenerator.examine. now rewrite Hnew. }
  destruct (chess.turn board) eqn:Hturn.
  - unfold TablebaseGenerator.examine. rewrite Hnew, Hboard. cbn [mbind option_bind].
    rewrite Hturn.
    destruct (TablebaseGenerator.white_scan tablebase board
                (chess.legal_moves board) None None) as [bm bd] eqn:Hscan.
    apply white_scan_spec in Hscan
      as [(-> & -> & _)|(m & d' & Hin & _ & _ & Hm & _)]; [reflexivity|].
    rewrite (Hdtm _ Hin) in Hm. discriminate.
  - destruct d as [|d].
    + destruct (examine_total tablebase 0%nat fen) as [[tb' l] Hex]; [eauto|].
      rewrite Hex. apply examine_cases in Hex as [[-> ->]|(_ & _ & ? & _)];
        [reflexivity|lia].
    + destruct (examine_black tablebase d fen board Hnew Hboard Hturn)
        as [(Hne & Hall & _)|[_ Hskip]]; [|exact Hskip].
      destruct (chess.legal_moves board) as [|m moves]; [congruence|].
      destruct (Hall m (or_introl eq_refl)) as [d' Hd'].
      rewrite (Hdtm m (or_introl eq_refl)) in Hd'. discriminate.
Qed.

Lemma scan_positions_unreached positions tablebase d found :
  (forall fen, In fen positions -> unreached tablebase fen) ->
  TablebaseGenerator.scan_positions positions tablebase d found
  = Some (tablebase, found).
Proof.
  revert found. induction positions as [|fen0 positions IH]; intros found Hall.
  - reflexivity.
  - cbn [TablebaseGenerator.scan_positions].
    rewrite examine_unreached by (apply Hall; now left).
    rewrite orb_false_r. apply IH. intros fen Hfen. apply Hall. now right.
Qed.

Lemma induction_passes_unreached remaining positions tablebase d0 :
  (forall fen, In fen positions -> unreached tablebase fen) ->
  TablebaseGenerator.induction_passes (S remaining) positions tablebase d0
  = Some (tablebase, S d0).
Proof.
  intros Hall. cbn [TablebaseGenerator.induction_passes].
  now rewrite scan_positions_unreached.
Qed.

(** ** The tablebase that is built *)

Lemma checkmate_not_stalemate board :
  chess.is_checkmate board = true -> chess.is_stalemate board = false.
Proof.
  unfold chess.is_checkmate, chess.is_stalemate.
  destruct (chess.is_check board); simpl; congruence.
Qed.

Section Construction.

Variable positions : list string.
Hypothesis positions_readable : readable positions.

Lemma terminal_loops :
  exists tablebase1 tablebase2,
    TablebaseGenerator.find_checkmates positions ∅ = Some tablebase1
    /\ TablebaseGenerator.find_stalemates positions tablebase1 = Some tablebase2
    /\ tablebase1 ⊆ tablebase2
    /\ (forall fen, tablebase1 !! fen = Some (Mate 0, None) \/ tablebase1 !! fen = None)
    /\ forall fen, tablebase2 !! fen = terminal_entry positions fen.
Proof.
  destruct (find_checkmates_spec _ ∅ positions_readable) as (tb1 & H1 & Hspec1).
  destruct (find_stalemates_spec _ tb1 positions_readable) as (tb2 & H2 & Hspec2).
  exists tb1, tb2. split; [exact H1|]. split; [exact H2|].
  assert (Hl2 : forall fen, tb2 !! fen = terminal_entry positions fen).
  { intros fen. rewrite Hspec2. unfold terminal_entry.
    pose proof (Hspec1 fen) as Hl1. rewrite lookup_empty in Hl1.
    destruct (chess.Board_of_fen fen) as [board|];
      [|rewrite Hl1; now destruct (bool_decide _)].
    destruct (bool_decide _); cbn [andb] in *; [|assumption].
    rewrite Hl1.
    destruct (chess.is_checkmate board) eqn:Hcm.
    - now rewrite checkmate_not_stalemate.
    - now destruct (chess.is_stalemate board). }
  split; [|split; [|exact Hl2]].
  - apply map_subseteq_spec. intros fen entry Hfen.
    rewrite Hl2. unfold terminal_entry. rewrite Hspec1, lookup_empty in Hfen.
    destruct (chess.Board_of_fen fen) as [board|]; [|discriminate].
    destruct (bool_decide _); cbn [andb] in *; [|discriminate].
    destruct (chess.is_checkmate board); [assumption|discriminate].
  - intros fen. rewrite Hspec1, lookup_empty.
    destruct (chess.Board_of_fen fen); [|now right].
    destruct (_ && _); auto.
Qed.

Lemma terminal_entry_listed fen :
  is_Some (terminal_entry positions fen) -> In fen positions.
Proof.
  unfold terminal_entry.
  destruct (bool_decide_reflect (fen ∈ positions)) as [Hin|];
    [intros _; now apply list_elem_of_In|intros [? [=]]].
Qed.

Hypothesis positions_closed : successors_outside positions.

Lemma listed_unreached (tablebase : Tablebase) fen :
  (forall k, is_Some (tablebase !! k) -> In k positions) ->
  In fen positions -> unreached tablebase fen.
Proof.
  intros Hdom Hfen. destruct (positions_readable fen Hfen) as [board Hboard].
  exists board. split; [exact Hboard|].
  intros m Hm. destruct (tablebase !! next_fen board m) eqn:E; [|reflexivity].
  exfalso. apply (positions_closed _ _ _ Hfen Hboard Hm). apply Hdom. eauto.
Qed.

(** When no successor FEN belongs to the list, the [while] loop makes a
    single pass that labels nothing, and the dictionary returned is the one
    described by [expected_entry]. *)
Lemma generate_from_spec :
  exists tablebase1 tablebase2 tablebase,
    TablebaseGenerator.find_checkmates positions ∅ = Some tablebase1
    /\ TablebaseGenerator.find_stalemates positions tablebase1 = Some tablebase2
    /\ TablebaseGenerator.induction_passes 50 positions tablebase2 0
       = Some (tablebase2, 1%nat)
    /\ tablebase = TablebaseGenerator.mark_draws positions tablebase2
    /\ TablebaseGenerator.generate_from positions ∅ = Some tablebase
    /\ tablebase1 ⊆ tablebase2 /\ tablebase2 ⊆ tablebase
    /\ (forall fen, tablebase2 !! fen = terminal_entry positions fen)
    /\ (forall fen, tablebase !! fen = expected_entry positions fen).
Proof.
  destruct terminal_loops as (tb1 & tb2 & H1 & H2 & Hsub & _ & Hl2).
  assert (Hpass : TablebaseGenerator.induction_passes 50 positions tb2 0
                  = Some (tb2, 1%nat)).
  { apply induction_passes_unreached. intros fen Hfen.
    apply listed_unreached; [|exact Hfen].
    intros k Hk. apply terminal_entry_listed. now rewrite <- Hl2. }
  assert (Hfinal : forall fen,
            TablebaseGenerator.mark_draws positions tb2 !! fen
            = expected_entry positions fen).
  { intros fen. rewrite mark_draws_lookup, Hl2.
    unfold terminal_entry, expected_entry.
    destruct (bool_decide_reflect (fen ∈ positions)) as [Hin|Hin]; [|reflexivity].
    apply list_elem_of_In, positions_readable in Hin as [board ->].
    destruct (chess.is_checkmate board); [reflexivity|].
    now destruct (chess.is_stalemate board). }
  exists tb1, tb2, (TablebaseGenerator.mark_draws positions tb2).
  split; [exact H1|]. split; [exact H2|]. split; [exact Hpass|].
  split; [reflexivity|]. split.
  { unfold TablebaseGenerator.generate_from.
    rewrite H1. cbn [mbind option_bind]. rewrite H2. cbn [mbind option_bind].
    unfold TablebaseGenerator._backward_induction_fixed,
      TablebaseGenerator.induction_with_passes. now rewrite Hpass. }
  split; [exact Hsub|]. split; [|split; [exact Hl2|exact Hfinal]].
  apply map_subseteq_spec. intros fen entry Hfen.
  rewrite mark_draws_lookup, Hfen. reflexivity.
Qed.

End Construction.

Lemma all_positions_readable : readable TablebaseGenerator._generate_all_positions.
Proof.
  intros fen Hfen. apply all_positions_krk in Hfen as [b Hb].
  rewrite (krk_position_parse _ _ Hb). eauto.
Qed.

Lemma all_positions_closed : successors_outside TablebaseGenerator._generate_all_positions.
Proof.
  intros fen board m Hfen Hboard Hm.
  apply all_positions_krk in Hfen as [b Hb].
  rewrite (krk_position_parse _ _ Hb) in Hboard. injection Hboard as <-.
  exact (successor_not_enumerated _ _ _ Hb Hm).
Qed.

Lemma generate_krk_tablebase_unfold tablebase :
  TablebaseGenerator.generate_krk_tablebase tablebase
  = TablebaseGenerator.generate_from TablebaseGenerator._generate_all_positions tablebase.
Proof. reflexivity. Qed.

(** [generate_krk_tablebase()] on a fresh generator returns the dictionary
    described by [expected_entry]. *)
Lemma generate_krk_tablebase_spec :
  exists tablebase,
    TablebaseGenerator.generate_krk_tablebase ∅ = Some tablebase
    /\ forall fen,
         tablebase !! fen
         = expected_entry TablebaseGenerator._generate_all_positions fen.
Proof.
  destruct (generate_from_spec _ all_positions_readable all_positions_closed)
    as (tb1 & tb2 & tb & _ & _ & _ & _ & Hgen & _ & _ & _ & Hfinal).
  exists tb. split; [|exact Hfinal].
  rewrite generate_krk_tablebase_unfold. exact Hgen.
Qed.

Lemma max_dtm_bound (tablebase : Tablebase) fen d mv :
  tablebase !! fen = Some (Mate d, mv) ->
  (d <= TablebaseGenerator.max_dtm tablebase)%nat.
Proof.
  unfold TablebaseGenerator.max_dtm. revert fen d mv.
  apply (map_fold_weak_ind
           (fun r (m : Tablebase) =>
              forall fen d mv, m !! fen = Some (Mate d, mv) -> (d <= r)%nat)).
  - intros fen d mv. rewrite lookup_empty. discriminate.
  - intros i [dtm mv0] m r Hnone IH fen d mv. cbn [fst].
    destruct (decide (fen = i)) as [->|Hne].
    + rewrite lookup_insert_eq. intros [= -> ->].
      destruct (Nat.ltb_spec r d); lia.
    + rewrite lookup_insert_ne by congruence. intros Hfen.
      specialize (IH _ _ _ Hfen).
      destruct dtm as [d0|]; [|exact IH].
      destruct (Nat.ltb_spec r d0); lia.
Qed.

Section Run.

Variable positions : list string.
Hypothesis positions_readable : readable positions.

(** The run of [generate_krk_tablebase] on a fresh generator, stage by
    stage: the dictionary only grows, the [while] loop stops within the
    cap, and every entry has one of three shapes. *)
Lemma generate_from_run :
  exists tablebase1 tablebase2 tablebase3 passes,
    TablebaseGenerator.find_checkmates positions ∅ = Some tablebase1
    /\ TablebaseGenerator.find_stalemates positions tablebase1 = Some tablebase2
    /\ TablebaseGenerator.induction_passes 50 positions tablebase2 0
       = Some (tablebase3, passes)
    /\ TablebaseGenerator.generate_from positions ∅
       = Some (TablebaseGenerator.mark_draws positions tablebase3)
    /\ tablebase1 ⊆ tablebase2
    /\ tablebase2 ⊆ tablebase3
    /\ tablebase3 ⊆ TablebaseGenerator.mark_draws positions tablebase3
    /\ (1 <= passes <= 50)%nat
    /\ (passes <= TablebaseGenerator.max_dtm
                    (TablebaseGenerator.mark_draws positions tablebase3) + 1)%nat
    /\ ((passes < 50)%nat ->
        TablebaseGenerator.scan_positions positions tablebase3 passes false
        = Some (tablebase3, false))
    /\ (forall fen entry,
          TablebaseGenerator.mark_draws positions tablebase3 !! fen = Some entry ->
          entry = (Mate 0, None) \/ entry = (DRAW, None)
          \/ exists i s, (1 <= i <= passes)%nat /\ entry = (Mate i, Some s)).
Proof.
  destruct (terminal_loops positions positions_readable)
    as (tb1 & tb2 & H1 & H2 & Hsub12 & _ & Hl2).
  destruct (induction_passes_total 50 positions tb2 0 positions_readable)
    as [[tb3 passes] Hpass].
  destruct (induction_passes_spec _ _ _ _ _ _ Hpass)
    as (Hsub23 & Hbounds & Hpos & Hnew & Hevery & Hlast).
  assert (Hsub3 : tb3 ⊆ TablebaseGenerator.mark_draws positions tb3).
  { apply map_subseteq_spec. intros fen entry Hfen.
    rewrite mark_draws_lookup, Hfen. reflexivity. }
  exists tb1, tb2, tb3, passes.
  split; [exact H1|]. split; [exact H2|]. split; [exact Hpass|]. split.
  { unfold TablebaseGenerator.generate_from.
    rewrite H1. cbn [mbind option_bind]. rewrite H2. cbn [mbind option_bind].
    unfold TablebaseGenerator._backward_induction_fixed,
      TablebaseGenerator.induction_with_passes. now rewrite Hpass. }
  split; [exact Hsub12|]. split; [exact Hsub23|]. split; [exact Hsub3|].
  split; [specialize (Hpos ltac:(lia)); lia|]. split; [|split].
  - destruct (decide (passes <= 1)%nat) as [|Hmany]; [lia|].
    destruct (Hevery (passes - 1)%nat ltac:(lia)) as (fen & s & _ & Hfen).
    eapply lookup_weaken in Hfen; [|exact Hsub3].
    apply max_dtm_bound in Hfen. lia.
  - intros Hlt. apply Hlast. lia.
  - intros fen entry. rewrite mark_draws_lookup.
    destruct (tb3 !! fen) as [e|] eqn:Hfen.
    + intros [= <-].
      destruct (Hnew _ _ Hfen) as [Hold|(_ & _ & i & s & Hi & ->)].
      * rewrite Hl2 in Hold. unfold terminal_entry in Hold.
        destruct (bool_decide _); [|discriminate].
        destruct (chess.Board_of_fen fen) as [board|]; [|discriminate].
        destruct (chess.is_checkmate board); [left; congruence|].
        destruct (chess.is_stalemate board); [right; left; congruence|discriminate].
      * right; right. exists i, s. split; [lia|reflexivity].
    + destruct (bool_decide _); [|discriminate]. intros [= <-]. auto.
Qed.

End Run.

(** * The statements of the specification *)

(** ** The enumerator *)

Lemma kings_apart_distance wk_sq bk_sq :
  0 <= wk_sq < 64 -> 0 <= bk_sq < 64 ->
  kings_adjacent wk_sq bk_sq = false <-> 2 <= chess.square_distance wk_sq bk_sq.
Proof.
  intros Hk Hb. rewrite kings_adjacent_distance by assumption.
  rewrite Z.leb_gt. lia.
Qed.

Lemma emitted_iff wk_sq wr_sq bk_sq t :
  0 <= wk_sq < 64 -> 0 <= wr_sq < 64 -> 0 <= bk_sq < 64 ->
  In (chess.fen (krk_board wk_sq wr_sq bk_sq t)) TablebaseGenerator._generate_all_positions
  <-> emitted wk_sq wr_sq bk_sq t.
Proof.
  intros Hk Hr Hb. rewrite In_all_positions. split.
  - intros (wk' & wr' & bk' & t' & (Hk' & Hr' & Hb') & Hem & Hfen).
    apply fen_inj in Hfen; [|now apply krk_board_well_formed..].
    pose proof Hem as ((Hkr & Hkb & Hrb) & _).
    rewrite (krk_board_distinct wk' wr' bk' t') in Hfen by assumption.
    apply krk_board_fields in Hfen as (-> & -> & -> & -> & _). exact Hem.
  - intros Hem. exists wk_sq, wr_sq, bk_sq, t. auto.
Qed.

(** C4. For every tuple of squares of the board and every side to move,
    [_generate_all_positions] appends the position of the tuple if and only
    if the three squares are pairwise distinct, the Chebyshev distance of
    the kings is at least 2 and, with White to move, the white king is not
    attacked by Black.  In particular a position with White to move whose
    black king stands on a square attacked by the rook is appended, and
    the tablebase built from the list has an entry for it. *)
Theorem enumerator_emits wk_sq wr_sq bk_sq t :
  0 <= wk_sq < 64 -> 0 <= wr_sq < 64 -> 0 <= bk_sq < 64 ->
  let board := krk_board wk_sq wr_sq bk_sq t in
  let legal :=
    (wk_sq <> wr_sq /\ wk_sq <> bk_sq /\ wr_sq <> bk_sq)
    /\ 2 <= chess.square_distance wk_sq bk_sq
    /\ (t = chess.WHITE -> chess.is_attacked_by board chess.BLACK wk_sq = false) in
  (In (chess.fen board) TablebaseGenerator._generate_all_positions <-> legal)
  /\ (legal -> t = chess.WHITE ->
      chess.is_attacked_by board chess.WHITE bk_sq = true ->
      In (chess.fen board) TablebaseGenerator._generate_all_positions
      /\ exists tablebase entry,
           TablebaseGenerator.generate_krk_tablebase ∅ = Some tablebase
           /\ tablebase !! chess.fen board = Some entry).
Proof.
  intros Hk Hr Hb board legal.
  assert (Hiff : In (chess.fen board) TablebaseGenerator._generate_all_positions
                 <-> legal).
  { unfold board, legal. rewrite emitted_iff by assumption. unfold emitted.
    rewrite kings_apart_distance by assumption. reflexivity. }
  split; [exact Hiff|]. intros Hlegal _ _.
  apply Hiff in Hlegal. split; [exact Hlegal|].
  destruct generate_krk_tablebase_spec as (tablebase & Hgen & Hfinal).
  pose proof (all_positions_readable _ Hlegal) as [parsed Hparsed].
  exists tablebase. eexists. split; [exact Hgen|].
  rewrite Hfinal. unfold expected_entry.
  rewrite bool_decide_eq_true_2 by (apply list_elem_of_In; exact Hlegal).
  rewrite Hparsed. reflexivity.
Qed.

Lemma enumerator_emits_witness :
  In (chess.fen (krk_board 41 0 56 chess.WHITE))
     TablebaseGenerator._generate_all_positions
  /\ exists tablebase entry,
       TablebaseGenerator.generate_krk_tablebase ∅ = Some tablebase
       /\ tablebase !! chess.fen (krk_board 41 0 56 chess.WHITE) = Some entry.
Proof.
  apply (enumerator_emits 41 0 56 chess.WHITE); try lia.
  - split; [repeat split; lia|]. split; [vm_compute; discriminate|].
    intros _. vm_compute. reflexivity.
  - reflexivity.
  - vm_compute. reflexivity.
Defined.

(** The position of that witness, as a FEN string. *)
Lemma rook_attacks_black_king_fen :
  chess.fen (krk_board 41 0 56 chess.WHITE) = "k7/8/1K6/8/8/8/8/R7 w - - 0 1".
Proof. vm_compute. reflexivity. Qed.

(** ** Entries of the tablebase for given positions *)

Lemma expected_entry_listed positions fen board :
  In fen positions -> chess.Board_of_fen fen = Some board ->
  expected_entry positions fen
  = Some (if chess.is_checkmate board then (Mate 0, None) else (DRAW, None)).
Proof.
  intros Hin Hboard. unfold expected_entry.
  rewrite bool_decide_eq_true_2 by (apply list_elem_of_In; exact Hin).
  now rewrite Hboard.
Qed.

Lemma expected_entry_unlisted positions fen :
  ~ In fen positions -> expected_entry positions fen = None.
Proof.
  intros Hin. unfold expected_entry.
  rewrite bool_decide_eq_false_2; [reflexivity|].
  intros H. apply Hin. now apply list_elem_of_In.
Qed.

Lemma terminal_entry_listed_board positions fen board :
  In fen positions -> chess.Board_of_fen fen = Some board ->
  terminal_entry positions fen
  = if chess.is_checkmate board then Some (Mate 0, None)
    else if chess.is_stalemate board then Some (DRAW, None) else None.
Proof.
  intros Hin Hboard. unfold terminal_entry.
  rewrite bool_decide_eq_true_2 by (apply list_elem_of_In; exact Hin).
  now rewrite Hboard.
Qed.

(** ** Scenario 1 of the specification *)

Lemma cornered_position : krk_position cornered_fen cornered_board.
Proof.
  exists 47, 48, 63, chess.BLACK.
  split; [lia|]. split; [lia|]. split; [vm_compute; reflexivity|].
  split; [reflexivity|]. vm_compute. reflexivity.
Qed.

(** C6, as stated, fails: the position has a legal move. *)
Lemma cornered_not_stalemate :
  ~ (exists board,
       chess.Board_of_fen cornered_fen = Some board
       /\ chess.legal_moves board = []
       /\ chess.is_check board = false
       /\ chess.is_stalemate board = true).
Proof.
  intros (board & Hboard & Hmoves & _).
  rewrite (krk_position_parse _ _ cornered_position) in Hboard.
  injection Hboard as <-. vm_compute in Hmoves. discriminate.
Qed.

(** C6, amended.  The position [7k/R7/7K/8/8/8/8/8 b - - 0 1] is not in
    check and has exactly one legal move, h8g8; it is neither stalemate
    nor checkmate.  It is a position of the enumeration, and the checkmate
    and stalemate loops leave it without an entry. *)
Theorem cornered_king_has_a_move :
  chess.Board_of_fen cornered_fen = Some cornered_board
  /\ chess.is_check cornered_board = false
  /\ map chess.uci (chess.legal_moves cornered_board) = ["h8g8"]
  /\ chess.is_stalemate cornered_board = false
  /\ chess.is_checkmate cornered_board = false
  /\ In cornered_fen TablebaseGenerator._generate_all_positions
  /\ exists tablebase1 tablebase2,
       TablebaseGenerator.find_checkmates
         TablebaseGenerator._generate_all_positions ∅ = Some tablebase1
       /\ TablebaseGenerator.find_stalemates
            TablebaseGenerator._generate_all_positions tablebase1 = Some tablebase2
       /\ tablebase2 !! cornered_fen = None.
Proof.
  pose proof (krk_position_parse _ _ cornered_position) as Hparse.
  assert (Hin : In cornered_fen TablebaseGenerator._generate_all_positions)
    by (apply all_positions_krk; exists cornered_board; exact cornered_position).
  split; [exact Hparse|].
  split; [vm_compute; reflexivity|]. split; [vm_compute; reflexivity|].
  split; [vm_compute; reflexivity|]. split; [vm_compute; reflexivity|].
  split; [exact Hin|].
  destruct (terminal_loops _ all_positions_readable)
    as (tb1 & tb2 & H1 & H2 & _ & _ & Hl2).
  exists tb1, tb2. split; [exact H1|]. split; [exact H2|].
  rewrite Hl2, (terminal_entry_listed_board _ _ _ Hin Hparse).
  vm_compute. reflexivity.
Qed.

(** ** Queries *)

Lemma adjacent_kings_not_enumerated wk_sq wr_sq bk_sq t :
  0 <= wk_sq < 64 -> 0 <= wr_sq < 64 -> 0 <= bk_sq < 64 ->
  chess.square_distance wk_sq bk_sq <= 1 ->
  ~ In (chess.fen (krk_board wk_sq wr_sq bk_sq t))
       TablebaseGenerator._generate_all_positions.
Proof.
  intros Hk Hr Hb Hdist Hin. apply emitted_iff in Hin; try assumption.
  destruct Hin as (_ & Hadj & _).
  apply kings_apart_distance in Hadj; try assumption. lia.
Qed.

(** C7. A query for a key the dictionary does not hold answers "Position
    not found in tablebase"; a query never changes the dictionary (nothing
    is constructed); and in the tablebase built by [generate_krk_tablebase]
    no position whose kings stand on adjacent squares has an entry, so a
    query for it gets that answer. *)
Theorem query_of_absent_key :
  (forall (tablebase : Tablebase) fen,
     tablebase !! fen = None ->
     TablebaseGenerator.query_position tablebase fen
     = ("Position not found in tablebase", tablebase))
  /\ (forall (tablebase : Tablebase) fen,
        snd (TablebaseGenerator.query_position tablebase fen) = tablebase)
  /\ (forall tablebase wk_sq wr_sq bk_sq t,
        TablebaseGenerator.generate_krk_tablebase ∅ = Some tablebase ->
        0 <= wk_sq < 64 -> 0 <= wr_sq < 64 -> 0 <= bk_sq < 64 ->
        chess.square_distance wk_sq bk_sq <= 1 ->
        TablebaseGenerator.query_position tablebase
          (chess.fen (krk_board wk_sq wr_sq bk_sq t))
        = ("Position not found in tablebase", tablebase)).
Proof.
  assert (Habsent : forall (tablebase : Tablebase) fen,
            tablebase !! fen = None ->
            TablebaseGenerator.query_position tablebase fen
            = ("Position not found in tablebase", tablebase)).
  { intros tablebase fen Hfen. unfold TablebaseGenerator.query_position.
    rewrite Hfen. reflexivity. }
  split; [exact Habsent|]. split.
  - intros tablebase fen. unfold TablebaseGenerator.query_position.
    destruct (tablebase !! fen) as [[[d|] mv]|]; reflexivity.
  - intros tablebase wk_sq wr_sq bk_sq t Hgen Hk Hr Hb Hdist.
    apply Habsent.
    destruct generate_krk_tablebase_spec as (tablebase' & Hgen' & Hfinal).
    rewrite Hgen' in Hgen. injection Hgen as <-.
    rewrite Hfinal. apply expected_entry_unlisted.
    now apply adjacent_kings_not_enumerated.
Qed.

Lemma query_of_absent_key_witness :
  TablebaseGenerator.query_position
    (<["7k/6R1/7K/8/8/8/8/8 b - - 0 1" := (DRAW, None)]> ∅)
    "7k/8/6RK/8/8/8/8/8 w - - 0 1"
  = ("Position not found in tablebase",
     <["7k/6R1/7K/8/8/8/8/8 b - - 0 1" := (DRAW, None)]> ∅).
Proof.
  apply (proj1 query_of_absent_key). vm_compute. reflexivity.
Defined.

(** ** Saturation *)

(** C3. During [generate_krk_tablebase] on a fresh generator the
    dictionary only grows: the stalemate loop keeps the entries of the
    checkmate loop, every execution of the body of the [while] loop keeps
    the entries it finds, and so do the whole loop and the closing loop.
    The [while] loop returns after at least one and at most 50 passes, at
    most one more than the greatest integer [dtm] stored, and when it
    returns before the cap its last pass has labelled nothing. *)
Theorem labelled_once_and_saturates :
  exists tablebase1 tablebase2 tablebase3 passes tablebase,
    TablebaseGenerator.find_checkmates
      TablebaseGenerator._generate_all_positions ∅ = Some tablebase1
    /\ TablebaseGenerator.find_stalemates
         TablebaseGenerator._generate_all_positions tablebase1 = Some tablebase2
    /\ TablebaseGenerator.induction_passes 50
         TablebaseGenerator._generate_all_positions tablebase2 0
       = Some (tablebase3, passes)
    /\ tablebase
       = TablebaseGenerator.mark_draws TablebaseGenerator._generate_all_positions tablebase3
    /\ TablebaseGenerator.generate_krk_tablebase ∅ = Some tablebase
    /\ (tablebase1 ⊆ tablebase2 /\ tablebase2 ⊆ tablebase3 /\ tablebase3 ⊆ tablebase)
    /\ (forall (current : Tablebase) current_dtm fen next labelled,
          TablebaseGenerator.examine current current_dtm fen = Some (next, labelled) ->
          current ⊆ next)
    /\ (1 <= passes <= 50)%nat
    /\ (passes <= TablebaseGenerator.max_dtm tablebase + 1)%nat
    /\ ((passes < 50)%nat ->
        TablebaseGenerator.scan_positions
          TablebaseGenerator._generate_all_positions tablebase3 passes false
        = Some (tablebase3, false)).
Proof.
  destruct (generate_from_run _ all_positions_readable)
    as (tb1 & tb2 & tb3 & passes & H1 & H2 & Hpass & Hgen & Hsub12 & Hsub23
        & Hsub3 & Hbounds & Hmax & Hlast & _).
  exists tb1, tb2, tb3, passes. eexists.
  split; [exact H1|]. split; [exact H2|]. split; [exact Hpass|].
  split; [reflexivity|]. split.
  { rewrite generate_krk_tablebase_unfold. exact Hgen. }
  split; [exact (conj Hsub12 (conj Hsub23 Hsub3))|]. split.
  { clear. intros current current_dtm fen next labelled Hex.
    apply examine_cases in Hex as [[-> _]|(Hnone & _ & _ & s & ->)];
      [reflexivity|]. now apply insert_subseteq. }
  split; [exact Hbounds|]. split; [exact Hmax|exact Hlast].
Qed.

Lemma labelled_once_and_saturates_witness :
  exists passes : nat, (1 <= passes <= 50)%nat.
Proof.
  destruct labelled_once_and_saturates
    as (_ & _ & _ & passes & _ & _ & _ & _ & _ & _ & _ & _ & Hbounds & _).
  exists passes. exact Hbounds.
Defined.

(** ** Best moves *)

Lemma Some_eq {A} (x y : A) : Some x = Some y -> x = y.
Proof. congruence. Qed.

(** C9. In the tablebase returned by [generate_krk_tablebase] an entry
    holds a move if and only if its value is an integer [dtm] greater than
    0; the entries with [dtm] 0 and the draws hold [None]. *)
Theorem best_move_iff_positive_dtm tablebase fen dtm best_move :
  TablebaseGenerator.generate_krk_tablebase ∅ = Some tablebase ->
  tablebase !! fen = Some (dtm, best_move) ->
  is_Some best_move <-> exists d, dtm = Mate d /\ (0 < d)%nat.
Proof.
  intros Hgen Hfen.
  destruct (generate_from_run _ all_positions_readable)
    as (tb1 & tb2 & tb3 & passes & _ & _ & _ & Hgen' & _ & _ & _ & _ & _ & _ & Hshape).
  rewrite generate_krk_tablebase_unfold, Hgen' in Hgen.
  apply Some_eq in Hgen. subst tablebase. clear Hgen'.
  destruct (Hshape _ _ Hfen) as [[= -> ->]|[[= -> ->]|(i & s & Hi & [= -> ->])]].
  - split; [intros [? [=]]|intros (d & [= <-] & ?); lia].
  - split; [intros [? [=]]|intros (d & [=] & _)].
  - split; [intros _; exists i; split; [reflexivity|lia]|eauto].
Qed.

Lemma cornered_entry tablebase :
  TablebaseGenerator.generate_krk_tablebase ∅ = Some tablebase ->
  tablebase !! cornered_fen = Some (DRAW, None).
Proof.
  intros Hgen. destruct generate_krk_tablebase_spec as (tablebase' & Hgen' & Hfinal).
  rewrite Hgen' in Hgen. apply Some_eq in Hgen. subst tablebase'.
  rewrite Hfinal.
  rewrite (expected_entry_listed _ _ cornered_board).
  - vm_compute. reflexivity.
  - apply all_positions_krk. exists cornered_board. exact cornered_position.
  - exact (krk_position_parse _ _ cornered_position).
Qed.

Lemma best_move_iff_positive_dtm_witness :
  exists tablebase,
    TablebaseGenerator.generate_krk_tablebase ∅ = Some tablebase
    /\ tablebase !! cornered_fen = Some (DRAW, None)
    /\ (is_Some (@None string) <-> exists d, DRAW = Mate d /\ (0 < d)%nat).
Proof.
  destruct generate_krk_tablebase_spec as (tablebase & Hgen & _).
  exists tablebase. split; [exact Hgen|].
  split; [exact (cornered_entry _ Hgen)|].
  exact (best_move_iff_positive_dtm _ _ _ _ Hgen (cornered_entry _ Hgen)).
Defined.

(** ** Parity *)

(** White to move in a position of the enumeration is never in check. *)
Lemma white_to_move_not_in_check fen board :
  krk_position fen board -> chess.turn board = chess.WHITE ->
  chess.is_check board = false.
Proof.
  intros (wk_sq & wr_sq & bk_sq & t & (Hk & _ & Hb) & _ & Hadj & -> & _) Hturn.
  cbn [chess.turn] in Hturn. subst t.
  cbn [chess.is_check chess.king chess.turn chess.wk chess.opponent
       chess.is_attacked_by chess.bk].
  now rewrite king_attacks_adjacent, Hadj by assumption.
Qed.

Lemma classic_listed (fen : string) :
  In fen TablebaseGenerator._generate_all_positions
  \/ ~ In fen TablebaseGenerator._generate_all_positions.
Proof.
  destruct (decide (fen ∈ TablebaseGenerator._generate_all_positions)) as [H|H];
    [left|right]; now rewrite <- list_elem_of_In.
Qed.

Lemma mate_entries_are_checkmates tablebase fen d best_move :
  TablebaseGenerator.generate_krk_tablebase ∅ = Some tablebase ->
  tablebase !! fen = Some (Mate d, best_move) ->
  d = 0%nat /\ best_move = None
  /\ exists board, krk_position fen board /\ chess.is_checkmate board = true.
Proof.
  intros Hgen Hfen. destruct generate_krk_tablebase_spec as (tablebase' & Hgen' & Hfinal).
  rewrite Hgen' in Hgen. apply Some_eq in Hgen. subst tablebase'.
  rewrite Hfinal in Hfen. clear Hgen' Hfinal.
  destruct (classic_listed fen) as [Hin|Hout].
  - pose proof Hin as Hpos. apply all_positions_krk in Hpos as [board Hpos].
    rewrite (expected_entry_listed _ _ board Hin (krk_position_parse _ _ Hpos)) in Hfen.
    destruct (chess.is_checkmate board) eqn:Hcm; [|discriminate].
    injection Hfen as <- <-. eauto.
  - rewrite (expected_entry_unlisted _ _ Hout) in Hfen. discriminate.
Qed.

Lemma back_rank_position : krk_position back_rank_fen back_rank_board.
Proof.
  exists 46, 56, 62, chess.BLACK.
  split; [lia|]. split; [lia|]. split; [vm_compute; reflexivity|].
  split; [reflexivity|]. vm_compute. reflexivity.
Qed.

Lemma back_rank_entry tablebase :
  TablebaseGenerator.generate_krk_tablebase ∅ = Some tablebase ->
  tablebase !! back_rank_fen = Some (Mate 0, None).
Proof.
  intros Hgen. destruct generate_krk_tablebase_spec as (tablebase' & Hgen' & Hfinal).
  rewrite Hgen' in Hgen. apply Some_eq in Hgen. subst tablebase'.
  rewrite Hfinal.
  rewrite (expected_entry_listed _ _ back_rank_board).
  - vm_compute. reflexivity.
  - apply all_positions_krk. exists back_rank_board. exact back_rank_position.
  - exact (krk_position_parse _ _ back_rank_position).
Qed.

(** C10. In the tablebase returned by [generate_krk_tablebase], an entry
    with an integer [dtm] for a position with White to move has an odd
    [dtm], one for a position with Black to move has an even [dtm], and
    every entry with [dtm] 0 is a position with Black to move. *)
Theorem mate_parity tablebase fen d best_move board :
  TablebaseGenerator.generate_krk_tablebase ∅ = Some tablebase ->
  tablebase !! fen = Some (Mate d, best_move) ->
  chess.Board_of_fen fen = Some board ->
  (chess.turn board = chess.WHITE -> Nat.Odd d)
  /\ (chess.turn board = chess.BLACK -> Nat.Even d)
  /\ (d = 0%nat -> chess.turn board = chess.BLACK).
Proof.
  intros Hgen Hfen Hboard.
  destruct (mate_entries_are_checkmates _ _ _ _ Hgen Hfen)
    as (-> & _ & board' & Hpos & Hcm).
  rewrite (krk_position_parse _ _ Hpos) in Hboard. apply Some_eq in Hboard.
  subst board'.
  assert (Hturn : chess.turn board = chess.BLACK).
  { destruct (chess.turn board) eqn:Hturn; [|reflexivity].
    pose proof (white_to_move_not_in_check _ _ Hpos Hturn) as Hcheck.
    unfold chess.is_checkmate in Hcm. rewrite Hcheck in Hcm. discriminate. }
  split; [intros H; rewrite Hturn in H; discriminate|].
  split; [intros _; exists 0%nat; reflexivity|intros _; exact Hturn].
Qed.

Lemma mate_parity_witness :
  exists tablebase,
    TablebaseGenerator.generate_krk_tablebase ∅ = Some tablebase
    /\ tablebase !! back_rank_fen = Some (Mate 0, None)
    /\ chess.Board_of_fen back_rank_fen = Some back_rank_board
    /\ (chess.turn back_rank_board = chess.WHITE -> Nat.Odd 0)
    /\ (chess.turn back_rank_board = chess.BLACK -> Nat.Even 0)
    /\ (0%nat = 0%nat -> chess.turn back_rank_board = chess.BLACK).
Proof.
  destruct generate_krk_tablebase_spec as (tablebase & Hgen & _).
  exists tablebase. split; [exact Hgen|].
  split; [exact (back_rank_entry _ Hgen)|].
  split; [exact (krk_position_parse _ _ back_rank_position)|].
  exact (mate_parity _ _ _ _ _ Hgen (back_rank_entry _ Hgen)
           (krk_position_parse _ _ back_rank_position)).
Defined.

(** ** The rule for Black *)

Lemma has_move_not_checkmate board m :
  In m (chess.legal_moves board) -> chess.is_checkmate board = false.
Proof.
  intros Hm. unfold chess.is_checkmate, chess.has_legal_moves.
  destruct (chess.legal_moves board); [destruct Hm|].
  now destruct (negb (chess.is_check board)).
Qed.


Lemma moving_side_draws tablebase fen board m :
  TablebaseGenerator.generate_krk_tablebase ∅ = Some tablebase ->
  In fen TablebaseGenerator._generate_all_positions ->
  chess.Board_of_fen fen = Some board ->
  In m (chess.legal_moves board) ->
  tablebase !! fen = Some (DRAW, None).
Proof.
  intros Hgen Hfen Hboard Hm.
  destruct generate_krk_tablebase_spec as (tablebase' & Hgen' & Hfinal).
  rewrite Hgen' in Hgen. apply Some_eq in Hgen. subst tablebase'.
  rewrite Hfinal, (expected_entry_listed _ _ _ Hfen Hboard).
  now rewrite (has_move_not_checkmate _ _ Hm).
Qed.



(** ** The rule for White *)

Lemma mate_in_one_position : krk_position mate_in_one_fen mate_in_one_board.
Proof.
  exists 46, 0, 62, chess.WHITE.
  split; [lia|]. split; [lia|]. split; [vm_compute; reflexivity|].
  split; [reflexivity|]. vm_compute. reflexivity.
Qed.

Lemma rook_a1a8_legal : In rook_a1a8 (chess.legal_moves mate_in_one_board).
Proof. vm_compute. do 5 right. left. reflexivity. Qed.

(** C2 fails on the code.  With White to move on
    [6k1/8/6K1/8/8/8/8/R7 w - - 0 1] the legal move a1a8 gives checkmate,
    and the position reached is stored as [(0, None)] under its key
    [R5k1/8/6K1/8/8/8/8/8 b - - 0 1].  The loop looks the successor up under
    [board.fen()] after [board.push(move)], which reads [... b - - 1 1]:
    that key is missing, the first pass leaves the position unlabelled, the
    [while] loop ends after that pass, and the position is stored as a
    draw. *)
Theorem white_misses_mate_in_one :
  exists tablebase1 tablebase2 tablebase,
    TablebaseGenerator.find_checkmates
      TablebaseGenerator._generate_all_positions ∅ = Some tablebase1
    /\ TablebaseGenerator.find_stalemates
         TablebaseGenerator._generate_all_positions tablebase1 = Some tablebase2
    /\ TablebaseGenerator.generate_krk_tablebase ∅ = Some tablebase
    /\ chess.Board_of_fen mate_in_one_fen = Some mate_in_one_board
    /\ chess.turn mate_in_one_board = chess.WHITE
    /\ In rook_a1a8 (chess.legal_moves mate_in_one_board)
    /\ chess.uci rook_a1a8 = "a1a8"
    /\ chess.push mate_in_one_board rook_a1a8
       = chess.mkBoard (Some 46) (Some 56) (Some 62) chess.BLACK 1 1
    /\ chess.is_checkmate (chess.push mate_in_one_board rook_a1a8) = true
    /\ tablebase2 !! "R5k1/8/6K1/8/8/8/8/8 b - - 0 1" = Some (Mate 0, None)
    /\ next_fen mate_in_one_board rook_a1a8 = "R5k1/8/6K1/8/8/8/8/8 b - - 1 1"
    /\ tablebase2 !! next_fen mate_in_one_board rook_a1a8 = None
    /\ TablebaseGenerator.examine tablebase2 1 mate_in_one_fen
       = Some (tablebase2, false)
    /\ TablebaseGenerator.induction_passes 50
         TablebaseGenerator._generate_all_positions tablebase2 0
       = Some (tablebase2, 1%nat)
    /\ tablebase !! mate_in_one_fen = Some (DRAW, None).
Proof.
  destruct (generate_from_spec _ all_positions_readable all_positions_closed)
    as (tb1 & tb2 & tb & H1 & H2 & Hpass & _ & Hgen & _ & _ & Hl2 & Hfinal).
  pose proof (krk_position_parse _ _ mate_in_one_position) as Hparse.
  assert (Hin : In mate_in_one_fen TablebaseGenerator._generate_all_positions)
    by (apply all_positions_krk; exists mate_in_one_board; exact mate_in_one_position).
  assert (Hgen' : TablebaseGenerator.generate_krk_tablebase ∅ = Some tb)
    by (rewrite generate_krk_tablebase_unfold; exact Hgen).
  exists tb1, tb2, tb.
  split; [exact H1|]. split; [exact H2|]. split; [exact Hgen'|].
  split; [exact Hparse|]. split; [reflexivity|]. split; [exact rook_a1a8_legal|].
  split; [vm_compute; reflexivity|]. split; [vm_compute; reflexivity|].
  split; [vm_compute; reflexivity|]. split.
  { change "R5k1/8/6K1/8/8/8/8/8 b - - 0 1" with back_rank_fen.
    rewrite Hl2, (terminal_entry_listed_board _ _ back_rank_board).
    - vm_compute. reflexivity.
    - apply all_positions_krk. exists back_rank_board. exact back_rank_position.
    - exact (krk_position_parse _ _ back_rank_position). }
  split; [vm_compute; reflexivity|].
  assert (Hdom : forall k, is_Some (tb2 !! k) ->
                   In k TablebaseGenerator._generate_all_positions).
  { intros k Hk. rewrite Hl2 in Hk. exact (terminal_entry_listed _ _ Hk). }
  split.
  { destruct (tb2 !! next_fen mate_in_one_board rook_a1a8) eqn:E; [|reflexivity].
    exfalso.
    apply (all_positions_closed _ _ _ Hin Hparse rook_a1a8_legal).
    apply Hdom. rewrite E. eexists. reflexivity. }
  split.
  { apply examine_unreached.
    exact (listed_unreached _ all_positions_readable all_positions_closed
             _ _ Hdom Hin). }
  split; [exact Hpass|].
  exact (moving_side_draws _ _ _ _ Hgen' Hin Hparse rook_a1a8_legal).
Qed.

(** ** The optimized generator *)

Lemma find_terminals_spec positions tablebase :
  readable positions ->
  exists tablebase',
    OptimizedTablebaseGenerator.find_terminals positions tablebase = Some tablebase'
    /\ forall fen,
         tablebase' !! fen =
         match chess.Board_of_fen fen with
         | Some board =>
             if bool_decide (fen ∈ positions)
                && (chess.is_checkmate board || chess.is_stalemate board)
             then Some (if chess.is_checkmate board then (Mate 0, None)
                        else (DRAW, None))
             else tablebase !! fen
         | None => tablebase !! fen
         end.
Proof.
  revert tablebase. induction positions as [|fen0 positions IH]; intros tablebase Hread.
  - exists tablebase. split; [reflexivity|]. intros fen.
    destruct (chess.Board_of_fen fen); reflexivity.
  - apply readable_cons in Hread as [[board0 Hboard0] Hread].
    cbn [OptimizedTablebaseGenerator.find_terminals]. rewrite Hboard0.
    cbn [mbind option_bind].
    edestruct IH as (tablebase' & -> & Hspec); [exact Hread|].
    exists tablebase'. split; [reflexivity|]. intros fen. rewrite Hspec.
    destruct (chess.Board_of_fen fen) as [board|] eqn:Hboard.
    + destruct (decide (fen = fen0)) as [->|Hne].
      * assert (board = board0) as -> by congruence.
        rewrite (bool_decide_eq_true_2 (fen0 ∈ fen0 :: positions))
          by apply list_elem_of_here.
        cbn [andb].
        destruct (chess.is_checkmate board0), (chess.is_stalemate board0);
          cbn [orb andb]; rewrite ?andb_true_r, ?andb_false_r, ?lookup_insert_eq;
          try reflexivity; now destruct (bool_decide (fen0 ∈ positions)).
      * assert (bool_decide (fen ∈ fen0 :: positions) = bool_decide (fen ∈ positions)) as ->.
        { apply bool_decide_ext. rewrite elem_of_cons. intuition congruence. }
        destruct (_ && _); [reflexivity|].
        destruct (chess.is_checkmate board0); [now rewrite lookup_insert_ne|].
        destruct (chess.is_stalemate board0); [now rewrite lookup_insert_ne|].
        reflexivity.
    + assert (fen0 <> fen) by congruence.
      destruct (chess.is_checkmate board0); [now rewrite lookup_insert_ne|].
      destruct (chess.is_stalemate board0); [now rewrite lookup_insert_ne|].
      reflexivity.
Qed.

Lemma is_near_mate_unreached tablebase board :
  (forall m, In m (chess.legal_moves board) -> tablebase !! next_fen board m = None) ->
  OptimizedTablebaseGenerator._is_near_mate tablebase board = false.
Proof.
  intros Hnone. unfold OptimizedTablebaseGenerator._is_near_mate.
  apply not_true_is_false. intros H. apply existsb_exists in H as (m & Hm & Hknown).
  unfold OptimizedTablebaseGenerator.known_fen in Hknown.
  rewrite (Hnone m Hm) in Hknown. discriminate.
Qed.

Lemma check_positions_unreached positions tablebase iteration new_found :
  (forall fen, In fen positions -> unreached tablebase fen) ->
  OptimizedTablebaseGenerator.check_positions positions tablebase iteration new_found
  = Some (tablebase, new_found).
Proof.
  induction positions as [|fen0 positions IH]; intros Hall; [reflexivity|].
  cbn [OptimizedTablebaseGenerator.check_positions].
  assert (Hrest : forall fen, In fen positions -> unreached tablebase fen)
    by (intros fen Hfen; apply Hall; now right).
  destruct (tablebase !! fen0); [now apply IH|].
  destruct (Hall fen0 (or_introl eq_refl)) as (board & -> & Hnone).
  cbn [mbind option_bind]. rewrite (is_near_mate_unreached _ _ Hnone).
  now apply IH.
Qed.

Lemma In_slice_to n l fen :
  In fen (OptimizedTablebaseGenerator.slice_to n l) -> In fen l.
Proof.
  unfold OptimizedTablebaseGenerator.slice_to.
  destruct (n <? 0); rewrite <- !list_elem_of_In; apply subseteq_take.
Qed.

Section Optimized.

Variable order : list string.
Hypothesis order_readable : readable order.
Hypothesis order_closed : successors_outside order.

Lemma generate_tablebase_simple_spec :
  exists tablebase,
    OptimizedTablebaseGenerator.generate_tablebase_simple order ∅ = Some tablebase
    /\ forall fen, tablebase !! fen = expected_entry order fen.
Proof.
  destruct (find_terminals_spec order ∅ order_readable) as (tb1 & H1 & Hl1).
  assert (Hdom : forall k, is_Some (tb1 !! k) -> In k order).
  { intros k [e Hk]. rewrite Hl1, lookup_empty in Hk.
    destruct (chess.Board_of_fen k); [|discriminate].
    destruct (bool_decide_reflect (k ∈ order)) as [Hin|]; [|discriminate].
    now apply list_elem_of_In. }
  assert (Hiter : OptimizedTablebaseGenerator.iterations 10 order (dom tb1) tb1 0
                  = Some tb1).
  { cbn [OptimizedTablebaseGenerator.iterations].
    rewrite check_positions_unreached; [reflexivity|].
    intros fen Hfen. apply In_slice_to, filter_In in Hfen as [Hfen _].
    exact (listed_unreached _ order_readable order_closed _ _ Hdom Hfen). }
  exists (TablebaseGenerator.mark_draws order tb1). split.
  { unfold OptimizedTablebaseGenerator.generate_tablebase_simple.
    rewrite H1. cbn [mbind option_bind].
    unfold OptimizedTablebaseGenerator._simple_backward_induction.
    now rewrite Hiter. }
  intros fen. rewrite mark_draws_lookup, Hl1, lookup_empty.
  unfold expected_entry.
  destruct (bool_decide_reflect (fen ∈ order)) as [Hin|Hin].
  - apply list_elem_of_In, order_readable in Hin as [board ->]. cbn [andb].
    destruct (chess.is_checkmate board); [reflexivity|].
    now destruct (chess.is_stalemate board).
  - now destruct (chess.Board_of_fen fen).
Qed.

End Optimized.

Lemma optimized_positions fen :
  fen ∈ OptimizedTablebaseGenerator._generate_all_positions
  <-> In fen TablebaseGenerator._generate_all_positions.
Proof.
  unfold OptimizedTablebaseGenerator._generate_all_positions.
  rewrite elem_of_list_to_set, list_elem_of_In, <- all_positions_unfold.
  reflexivity.
Qed.



(** ** The enumerator of [chess_engine.py]

    [ChessEngine.generate_all_krk_positions] is not the list the tablebase
    is built from; unlike [_generate_all_positions] it skips the positions
    with White to move whose black king is attacked. *)

Lemma engine_positions_unfold :
  ChessEngine.generate_all_krk_positions
  = flat_map (fun wk =>
      flat_map (fun wr =>
        flat_map (fun bk => ChessEngine.positions_at wk wr bk) range64)
        range64) range64.
Proof. reflexivity. Qed.

Opaque ChessEngine.generate_all_krk_positions.

Lemma In_engine_positions_at wk wr bk fen :
  In fen (ChessEngine.positions_at wk wr bk) ->
  (wk <> wr /\ wk <> bk /\ wr <> bk)
  /\ exists t, fen = chess.fen (krk_board wk wr bk t)
       /\ (t = chess.WHITE ->
           chess.is_attacked_by (krk_board wk wr bk t) chess.WHITE bk = false).
Proof.
  unfold ChessEngine.positions_at.
  destruct (Z.eqb_spec wk wr) as [|Hkr];
    [|destruct (Z.eqb_spec wk bk) as [|Hkb];
      [|destruct (Z.eqb_spec wr bk) as [|Hrb]]]; cbn [orb]; try (intros []).
  destruct (_ && _); [intros []|].
  cbn [flat_map chess.Color_eqb andb app].
  intros Hin. split; [auto|]. apply in_app_or in Hin as [Hin|Hin].
  - destruct (chess.is_attacked_by (krk_board wk wr bk chess.WHITE) chess.WHITE bk)
      eqn:Hatt; [destruct Hin|].
    destruct Hin as [<-|[]]. exists chess.WHITE. auto.
  - rewrite app_nil_r in Hin.
    destruct (chess.is_attacked_by (krk_board wk wr bk chess.BLACK) chess.BLACK wk);
      [destruct Hin|].
    destruct Hin as [<-|[]]. exists chess.BLACK. split; [reflexivity|discriminate].
Qed.

Lemma engine_skips_attacked_black_king wk wr bk :
  0 <= wk < 64 -> 0 <= wr < 64 -> 0 <= bk < 64 ->
  chess.is_attacked_by (krk_board wk wr bk chess.WHITE) chess.WHITE bk = true ->
  ~ In (chess.fen (krk_board wk wr bk chess.WHITE)) ChessEngine.generate_all_krk_positions.
Proof.
  intros Hk Hr Hb Hatt Hin. rewrite engine_positions_unfold in Hin.
  apply in_flat_map in Hin as (wk' & Hk' & Hin).
  apply in_flat_map in Hin as (wr' & Hr' & Hin).
  apply in_flat_map in Hin as (bk' & Hb' & Hin).
  apply In_range64 in Hk', Hr', Hb'.
  apply In_engine_positions_at in Hin as ((Hkr & Hkb & Hrb) & t' & Hfen & Hsafe).
  apply fen_inj in Hfen; [|now apply krk_board_well_formed..].
  rewrite (krk_board_distinct wk' wr' bk' t') in Hfen by assumption.
  apply krk_board_fields in Hfen as (-> & -> & -> & <- & _).
  rewrite Hsafe in Hatt by reflexivity. discriminate.
Qed.

(** ** What the White branch does on an arbitrary dictionary *)

Lemma square_name_nonempty sq : chess.square_name sq <> "".
Proof.
  unfold chess.square_name, chess.square_file.
  assert (H : 0 <= Z.land sq 7 < 8).
  { change 7 with (Z.ones 3). rewrite Z.land_ones by lia.
    apply Z.mod_pos_bound. lia. }
  destruct (Z.to_nat (Z.land sq 7)) as [|[|[|[|[|[|[|[|n]]]]]]]] eqn:E;
    try discriminate. lia.
Qed.

Lemma uci_truthy m : TablebaseGenerator.truthy (Some (chess.uci m)) = true.
Proof.
  unfold TablebaseGenerator.truthy, chess.uci.
  pose proof (square_name_nonempty (chess.from_square m)) as H.
  destruct (chess.square_name (chess.from_square m)); [congruence|reflexivity].
Qed.

(** The position is labelled exactly when the least integer [dtm] among
    its successors is [d]. *)
Lemma examine_white tablebase d fen board :
  tablebase !! fen = None ->
  chess.Board_of_fen fen = Some board ->
  chess.turn board = chess.WHITE ->
  let moves := chess.legal_moves board in
  let least :=
    exists m, In m moves
      /\ mate_dtm tablebase (next_fen board m) = Some d
      /\ forall m' d', In m' moves ->
           mate_dtm tablebase (next_fen board m') = Some d' -> (d <= d')%nat in
  (least
   /\ exists m, In m moves
        /\ mate_dtm tablebase (next_fen board m) = Some d
        /\ TablebaseGenerator.examine tablebase (S d) fen
           = Some (<[fen := (Mate (S d), Some (chess.uci m))]> tablebase, true))
  \/ (~ least
      /\ TablebaseGenerator.examine tablebase (S d) fen = Some (tablebase, false)).
Proof.
  intros Hnew Hboard Hturn. cbv zeta.
  unfold TablebaseGenerator.examine. rewrite Hnew, Hboard. cbn [mbind option_bind].
  rewrite Hturn.
  destruct (TablebaseGenerator.white_scan tablebase board
              (chess.legal_moves board) None None) as [bm bd] eqn:Hscan.
  apply white_scan_spec in Hscan
    as [(-> & -> & Hnone)|(m & d0 & Hin & -> & -> & Hm & _ & Hmin)].
  - right. split; [|reflexivity]. intros (m & Hin & Hm & _).
    specialize (Hnone _ _ Hin Hm). discriminate.
  - rewrite uci_truthy, is_previous_S. cbn [andb].
    destruct (Nat.eqb_spec d0 d) as [->|Hne].
    + left. split; exists m; auto.
    + right. split; [|reflexivity]. intros (m' & Hin' & Hm' & Hmin').
      specialize (Hmin _ _ Hin' Hm'). specialize (Hmin' _ _ Hin Hm). lia.
Qed.

(** * Further properties of the code *)

(** ** The enumeration and the dictionary built from it *)

Lemma NoDup_flat_map {A B} (f : A -> list B) (l : list A) :
  NoDup l ->
  (forall a, In a l -> NoDup (f a)) ->
  (forall a1 a2 x, In a1 l -> In a2 l -> In x (f a1) -> In x (f a2) -> a1 = a2) ->
  NoDup (flat_map f l).
Proof.
  induction l as [|a l IH]; intros Hl Hf Hdisj; simpl; [constructor|].
  apply list.NoDup_cons in Hl as [Ha Hl].
  apply list.NoDup_app. split; [apply Hf; now left|]. split.
  - intros x Hx Hx'. apply list_elem_of_In in Hx, Hx'.
    apply in_flat_map in Hx' as (a' & Ha' & Hx').
    assert (a = a') as <- by (eapply Hdisj; eauto; [now left|now right]).
    apply Ha. now apply list_elem_of_In.
  - apply IH; auto.
    + intros a' Ha'. apply Hf. now right.
    + intros a1 a2 x H1 H2. apply Hdisj; now right.
Qed.

Lemma NoDup_range64 : NoDup range64.
Proof. apply NoDup_seqZ. Qed.

Lemma positions_at_inj a b c a' b' c' fen :
  0 <= a < 64 -> 0 <= b < 64 -> 0 <= c < 64 ->
  0 <= a' < 64 -> 0 <= b' < 64 -> 0 <= c' < 64 ->
  In fen (TablebaseGenerator.positions_at a b c) ->
  In fen (TablebaseGenerator.positions_at a' b' c') ->
  a = a' /\ b = b' /\ c = c'.
Proof.
  intros Ha Hb Hc Ha' Hb' Hc' H1 H2.
  apply In_positions_at in H1 as (t & ((? & ? & ?) & _) & ->).
  apply In_positions_at in H2 as (t' & ((? & ? & ?) & _) & Hfen).
  apply fen_inj in Hfen; [|now apply krk_board_well_formed..].
  rewrite (krk_board_distinct a' b' c' t') in Hfen by assumption.
  apply krk_board_fields in Hfen as (-> & -> & -> & _). auto.
Qed.

Lemma turn_fen_differ a b c :
  0 <= a < 64 -> 0 <= b < 64 -> 0 <= c < 64 ->
  chess.fen (krk_board a b c chess.WHITE) <> chess.fen (krk_board a b c chess.BLACK).
Proof.
  intros Ha Hb Hc Hfen.
  apply fen_inj in Hfen; [|now apply krk_board_well_formed..].
  apply (f_equal chess.turn) in Hfen. discriminate.
Qed.

Lemma NoDup_positions_at a b c :
  0 <= a < 64 -> 0 <= b < 64 -> 0 <= c < 64 ->
  NoDup (TablebaseGenerator.positions_at a b c).
Proof.
  intros Ha Hb Hc. unfold TablebaseGenerator.positions_at.
  destruct (_ || _); [constructor|]. destruct (_ && _); [constructor|].
  cbn [flat_map chess.Color_eqb andb app].
  destruct (chess.is_attacked_by _ _ _); cbn [app].
  - apply NoDup_singleton.
  - apply list.NoDup_cons. split; [|apply NoDup_singleton].
    rewrite list_elem_of_singleton. now apply turn_fen_differ.
Qed.

Lemma NoDup_all_positions : NoDup TablebaseGenerator._generate_all_positions.
Proof.
  rewrite all_positions_unfold.
  apply NoDup_flat_map; [apply NoDup_range64| |].
  - intros a Ha. apply In_range64 in Ha.
    apply NoDup_flat_map; [apply NoDup_range64| |].
    + intros b Hb. apply In_range64 in Hb.
      apply NoDup_flat_map; [apply NoDup_range64| |].
      * intros c Hc. apply In_range64 in Hc. now apply NoDup_positions_at.
      * intros c1 c2 x Hc1 Hc2 H1 H2. apply In_range64 in Hc1, Hc2.
        now destruct (positions_at_inj a b c1 a b c2 x) as (_ & _ & ?).
    + intros b1 b2 x Hb1 Hb2 H1 H2. apply In_range64 in Hb1, Hb2.
      apply in_flat_map in H1 as (c1 & Hc1 & H1).
      apply in_flat_map in H2 as (c2 & Hc2 & H2).
      apply In_range64 in Hc1, Hc2.
      now destruct (positions_at_inj a b1 c1 a b2 c2 x) as (_ & ? & _).
  - intros a1 a2 x Ha1 Ha2 H1 H2. apply In_range64 in Ha1, Ha2.
    apply in_flat_map in H1 as (b1 & Hb1 & H1).
    apply in_flat_map in H2 as (b2 & Hb2 & H2).
    apply in_flat_map in H1 as (c1 & Hc1 & H1).
    apply in_flat_map in H2 as (c2 & Hc2 & H2).
    apply In_range64 in Hb1, Hb2, Hc1, Hc2.
    now destruct (positions_at_inj a1 b1 c1 a2 b2 c2 x) as (? & _ & _).
Qed.

Lemma length_flat_map_Z {A B} (f : A -> list B) (g : A -> Z) (l : list A) :
  (forall a, In a l -> Z.of_nat (length (f a)) = g a) ->
  Z.of_nat (length (flat_map f l)) = fold_right (fun a acc => g a + acc) 0 l.
Proof.
  induction l as [|a l IH]; intros Hg; simpl; [reflexivity|].
  rewrite length_app, Nat2Z.inj_add. rewrite (Hg a) by now left.
  rewrite IH; [reflexivity|]. intros a' Ha'. apply Hg. now right.
Qed.

Lemma length_positions_at a b c :
  0 <= a < 64 -> 0 <= c < 64 ->
  Z.of_nat (length (TablebaseGenerator.positions_at a b c))
  = if (a =? b) || (a =? c) || (b =? c) || kings_adjacent a c then 0 else 2.
Proof.
  intros Ha Hc. unfold TablebaseGenerator.positions_at.
  fold (kings_adjacent a c).
  destruct (Z.eqb_spec a b) as [|Hab]; [reflexivity|].
  destruct (Z.eqb_spec a c) as [|Hac]; [reflexivity|].
  destruct (Z.eqb_spec b c) as [|Hbc]; [reflexivity|]. cbn [orb].
  destruct (kings_adjacent a c) eqn:Hadj; [reflexivity|].
  cbn [flat_map chess.Color_eqb andb app].
  rewrite not_attacked_by_black by assumption. reflexivity.
Qed.

Lemma length_all_positions :
  Z.of_nat (length TablebaseGenerator._generate_all_positions) = 447888.
Proof.
  rewrite all_positions_unfold.
  rewrite (length_flat_map_Z _ (fun a =>
    fold_right (fun b acc =>
      fold_right (fun c acc' =>
        (if (a =? b) || (a =? c) || (b =? c) || kings_adjacent a c then 0 else 2) + acc')
        0 range64 + acc) 0 range64)).
  - vm_compute. reflexivity.
  - intros a Ha. apply In_range64 in Ha. apply length_flat_map_Z.
    intros b Hb. apply length_flat_map_Z.
    intros c Hc. apply In_range64 in Hc. now apply length_positions_at.
Qed.

Lemma optimized_positions_set :
  OptimizedTablebaseGenerator._generate_all_positions
  = list_to_set TablebaseGenerator._generate_all_positions.
Proof.
  apply set_eq. intros fen.
  rewrite optimized_positions, elem_of_list_to_set. symmetry. apply list_elem_of_In.
Qed.

Lemma size_positions_set (positions : list string) :
  NoDup positions -> size (list_to_set positions : gset string) = length positions.
Proof. apply size_list_to_set. Qed.

(** X1. The enumeration lists no position twice and has 447,888 positions:
    the list of [TablebaseGenerator._generate_all_positions] and the set of
    [OptimizedTablebaseGenerator._generate_all_positions] have the same
    size, twice the number of triples of distinct squares whose kings are
    not adjacent. *)
Theorem enumeration_size :
  NoDup TablebaseGenerator._generate_all_positions
  /\ Z.of_nat (length TablebaseGenerator._generate_all_positions) = 447888
  /\ Z.of_nat (size OptimizedTablebaseGenerator._generate_all_positions) = 447888
  /\ forall wk_sq wr_sq bk_sq,
       0 <= wk_sq < 64 -> 0 <= bk_sq < 64 ->
       Z.of_nat (length (TablebaseGenerator.positions_at wk_sq wr_sq bk_sq))
       = if (wk_sq =? wr_sq) || (wk_sq =? bk_sq) || (wr_sq =? bk_sq)
            || kings_adjacent wk_sq bk_sq
         then 0 else 2.
Proof.
  split; [exact NoDup_all_positions|]. split; [exact length_all_positions|].
  split; [|exact length_positions_at].
  rewrite optimized_positions_set.
  rewrite (size_positions_set _ NoDup_all_positions).
  exact length_all_positions.
Qed.

Lemma max_dtm_zero (tablebase : Tablebase) :
  (forall fen d mv, tablebase !! fen = Some (Mate d, mv) -> d = 0%nat) ->
  TablebaseGenerator.max_dtm tablebase = 0%nat.
Proof.
  unfold TablebaseGenerator.max_dtm.
  apply (map_fold_weak_ind
           (fun r (m : Tablebase) =>
              (forall fen d mv, m !! fen = Some (Mate d, mv) -> d = 0%nat) -> r = 0%nat)).
  - reflexivity.
  - intros i [dtm mv0] m r Hnone IH Hall. cbn [fst].
    assert (r = 0%nat) as ->.
    { apply IH. intros fen d mv Hfen. apply (Hall fen d mv).
      rewrite lookup_insert_ne; [exact Hfen|]. intros <-. congruence. }
    destruct dtm as [d0|]; [|reflexivity].
    rewrite (Hall i d0 mv0) by apply lookup_insert_eq. reflexivity.
Qed.

Lemma keys_size (tablebase : Tablebase) (positions : list string) :
  NoDup positions ->
  (forall fen, is_Some (tablebase !! fen) <-> In fen positions) ->
  size tablebase = length positions.
Proof.
  intros Hnodup Hkeys. rewrite <- size_dom.
  rewrite <- (size_list_to_set (C := gset string) positions Hnodup).
  f_equal. apply set_eq. intros fen.
  rewrite elem_of_dom, elem_of_list_to_set, list_elem_of_In. apply Hkeys.
Qed.

(** X2. [generate_krk_tablebase()] on a fresh generator returns a dictionary
    whose keys are exactly the positions of the enumeration, 447,888 keys;
    a checkmate is stored as [(0, None)] and every other position as
    [('DRAW', None)], so that the maximum [dtm] found by [_print_statistics]
    is 0. *)
Theorem constructed_tablebase_entries :
  exists tablebase,
    TablebaseGenerator.generate_krk_tablebase ∅ = Some tablebase
    /\ (forall fen,
          is_Some (tablebase !! fen)
          <-> In fen TablebaseGenerator._generate_all_positions)
    /\ (forall fen, In fen TablebaseGenerator._generate_all_positions ->
          exists board,
            chess.Board_of_fen fen = Some board
            /\ tablebase !! fen
               = Some (if chess.is_checkmate board then (Mate 0, None)
                       else (DRAW, None)))
    /\ Z.of_nat (size tablebase) = 447888
    /\ TablebaseGenerator.max_dtm tablebase = 0%nat.
Proof.
  destruct generate_krk_tablebase_spec as (tablebase & Hgen & Hfinal).
  assert (Hkeys : forall fen,
            is_Some (tablebase !! fen)
            <-> In fen TablebaseGenerator._generate_all_positions).
  { intros fen. rewrite Hfinal. split.
    - intros Hsome. destruct (classic_listed fen) as [Hin|Hout]; [exact Hin|].
      rewrite (expected_entry_unlisted _ _ Hout) in Hsome. now destruct Hsome.
    - intros Hin. pose proof Hin as Hpos.
      apply all_positions_krk in Hpos as [board Hpos].
      rewrite (expected_entry_listed _ _ board Hin (krk_position_parse _ _ Hpos)).
      eauto. }
  exists tablebase. split; [exact Hgen|].
  split; [exact Hkeys|]. split; [|split].
  - intros fen Hin. pose proof Hin as Hpos.
    apply all_positions_krk in Hpos as [board Hpos].
    exists board. split; [exact (krk_position_parse _ _ Hpos)|].
    rewrite Hfinal.
    exact (expected_entry_listed _ _ board Hin (krk_position_parse _ _ Hpos)).
  - rewrite (keys_size _ _ NoDup_all_positions Hkeys).
    exact length_all_positions.
  - apply max_dtm_zero. intros fen d mv Hfen.
    now destruct (mate_entries_are_checkmates _ _ _ _ Hgen Hfen) as (-> & _).
Qed.

Lemma examine_known (tablebase : Tablebase) d fen :
  is_Some (tablebase !! fen) ->
  TablebaseGenerator.examine tablebase d fen = Some (tablebase, false).
Proof.
  intros [entry Hentry]. unfold TablebaseGenerator.examine. now rewrite Hentry.
Qed.

Lemma scan_positions_known positions (tablebase : Tablebase) d found :
  (forall fen, In fen positions -> is_Some (tablebase !! fen)) ->
  TablebaseGenerator.scan_positions positions tablebase d found
  = Some (tablebase, found).
Proof.
  revert found. induction positions as [|fen0 positions IH]; intros found Hall.
  - reflexivity.
  - cbn [TablebaseGenerator.scan_positions].
    rewrite examine_known by (apply Hall; now left).
    rewrite orb_false_r. apply IH. intros fen Hfen. apply Hall. now right.
Qed.

Lemma generate_from_again positions (tablebase : Tablebase) :
  readable positions ->
  (forall fen, tablebase !! fen = expected_entry positions fen) ->
  TablebaseGenerator.generate_from positions tablebase = Some tablebase.
Proof.
  intros Hread Hfinal.
  assert (Hlisted : forall fen board,
            fen ∈ positions -> chess.Board_of_fen fen = Some board ->
            tablebase !! fen
            = Some (if chess.is_checkmate board then (Mate 0, None) else (DRAW, None))).
  { intros fen board Hin Hboard. rewrite Hfinal.
    apply expected_entry_listed; [now apply list_elem_of_In|exact Hboard]. }
  destruct (find_checkmates_spec positions tablebase Hread) as (tb1 & H1 & Hl1).
  assert (tb1 = tablebase) as ->.
  { apply map_eq. intros fen. rewrite Hl1.
    destruct (chess.Board_of_fen fen) as [board|] eqn:Hboard; [|reflexivity].
    destruct (bool_decide_reflect (fen ∈ positions)) as [Hin|Hin]; [|reflexivity].
    cbn [andb]. destruct (chess.is_checkmate board) eqn:Hcm; [|reflexivity].
    rewrite (Hlisted _ _ Hin Hboard), Hcm. reflexivity. }
  destruct (find_stalemates_spec positions tablebase Hread) as (tb2 & H2 & Hl2).
  assert (tb2 = tablebase) as ->.
  { apply map_eq. intros fen. rewrite Hl2.
    destruct (chess.Board_of_fen fen) as [board|] eqn:Hboard; [|reflexivity].
    destruct (bool_decide_reflect (fen ∈ positions)) as [Hin|Hin]; [|reflexivity].
    cbn [andb]. destruct (chess.is_stalemate board) eqn:Hsm; [|reflexivity].
    rewrite (Hlisted _ _ Hin Hboard).
    destruct (chess.is_checkmate board) eqn:Hcm; [|reflexivity].
    apply checkmate_not_stalemate in Hcm. congruence. }
  assert (Hknown : forall fen, In fen positions -> is_Some (tablebase !! fen)).
  { intros fen Hin. destruct (Hread fen Hin) as [board Hboard].
    rewrite (Hlisted fen board) by (try apply list_elem_of_In; assumption). eauto. }
  unfold TablebaseGenerator.generate_from.
  rewrite H1. cbn [mbind option_bind]. rewrite H2. cbn [mbind option_bind].
  unfold TablebaseGenerator._backward_induction_fixed,
    TablebaseGenerator.induction_with_passes.
  cbn [TablebaseGenerator.induction_passes].
  rewrite scan_positions_known by exact Hknown.
  f_equal. apply map_eq. intros fen. rewrite mark_draws_lookup.
  destruct (tablebase !! fen) as [entry|] eqn:Hentry; [reflexivity|].
  destruct (bool_decide_reflect (fen ∈ positions)) as [Hin|Hin]; [|reflexivity].
  apply list_elem_of_In, Hknown in Hin. rewrite Hentry in Hin. now destruct Hin.
Qed.

(** X3. A second call of [generate_krk_tablebase()] on the same generator
    returns the dictionary of the first call unchanged. *)
Theorem generate_krk_tablebase_again :
  exists tablebase,
    TablebaseGenerator.generate_krk_tablebase ∅ = Some tablebase
    /\ TablebaseGenerator.generate_krk_tablebase tablebase = Some tablebase.
Proof.
  destruct generate_krk_tablebase_spec as (tablebase & Hgen & Hfinal).
  exists tablebase. split; [exact Hgen|].
  rewrite generate_krk_tablebase_unfold.
  exact (generate_from_again _ _ all_positions_readable Hfinal).
Qed.

(** X4. On the dictionary [generate_krk_tablebase()] returns, [query_position]
    answers ["Mate in 0 moves. Best move: None"] for a checkmate of the
    enumeration and ["Position is a draw"] for every other position of the
    enumeration; it never names a move. *)
Theorem query_of_constructed_tablebase :
  exists tablebase,
    TablebaseGenerator.generate_krk_tablebase ∅ = Some tablebase
    /\ forall fen, In fen TablebaseGenerator._generate_all_positions ->
         exists board,
           chess.Board_of_fen fen = Some board
           /\ TablebaseGenerator.query_position tablebase fen
              = (if chess.is_checkmate board
                 then "Mate in 0 moves. Best move: None"
                 else "Position is a draw",
                 tablebase).
Proof.
  destruct generate_krk_tablebase_spec as (tablebase & Hgen & Hfinal).
  exists tablebase. split; [exact Hgen|].
  intros fen Hin. pose proof Hin as Hpos.
  apply all_positions_krk in Hpos as [board Hpos].
  pose proof (krk_position_parse _ _ Hpos) as Hboard.
  exists board. split; [exact Hboard|].
  unfold TablebaseGenerator.query_position.
  rewrite Hfinal, (expected_entry_listed _ _ board Hin Hboard).
  destruct (chess.is_checkmate board); reflexivity.
Qed.


(** ** Positions with White to move, and the labels of the loop *)

Lemma slide_on_board occ delta sq fuel s :
  In s (chess.slide occ delta sq fuel) -> 0 <= s < 64.
Proof.
  revert sq. induction fuel as [|fuel IH]; intros sq; simpl; [intros []|].
  destruct (negb (chess.on_board (sq + delta)) || _) eqn:Hstop; [intros []|].
  apply orb_false_iff in Hstop as [Hon _]. apply negb_false_iff in Hon.
  unfold chess.on_board in Hon. apply andb_true_iff in Hon as [H0 H64].
  destruct (occ (sq + delta)).
  - intros [<-|[]]. lia.
  - intros [<-|Hs]; [lia|]. exact (IH _ Hs).
Qed.

Lemma sliding_attacks_on_board occ deltas sq s :
  In s (chess.sliding_attacks occ deltas sq) -> 0 <= s < 64.
Proof.
  unfold chess.sliding_attacks. rewrite in_flat_map.
  intros (delta & _ & Hs). exact (slide_on_board _ _ _ _ _ Hs).
Qed.

Lemma attacks_mask_on_board b sq s :
  chess.mem s (chess.attacks_mask b sq) = true -> 0 <= s < 64.
Proof.
  rewrite mem_In. unfold chess.attacks_mask.
  destruct (chess.piece_at b sq) as [p|]; [|intros []].
  destruct (chess.piece_type p); apply sliding_attacks_on_board.
Qed.

Lemma occupied_co_on_board b c sq :
  well_formed b -> chess.occupied_co b c sq = true -> 0 <= sq < 64.
Proof.
  intros [Hk Hr Hb _ _ _ _]. unfold chess.occupied_co.
  pose proof (piece_at_cases b sq) as Hcell.
  destruct (chess.piece_at b sq) as [[ | | ]|]; [| | |discriminate]; intros _.
  - rewrite Hcell in Hk. exact Hk.
  - destruct Hcell as [_ E]. rewrite E in Hr. exact Hr.
  - destruct Hcell as (_ & _ & E). rewrite E in Hb. exact Hb.
Qed.

Lemma In_pseudo_legal b from_mask to_mask m :
  In m (chess.generate_pseudo_legal_moves b from_mask to_mask)
  <-> (0 <= chess.from_square m < 64 /\ 0 <= chess.to_square m < 64)
      /\ chess.occupied_co b (chess.turn b) (chess.from_square m) = true
      /\ from_mask (chess.from_square m) = true
      /\ chess.mem (chess.to_square m) (chess.attacks_mask b (chess.from_square m)) = true
      /\ chess.occupied_co b (chess.turn b) (chess.to_square m) = false
      /\ to_mask (chess.to_square m) = true.
Proof.
  unfold chess.generate_pseudo_legal_moves. rewrite in_flat_map. split.
  - intros (from & Hfrom & Hm). apply in_map_iff in Hm as (to & <- & Hto).
    apply In_scan_reversed in Hfrom as [Hrange Hfrom], Hto as [Hrange' Hto].
    apply andb_true_iff in Hfrom as [Hown Hfm].
    apply andb_true_iff in Hto as [Hto Htm].
    apply andb_true_iff in Hto as [Hatt Hfree]. apply negb_true_iff in Hfree.
    cbn [chess.from_square chess.to_square]. auto 10.
  - intros ((Hrange & Hrange') & Hown & Hfm & Hatt & Hfree & Htm).
    exists (chess.from_square m). split.
    + apply In_scan_reversed. split; [exact Hrange|]. now rewrite Hown, Hfm.
    + apply in_map_iff. exists (chess.to_square m). split; [now destruct m|].
      apply In_scan_reversed. split; [exact Hrange'|].
      now rewrite Hatt, Hfree, Htm.
Qed.

Lemma is_pseudo_legal_spec b m :
  well_formed b ->
  chess.is_pseudo_legal b m = true
  <-> In m (chess.generate_pseudo_legal_moves b (fun _ => true) (fun _ => true)).
Proof.
  intros Hwf. rewrite In_pseudo_legal. unfold chess.is_pseudo_legal. split.
  - destruct (chess.move_bool m); [|discriminate]. cbn [negb].
    destruct (chess.piece_at b (chess.from_square m)) eqn:Hp; [|discriminate].
    destruct (chess.occupied_co b (chess.turn b) (chess.from_square m)) eqn:Hown;
      [|discriminate]. cbn [negb].
    destruct (chess.occupied_co b (chess.turn b) (chess.to_square m)) eqn:Hfree;
      [discriminate|].
    intros Hatt. split; [|auto]. split.
    + exact (occupied_co_on_board _ _ _ Hwf Hown).
    + exact (attacks_mask_on_board _ _ _ Hatt).
  - intros (_ & Hown & _ & Hatt & Hfree & _).
    assert (Hne : chess.move_bool m = true).
    { unfold chess.move_bool. apply negb_true_iff, andb_false_iff.
      destruct (Z.eqb_spec (chess.from_square m) 0) as [E0|]; [|now left].
      destruct (Z.eqb_spec (chess.to_square m) 0) as [E1|]; [|now right].
      rewrite E0 in Hown. rewrite E1 in Hfree. congruence. }
    rewrite Hne, Hown, Hfree. cbn [negb].
    unfold chess.occupied_co in Hown.
    destruct (chess.piece_at b (chess.from_square m)); [exact Hatt|discriminate].
Qed.

Lemma Move_eqb_eq m1 m2 : chess.Move_eqb m1 m2 = true <-> m1 = m2.
Proof.
  unfold chess.Move_eqb. rewrite andb_true_iff, !Z.eqb_eq.
  destruct m1, m2; cbn [chess.from_square chess.to_square]. split.
  - intros [-> ->]. reflexivity.
  - intros [= -> ->]. auto.
Qed.

Lemma move_in_In m moves : chess.move_in m moves = true <-> In m moves.
Proof.
  unfold chess.move_in. rewrite existsb_exists. split.
  - intros (m' & Hin & Heq). apply Move_eqb_eq in Heq. now subst.
  - intros Hin. exists m. split; [exact Hin|]. now apply Move_eqb_eq.
Qed.

Lemma king_piece b k :
  well_formed b -> chess.king b (chess.turn b) = Some k ->
  chess.attacks_mask b k = chess.king_attacks k
  /\ (chess.at_square (chess.wk b) k || chess.at_square (chess.bk b) k = true).
Proof.
  intros [_ _ _ Hkr Hkb Hrb _]. unfold chess.king, chess.attacks_mask, chess.piece_at.
  destruct (chess.turn b); intros Hk; rewrite Hk in *; cbn [chess.at_square].
  - rewrite Z.eqb_refl. auto.
  - rewrite Z.eqb_refl, orb_true_r.
    destruct (chess.wk b) as [w|], (chess.wr b) as [r|]; simpl in *;
      case_eqb; try congruence; auto.
Qed.

Lemma king_step_files k to :
  0 <= k < 64 -> chess.mem to (chess.king_attacks k) = true ->
  (1 <? Z.abs (chess.square_file k - chess.square_file to)) = false.
Proof.
  intros Hk Hatt.
  assert (Hto : 0 <= to < 64).
  { apply mem_In in Hatt. exact (sliding_attacks_on_board _ _ _ _ Hatt). }
  rewrite king_attacks_adjacent in Hatt by assumption.
  apply andb_true_iff in Hatt as [Hadj _].
  rewrite kings_adjacent_distance in Hadj by assumption.
  apply Z.leb_le in Hadj. unfold chess.square_distance in Hadj.
  apply Z.ltb_ge. lia.
Qed.

Lemma own_rook_occupied b to :
  chess.turn b = chess.WHITE -> chess.at_square (chess.wr b) to = true ->
  chess.occupied_co b (chess.turn b) to = true.
Proof.
  intros Hturn Hr. unfold chess.occupied_co, chess.piece_at. rewrite Hturn, Hr.
  now destruct (chess.at_square (chess.wk b) to).
Qed.

Lemma is_safe_written_out b k m :
  well_formed b -> chess.king b (chess.turn b) = Some k ->
  chess.is_pseudo_legal b m = true ->
  chess._is_safe b k m = chess.is_safe b k m.
Proof.
  intros Hwf Hk Hpl. unfold chess._is_safe, chess.is_safe.
  destruct (Z.eqb_spec (chess.from_square m) k) as [Hfrom|]; [|reflexivity].
  assert (Hcastle : chess.is_castling b m = false); [|now rewrite Hcastle].
  destruct (king_piece b k Hwf Hk) as [Hatt Hking].
  apply is_pseudo_legal_spec, In_pseudo_legal in Hpl
    as ((Hrange & _) & _ & _ & Hto & Hfree & _); [|exact Hwf].
  rewrite Hfrom in *. rewrite Hatt in Hto.
  unfold chess.is_castling. rewrite Hfrom, Hking.
  rewrite (king_step_files _ _ Hrange Hto). cbn [orb].
  destruct (chess.turn b) eqn:Hturn; [|reflexivity]. cbn [chess.Color_eqb andb].
  destruct (chess.at_square (chess.wr b) (chess.to_square m)) eqn:Hr; [|reflexivity].
  pose proof (own_rook_occupied b _ Hturn Hr) as Hocc.
  rewrite Hturn in Hocc. congruence.
Qed.

Lemma In_masked_king_moves b k attacked m :
  In m (if k =? chess.from_square m then
          map (chess.mkMove k)
            (chess.scan_reversed (fun to =>
               chess.mem to (chess.king_attacks k)
               && negb (chess.occupied_co b (chess.turn b) to)
               && negb (chess.mem to attacked) && (to =? chess.to_square m)))
        else [])
  <-> In m (chess.evasion_king_moves b k attacked).
Proof.
  rewrite evasion_king_moves_unfold.
  destruct (Z.eqb_spec k (chess.from_square m)) as [Hk|Hne].
  - split; intros Hm; apply in_map_iff in Hm as (to & Hto & Hscan);
      apply in_map_iff; exists to; (split; [exact Hto|]);
      apply In_scan_reversed in Hscan as [Hrange Hscan]; apply In_scan_reversed;
      (split; [exact Hrange|]).
    + apply andb_true_iff in Hscan as [Hscan _]. exact Hscan.
    + rewrite Hscan. cbn [andb]. rewrite <- Hto. cbn [chess.to_square].
      apply Z.eqb_refl.
  - split; [intros []|]. intros Hm. apply in_map_iff in Hm as (to & <- & _).
    now apply Hne.
Qed.

Lemma In_masked_blocks b k checkers m :
  In m (match checkers with
        | [checker] =>
            chess.generate_pseudo_legal_moves b
              (fun from => negb (chess.at_square (chess.wk b) from
                                 || chess.at_square (chess.bk b) from)
                           && (from =? chess.from_square m))
              (fun to => (chess.mem to (chess.between k checker) || (to =? checker))
                         && (to =? chess.to_square m))
        | _ => []
        end)
  <-> In m (chess.evasion_blocks b k checkers).
Proof.
  destruct checkers as [|c [|c' cs]].
  - now rewrite evasion_blocks_other by (simpl; lia).
  - rewrite evasion_blocks_single. rewrite !In_pseudo_legal. cbv beta.
    rewrite !Z.eqb_refl, !andb_true_r. tauto.
  - now rewrite evasion_blocks_other by (simpl; lia).
Qed.

Lemma In_evasions_masked b k checkers m :
  chess.move_in m (chess.generate_evasions_masked b k checkers
                     (fun from => from =? chess.from_square m)
                     (fun to => to =? chess.to_square m)) = true
  <-> In m (chess.generate_evasions b k checkers).
Proof.
  rewrite move_in_In, generate_evasions_unfold.
  unfold chess.generate_evasions_masked.
  split; intros Hm; apply in_app_iff in Hm; apply in_app_iff;
    (destruct Hm as [Hm|Hm];
     [left; apply In_masked_king_moves; exact Hm
     |right; apply In_masked_blocks; exact Hm]).
Qed.

Lemma evasions_pseudo_legal b k checkers m :
  well_formed b -> chess.king b (chess.turn b) = Some k ->
  In m (chess.generate_evasions b k checkers) ->
  chess.is_pseudo_legal b m = true.
Proof.
  intros Hwf Hk Hm. apply is_pseudo_legal_spec; [exact Hwf|].
  rewrite generate_evasions_unfold in Hm. apply in_app_or in Hm as [Hm|Hm].
  - rewrite evasion_king_moves_unfold in Hm.
    apply in_map_iff in Hm as (to & <- & Hto).
    apply In_scan_reversed in Hto as [Hrange Hto].
    destruct (andb_prop _ _ Hto) as [Hto' _].
    destruct (andb_prop _ _ Hto') as [Hatt Hown]. clear Hto Hto'.
    apply negb_true_iff in Hown.
    pose proof (king_occupied b k Hwf Hk) as Hocc.
    destruct (king_piece b k Hwf Hk) as [Hmask _].
    apply In_pseudo_legal. cbn [chess.from_square chess.to_square].
    rewrite Hmask. split; [|auto]. split; [|exact Hrange].
    exact (occupied_co_on_board _ _ _ Hwf Hocc).
  - destruct checkers as [|c [|c' cs]].
    + rewrite evasion_blocks_other in Hm by (simpl; lia). destruct Hm.
    + rewrite evasion_blocks_single in Hm. apply In_pseudo_legal in Hm.
      apply In_pseudo_legal. tauto.
    + rewrite evasion_blocks_other in Hm by (simpl; lia). destruct Hm.
Qed.

Lemma is_legal_spec b m :
  well_formed b ->
  chess.is_legal b m = true <-> In m (chess.legal_moves b).
Proof.
  intros Hwf. rewrite legal_moves_unfold. unfold chess.is_legal, chess.is_into_check.
  destruct (chess.king b (chess.turn b)) as [k|] eqn:Hk.
  - destruct (chess.attackers b (chess.opponent (chess.turn b)) k) as [|c cs] eqn:Hc.
    + rewrite filter_In, <- is_pseudo_legal_spec by exact Hwf. cbn [andb].
      destruct (chess.is_pseudo_legal b m) eqn:Hpl.
      * rewrite negb_involutive, (is_safe_written_out _ _ _ Hwf Hk Hpl). tauto.
      * split; [discriminate|intros [? _]; discriminate].
    + rewrite filter_In. cbn [andb].
      destruct (chess.is_pseudo_legal b m) eqn:Hpl.
      * rewrite <- In_evasions_masked.
        destruct (chess.move_in m _); cbn [negb].
        -- rewrite negb_involutive, (is_safe_written_out _ _ _ Hwf Hk Hpl). tauto.
        -- split; [discriminate|intros [? _]; discriminate].
      * split; [discriminate|]. intros [Hm _].
        rewrite (evasions_pseudo_legal _ _ _ _ Hwf Hk Hm) in Hpl. discriminate.
  - rewrite <- is_pseudo_legal_spec by exact Hwf.
    destruct (chess.is_pseudo_legal b m); cbn [negb]; tauto.
Qed.

Lemma filter_none {A} (f : A -> bool) (l : list A) :
  (forall x, In x l -> f x = false) -> List.filter f l = [].
Proof.
  induction l as [|x l IH]; intros Hall; [reflexivity|]. cbn [List.filter].
  rewrite (Hall x) by now left. apply IH. intros y Hy. apply Hall. now right.
Qed.

Lemma slide_first_step occ delta sq fuel :
  chess.on_board (sq + delta) = true ->
  (2 <? chess.square_distance (sq + delta) sq) = false ->
  In (sq + delta) (chess.slide occ delta sq (S fuel)).
Proof.
  intros Hon Hnear. cbn [chess.slide]. cbv zeta. rewrite Hon, Hnear. cbn [negb orb].
  destruct (occ (sq + delta)); now left.
Qed.

Lemma rook_first_step occ delta sq :
  In delta [-1; 1; -8; 8] ->
  chess.on_board (sq + delta) = true ->
  (2 <? chess.square_distance (sq + delta) sq) = false ->
  In (sq + delta) (chess.rook_attacks occ sq).
Proof.
  intros Hdelta Hon Hnear. unfold chess.rook_attacks, chess.sliding_attacks.
  apply in_flat_map. exists delta. split; [exact Hdelta|].
  now apply slide_first_step.
Qed.

Lemma rook_step_exists wr wk :
  0 <= wr < 64 -> 0 <= wk < 64 -> wr <> wk ->
  exists delta,
    In delta [-1; 1; -8; 8]
    /\ chess.on_board (wr + delta) = true
    /\ (2 <? chess.square_distance (wr + delta) wr) = false
    /\ wr + delta <> wk.
Proof.
  intros Hr Hk Hne.
  pose (free := fun r k =>
          (r =? k)
          || existsb (fun delta =>
                 chess.on_board (r + delta)
                 && negb (2 <? chess.square_distance (r + delta) r)
                 && negb (r + delta =? k)) [-1; 1; -8; 8]).
  assert (Hall : forallb (fun r => forallb (free r) range64) range64 = true)
    by (vm_compute; reflexivity).
  pose proof (forallb_range64_2 free Hall _ _ Hr Hk) as H.
  unfold free in H. clear Hall free.
  apply orb_true_iff in H as [H|H]; [apply Z.eqb_eq in H; contradiction|].
  apply existsb_exists in H as (delta & Hdelta & H).
  apply andb_true_iff in H as [H Hfree]. apply andb_true_iff in H as [Hon Hnear].
  apply negb_true_iff in Hnear, Hfree. apply Z.eqb_neq in Hfree.
  exists delta. auto.
Qed.

Lemma white_has_a_rook_move fen board :
  krk_position fen board -> chess.turn board = chess.WHITE ->
  exists to, chess.wr board <> None
    /\ forall from, chess.wr board = Some from ->
         In (chess.mkMove from to) (chess.legal_moves board).
Proof.
  intros (wk & wr & bk & t & (Hk & Hr & Hb) & (Hkr & Hkb & Hrb) & Hadj & -> & _) Hturn.
  cbn [chess.turn] in Hturn. subst t. cbn [chess.wr].
  destruct (rook_step_exists wr wk Hr Hk) as (delta & Hdelta & Hon & Hnear & Hfree);
    [congruence|].
  exists (wr + delta). split; [discriminate|]. intros from [= <-].
  set (b := chess.mkBoard (Some wk) (Some wr) (Some bk) chess.WHITE 0 1).
  assert (Hrange : 0 <= wr + delta < 64) by (unfold chess.on_board in Hon; lia).
  assert (Hmoved : wr + delta <> wr)
    by (destruct Hdelta as [<-|[<-|[<-|[<-|[]]]]]; lia).
  rewrite legal_moves_unfold. cbn [chess.king chess.turn chess.wk chess.opponent b].
  fold b.
  assert (Hnone : chess.attackers b chess.BLACK wk = []).
  { unfold chess.attackers. apply filter_none. intros s _.
    unfold chess.occupied_co, chess.piece_at, b.
    cbn [chess.wk chess.wr chess.bk chess.at_square].
    destruct (Z.eqb_spec wk s); [reflexivity|].
    destruct (Z.eqb_spec wr s); [reflexivity|].
    destruct (Z.eqb_spec bk s) as [<-|]; [|reflexivity].
    cbn [chess.color chess.Color_eqb chess.piece_type andb].
    rewrite king_attacks_adjacent by assumption.
    now rewrite Hadj. }
  rewrite Hnone. apply filter_In. split.
  - apply In_pseudo_legal. cbn [chess.from_square chess.to_square chess.turn b].
    fold b.
    assert (Hrook : chess.piece_at b wr = Some chess.WhiteRook).
    { unfold chess.piece_at, b. cbn [chess.wk chess.wr chess.bk chess.at_square].
      destruct (Z.eqb_spec wk wr); [congruence|]. now rewrite Z.eqb_refl. }
    split; [auto|]. split.
    { unfold chess.occupied_co. now rewrite Hrook. }
    split; [reflexivity|]. split.
    { unfold chess.attacks_mask. rewrite Hrook. cbn [chess.piece_type].
      apply mem_In. now apply rook_first_step. }
    split; [|reflexivity].
    unfold chess.occupied_co, chess.piece_at, b.
    cbn [chess.wk chess.wr chess.bk chess.at_square].
    destruct (Z.eqb_spec wk (wr + delta)); [congruence|].
    destruct (Z.eqb_spec wr (wr + delta)); [congruence|].
    now destruct (Z.eqb_spec bk (wr + delta)).
  - unfold chess.is_safe. cbn [chess.from_square].
    destruct (Z.eqb_spec wr wk); [congruence|reflexivity].
Qed.

Lemma white_never_stuck fen board :
  krk_position fen board -> chess.turn board = chess.WHITE ->
  chess.is_checkmate board = false /\ chess.is_stalemate board = false.
Proof.
  intros Hpos Hturn.
  destruct (white_has_a_rook_move _ _ Hpos Hturn) as (to & Hsome & Hmove).
  destruct (chess.wr board) as [from|] eqn:Hwr; [|congruence].
  specialize (Hmove from eq_refl).
  assert (Hmoves : chess.has_legal_moves board = true).
  { apply has_legal_moves_true. intros Hnil. rewrite Hnil in Hmove. destruct Hmove. }
  unfold chess.is_checkmate, chess.is_stalemate. rewrite Hmoves.
  now destruct (chess.is_check board).
Qed.

(** X5. Steps 2 and 3 of [generate_krk_tablebase] store entries for
    positions with Black to move only: in a position of the enumeration
    with White to move the rook has a legal move, so the position is neither
    checkmate nor stalemate. *)
Theorem terminal_entries_have_black_to_move :
  (forall fen board,
     In fen TablebaseGenerator._generate_all_positions ->
     chess.Board_of_fen fen = Some board ->
     chess.turn board = chess.WHITE ->
     chess.legal_moves board <> []
     /\ chess.is_checkmate board = false /\ chess.is_stalemate board = false)
  /\ exists tablebase1 tablebase2,
       TablebaseGenerator.find_checkmates
         TablebaseGenerator._generate_all_positions ∅ = Some tablebase1
       /\ TablebaseGenerator.find_stalemates
            TablebaseGenerator._generate_all_positions tablebase1 = Some tablebase2
       /\ forall fen board,
            is_Some (tablebase2 !! fen) -> chess.Board_of_fen fen = Some board ->
            chess.turn board = chess.BLACK.
Proof.
  assert (Hwhite : forall fen board,
            In fen TablebaseGenerator._generate_all_positions ->
            chess.Board_of_fen fen = Some board ->
            chess.turn board = chess.WHITE ->
            chess.legal_moves board <> []
            /\ chess.is_checkmate board = false /\ chess.is_stalemate board = false).
  { intros fen board Hin Hboard Hturn.
    apply all_positions_krk in Hin as [board' Hpos].
    rewrite (krk_position_parse _ _ Hpos) in Hboard.
    apply Some_eq in Hboard. subst board'.
    split; [|exact (white_never_stuck _ _ Hpos Hturn)].
    destruct (white_has_a_rook_move _ _ Hpos Hturn) as (to & Hsome & Hmove).
    destruct (chess.wr board) as [from|] eqn:Hwr; [|congruence].
    specialize (Hmove from eq_refl). intros Hnil. rewrite Hnil in Hmove.
    destruct Hmove. }
  split; [exact Hwhite|].
  destruct (terminal_loops _ all_positions_readable)
    as (tb1 & tb2 & H1 & H2 & _ & _ & Hl2).
  exists tb1, tb2. split; [exact H1|]. split; [exact H2|].
  intros fen board Hsome Hboard. rewrite Hl2 in Hsome.
  pose proof (terminal_entry_listed _ _ Hsome) as Hin.
  rewrite (terminal_entry_listed_board _ _ board Hin Hboard) in Hsome.
  destruct (chess.turn board) eqn:Hturn; [|reflexivity].
  destruct (Hwhite fen board Hin Hboard Hturn) as (_ & Hcm & Hsm).
  rewrite Hcm, Hsm in Hsome. now destruct Hsome.
Qed.

(** X6. Every label the loop writes is justified by the dictionary it
    read: when the body of the [while] loop labels a position at
    [current_dtm], the position had no entry, [current_dtm] is at least 1,
    and the entry holds the UCI string of a legal move whose successor FEN
    had the integer [current_dtm - 1]; with White to move no successor had a
    smaller integer, with Black to move every successor had an integer and
    none had a larger one. *)
Theorem labels_are_justified (tablebase : Tablebase) current_dtm fen tablebase' :
  TablebaseGenerator.examine tablebase current_dtm fen = Some (tablebase', true) ->
  exists board move previous,
    chess.Board_of_fen fen = Some board
    /\ tablebase !! fen = None
    /\ current_dtm = S previous
    /\ In move (chess.legal_moves board)
    /\ mate_dtm tablebase (next_fen board move) = Some previous
    /\ tablebase' = <[fen := (Mate current_dtm, Some (chess.uci move))]> tablebase
    /\ (chess.turn board = chess.WHITE ->
        forall move' dtm', In move' (chess.legal_moves board) ->
          mate_dtm tablebase (next_fen board move') = Some dtm' ->
          (previous <= dtm')%nat)
    /\ (chess.turn board = chess.BLACK ->
        forall move', In move' (chess.legal_moves board) ->
          exists dtm', mate_dtm tablebase (next_fen board move') = Some dtm'
                       /\ (dtm' <= previous)%nat).
Proof.
  intros Hex.
  destruct (examine_cases _ _ _ _ _ Hex) as [[_ ?]|(Hnone & _ & Hpos & _)];
    [discriminate|].
  destruct current_dtm as [|previous]; [lia|].
  destruct (chess.Board_of_fen fen) as [board|] eqn:Hboard.
  2:{ unfold TablebaseGenerator.examine in Hex. rewrite Hnone, Hboard in Hex.
      discriminate. }
  exists board. destruct (chess.turn board) eqn:Hturn.
  - destruct (examine_white tablebase previous fen board Hnone Hboard Hturn)
      as [((m0 & _ & _ & Hleast) & m & Hm & Hdtm & Hrun)|[_ Hrun]];
      rewrite Hrun in Hex; [|discriminate].
    apply Some_eq in Hex. injection Hex as <-.
    exists m, previous. repeat split; auto; discriminate.
  - destruct (examine_black tablebase previous fen board Hnone Hboard Hturn)
      as [(_ & Hall & Hmax & m & Hm & Hdtm & Hrun)|[_ Hrun]];
      rewrite Hrun in Hex; [|discriminate].
    apply Some_eq in Hex. injection Hex as <-.
    exists m, previous. repeat split; auto; [discriminate|].
    intros _ move' Hmove'. destruct (Hall move' Hmove') as [dtm' Hdtm'].
    exists dtm'. split; [exact Hdtm'|]. rewrite <- Hmax.
    apply max_list_elem_of_le, list_elem_of_In, In_successor_dtms. eauto.
Qed.

Lemma labels_are_justified_witness :
  exists board move previous,
    chess.Board_of_fen mate_in_one_fen = Some board
    /\ 1%nat = S previous
    /\ In move (chess.legal_moves board)
    /\ mate_dtm (<["R5k1/8/6K1/8/8/8/8/8 b - - 1 1" := (Mate 0, None)]> ∅)
         (next_fen board move) = Some previous.
Proof.
  destruct (labels_are_justified
              (<["R5k1/8/6K1/8/8/8/8/8 b - - 1 1" := (Mate 0, None)]> ∅)
              1 mate_in_one_fen
              (<[mate_in_one_fen := (Mate 1, Some "a1a8")]>
                 (<["R5k1/8/6K1/8/8/8/8/8 b - - 1 1" := (Mate 0, None)]> ∅)))
    as (board & move & previous & Hboard & _ & Hd & Hmove & Hdtm & _).
  - vm_compute. reflexivity.
  - exists board, move, previous. auto.
Defined.

(** X7. At the step with [current_dtm = d + 1], a position with White to
    move that has no entry yet is labelled if and only if the least integer
    [dtm] among the entries of its successor FENs is [d]; the entry is then
    [(d + 1, move)] for a legal move whose successor FEN has the integer
    [d].  A successor with a smaller integer prevents the label. *)
Theorem white_rule_as_coded (tablebase : Tablebase) d fen board :
  tablebase !! fen = None ->
  chess.Board_of_fen fen = Some board ->
  chess.turn board = chess.WHITE ->
  let moves := chess.legal_moves board in
  let least :=
    exists m, In m moves
      /\ mate_dtm tablebase (next_fen board m) = Some d
      /\ forall m' d', In m' moves ->
           mate_dtm tablebase (next_fen board m') = Some d' -> (d <= d')%nat in
  ((exists tablebase',
      TablebaseGenerator.examine tablebase (S d) fen = Some (tablebase', true))
   <-> least)
  /\ (least ->
      exists m, In m moves
        /\ mate_dtm tablebase (next_fen board m) = Some d
        /\ TablebaseGenerator.examine tablebase (S d) fen
           = Some (<[fen := (Mate (S d), Some (chess.uci m))]> tablebase, true))
  /\ (~ least ->
      TablebaseGenerator.examine tablebase (S d) fen = Some (tablebase, false)).
Proof.
  intros Hnone Hboard Hturn moves least. subst least moves.
  destruct (examine_white tablebase d fen board Hnone Hboard Hturn)
    as [(Hleast & m & Hm & Hdtm & Hrun)|[Hnot Hrun]].
  - split; [split; [intros _; exact Hleast|intros _; eauto]|].
    split; [intros _; eauto|]. intros Hnot. contradiction.
  - split; [split; [|intros Hleast; contradiction]|].
    + intros [tablebase' Hrun']. rewrite Hrun in Hrun'. discriminate.
    + split; [intros Hleast; contradiction|]. intros _. exact Hrun.
Qed.

Lemma white_rule_as_coded_witness :
  exists m,
    In m (chess.legal_moves mate_in_one_board)
    /\ TablebaseGenerator.examine
         (<["R5k1/8/6K1/8/8/8/8/8 b - - 1 1" := (Mate 0, None)]> ∅) 1 mate_in_one_fen
       = Some (<[mate_in_one_fen := (Mate 1, Some (chess.uci m))]>
                 (<["R5k1/8/6K1/8/8/8/8/8 b - - 1 1" := (Mate 0, None)]> ∅), true).
Proof.
  destruct (white_rule_as_coded
              (<["R5k1/8/6K1/8/8/8/8/8 b - - 1 1" := (Mate 0, None)]> ∅)
              0%nat mate_in_one_fen mate_in_one_board)
    as (_ & Hlabel & _).
  - vm_compute. reflexivity.
  - exact (krk_position_parse _ _ mate_in_one_position).
  - reflexivity.
  - destruct Hlabel as (m & Hm & _ & Hrun).
    + exists rook_a1a8. split; [exact rook_a1a8_legal|].
      split; [vm_compute; reflexivity|]. intros m' d' _ _. lia.
    + exists m. split; [exact Hm|exact Hrun].
Defined.

Lemma sum_counts_insert (counts : gmap nat nat) d n :
  counts !! d = None ->
  sum_counts (<[d := n]> counts) = (n + sum_counts counts)%nat.
Proof.
  intros Hd. unfold sum_counts.
  apply (map_fold_insert_L (fun _ (n : nat) (sum : nat) => (n + sum)%nat));
    [|exact Hd].
  intros; lia.
Qed.

Lemma sum_counts_bump (counts : gmap nat nat) d :
  sum_counts (<[d := S (default 0%nat (counts !! d))]> counts)
  = S (sum_counts counts).
Proof.
  destruct (counts !! d) as [n|] eqn:Hd; cbn [default].
  - rewrite <- (insert_delete_eq counts d (S n)).
    rewrite <- (insert_delete_id counts d n Hd) at 2.
    rewrite !sum_counts_insert by apply lookup_delete_eq. lia.
  - now rewrite sum_counts_insert by exact Hd.
Qed.

Lemma count_step_bump (counts : gmap nat nat) d :
  <[d := S (default 0%nat
              (match counts !! d with
               | Some _ => counts
               | None => <[d := 0%nat]> counts
               end !! d))]>
    match counts !! d with
    | Some _ => counts
    | None => <[d := 0%nat]> counts
    end
  = <[d := S (default 0%nat (counts !! d))]> counts.
Proof.
  destruct (counts !! d) as [n|] eqn:Hd.
  - now rewrite Hd.
  - rewrite lookup_insert_eq. cbn [default]. apply insert_insert_eq.
Qed.

Lemma count_draws_insert (tablebase : Tablebase) fen entry :
  tablebase !! fen = None ->
  TablebaseGenerator.count_draws (<[fen := entry]> tablebase)
  = match fst entry with
    | DRAW => S (TablebaseGenerator.count_draws tablebase)
    | Mate _ => TablebaseGenerator.count_draws tablebase
    end.
Proof.
  intros Hfen. unfold TablebaseGenerator.count_draws.
  apply (map_fold_insert_L
           (fun _ (entry : Entry) (draws : nat) =>
              match fst entry with DRAW => S draws | Mate _ => draws end));
    [|exact Hfen].
  intros j1 j2 [d1 m1] [d2 m2] y _ _ _. cbn [fst]. now destruct d1, d2.
Qed.

(** X8. The numbers of [_print_statistics] add up: the counts of the DTM
    distribution sum to [mates], which is [total - draws] and is not
    negative; [dtm_counts] has a key for a value [d] exactly when some entry
    holds the integer [d], every count is at least 1, and no key exceeds
    [max_dtm]. *)
Theorem statistics_add_up (tablebase : Tablebase) :
  let statistics := TablebaseGenerator._print_statistics tablebase in
  Z.of_nat (sum_counts (TablebaseGenerator.dtm_counts statistics))
  = TablebaseGenerator.mates statistics
  /\ (TablebaseGenerator.draws statistics <= TablebaseGenerator.total statistics)%nat
  /\ (forall d, is_Some (TablebaseGenerator.dtm_counts statistics !! d)
                <-> exists fen mv, tablebase !! fen = Some (Mate d, mv))
  /\ (forall d n, TablebaseGenerator.dtm_counts statistics !! d = Some n ->
                  (1 <= n)%nat /\ (d <= TablebaseGenerator.maximum_dtm statistics)%nat).
Proof.
  cbv zeta. unfold TablebaseGenerator._print_statistics. cbv zeta.
  cbn [TablebaseGenerator.dtm_counts TablebaseGenerator.mates
       TablebaseGenerator.draws TablebaseGenerator.total
       TablebaseGenerator.maximum_dtm].
  assert (Hinv :
    (sum_counts (TablebaseGenerator.count_dtms tablebase)
     + TablebaseGenerator.count_draws tablebase = size tablebase)%nat
    /\ (forall d, is_Some (TablebaseGenerator.count_dtms tablebase !! d)
                  <-> exists fen mv, tablebase !! fen = Some (Mate d, mv))
    /\ (forall d n, TablebaseGenerator.count_dtms tablebase !! d = Some n ->
                    (1 <= n)%nat)).
  { unfold TablebaseGenerator.count_dtms.
    apply (map_fold_weak_ind
             (fun (counts : gmap nat nat) (m : Tablebase) =>
                (sum_counts counts + TablebaseGenerator.count_draws m = size m)%nat
                /\ (forall d, is_Some (counts !! d)
                              <-> exists fen mv, m !! fen = Some (Mate d, mv))
                /\ (forall d n, counts !! d = Some n -> (1 <= n)%nat))).
    - split; [reflexivity|]. split.
      + intros d. rewrite lookup_empty. split; [intros [? ?]; discriminate|].
        intros (fen & mv & H). rewrite lookup_empty in H. discriminate.
      + intros d n. rewrite lookup_empty. discriminate.
    - intros fen [dtm mv] m counts Hfen (Hsum & Hkeys & Hpos).
      rewrite (count_draws_insert _ _ _ Hfen), map_size_insert_None by exact Hfen.
      cbn [fst]. destruct dtm as [d0|].
      + cbv zeta. rewrite count_step_bump, sum_counts_bump.
        split; [lia|]. split.
        * intros d. destruct (decide (d = d0)) as [->|Hne].
          -- rewrite lookup_insert_eq. split; [intros _|eauto].
             exists fen, mv. apply lookup_insert_eq.
          -- rewrite lookup_insert_ne by congruence. rewrite Hkeys. split.
             ++ intros (fen' & mv' & H). exists fen', mv'.
                rewrite lookup_insert_ne; [exact H|]. intros <-. congruence.
             ++ intros (fen' & mv' & H). destruct (decide (fen' = fen)) as [->|Hf].
                ** rewrite lookup_insert_eq in H. congruence.
                ** rewrite lookup_insert_ne in H by congruence. eauto.
        * intros d n. destruct (decide (d = d0)) as [->|Hne].
          -- rewrite lookup_insert_eq. intros [= <-]. lia.
          -- rewrite lookup_insert_ne by congruence. apply Hpos.
      + split; [lia|]. split; [|exact Hpos].
        intros d. rewrite Hkeys. split.
        * intros (fen' & mv' & H). exists fen', mv'.
          rewrite lookup_insert_ne; [exact H|]. intros <-. congruence.
        * intros (fen' & mv' & H). destruct (decide (fen' = fen)) as [->|Hf].
          -- rewrite lookup_insert_eq in H. discriminate.
          -- rewrite lookup_insert_ne in H by congruence. eauto. }
  destruct Hinv as (Hsum & Hkeys & Hpos).
  split; [lia|]. split; [lia|]. split; [exact Hkeys|].
  intros d n Hd. split; [exact (Hpos _ _ Hd)|].
  destruct (proj1 (Hkeys d)) as (fen & mv & Hfen); [eauto|].
  exact (max_dtm_bound _ _ _ _ Hfen).
Qed.


(** ** The optimized generator and the window that reads its tablebase *)

(** X9. The terminal step of the optimized generator stores what steps 2
    and 3 of the fixed generator store: for lists with the same positions,
    [if board.is_checkmate() ... elif board.is_stalemate() ...] in one loop
    and the two separate loops return the same dictionary, whatever the
    order of the positions. *)
Theorem terminal_steps_agree positions order :
  readable positions ->
  (forall fen, In fen order <-> In fen positions) ->
  exists tablebase1 tablebase,
    TablebaseGenerator.find_checkmates positions ∅ = Some tablebase1
    /\ TablebaseGenerator.find_stalemates positions tablebase1 = Some tablebase
    /\ OptimizedTablebaseGenerator.find_terminals order ∅ = Some tablebase.
Proof.
  intros Hread Hsame.
  assert (Hread' : readable order).
  { intros fen Hfen. apply Hread. now apply Hsame. }
  destruct (terminal_loops positions Hread) as (tb1 & tb2 & H1 & H2 & _ & _ & Hl2).
  destruct (find_terminals_spec order ∅ Hread') as (tb & Hterm & Hl).
  exists tb1, tb2. split; [exact H1|]. split; [exact H2|].
  rewrite Hterm. f_equal. apply map_eq. intros fen.
  rewrite Hl, Hl2, lookup_empty. unfold terminal_entry.
  assert (E : bool_decide (fen ∈ order) = bool_decide (fen ∈ positions)).
  { apply bool_decide_ext. rewrite !list_elem_of_In. apply Hsame. }
  rewrite E. clear E. destruct (chess.Board_of_fen fen) as [board|];
    [|destruct (bool_decide (fen ∈ positions)); reflexivity].
  destruct (bool_decide (fen ∈ positions)); [|reflexivity]. cbn [andb].
  destruct (chess.is_checkmate board); [reflexivity|].
  now destruct (chess.is_stalemate board).
Qed.

Lemma terminal_steps_agree_witness :
  exists tablebase1 tablebase,
    TablebaseGenerator.find_checkmates [cornered_fen; back_rank_fen] ∅
    = Some tablebase1
    /\ TablebaseGenerator.find_stalemates [cornered_fen; back_rank_fen] tablebase1
       = Some tablebase
    /\ OptimizedTablebaseGenerator.find_terminals [back_rank_fen; cornered_fen] ∅
       = Some tablebase.
Proof.
  apply terminal_steps_agree.
  - intros fen [<-|[<-|[]]].
    + rewrite (krk_position_parse _ _ cornered_position). eauto.
    + rewrite (krk_position_parse _ _ back_rank_position). eauto.
  - intros fen. cbn [In]. tauto.
Defined.








Lemma uci_truthy_string m : negb (String.eqb (chess.uci m) "") = true.
Proof. exact (uci_truthy m). Qed.

Lemma from_uci_uci m :
  0 <= chess.from_square m < 64 -> 0 <= chess.to_square m < 64 ->
  chess.from_square m <> chess.to_square m ->
  chess.from_uci (chess.uci m) = Some (chess.Plain m).
Proof.
  intros Hfrom Hto Hne.
  pose (read_back := fun a b =>
          (a =? b)
          || match chess.from_uci (chess.uci (chess.mkMove a b)) with
             | Some (chess.Plain m') => chess.Move_eqb m' (chess.mkMove a b)
             | _ => false
             end).
  assert (Hall : forallb (fun a => forallb (read_back a) range64) range64 = true)
    by (vm_compute; reflexivity).
  pose proof (forallb_range64_2 read_back Hall _ _ Hfrom Hto) as Hm.
  unfold read_back in Hm. clear Hall read_back.
  apply orb_true_iff in Hm as [Hm|Hm]; [apply Z.eqb_eq in Hm; contradiction|].
  destruct m as [a b]. cbn [chess.from_square chess.to_square] in *.
  destruct (chess.from_uci (chess.uci (chess.mkMove a b))) as [[m'|]|];
    try discriminate.
  apply Move_eqb_eq in Hm. now subst.
Qed.

Lemma legal_move_squares b m :
  well_formed b -> In m (chess.legal_moves b) ->
  0 <= chess.from_square m < 64 /\ 0 <= chess.to_square m < 64
  /\ chess.from_square m <> chess.to_square m.
Proof.
  intros Hwf Hm. destruct (legal_moves_plausible _ _ Hwf Hm) as (Hown & Hto & Hfree).
  split; [exact (occupied_co_on_board _ _ _ Hwf Hown)|]. split; [exact Hto|].
  intros Heq. rewrite Heq in Hown. congruence.
Qed.

Lemma iteration_order_listed order :
  OptimizedTablebaseGenerator.iteration_order
    OptimizedTablebaseGenerator._generate_all_positions order ->
  readable order /\ successors_outside order.
Proof.
  intros [_ Horder].
  assert (Hsame : forall fen,
            In fen order <-> In fen TablebaseGenerator._generate_all_positions).
  { intros fen. rewrite <- optimized_positions, <- Horder.
    symmetry. apply list_elem_of_In. }
  split.
  - intros fen Hfen. apply all_positions_readable. now apply Hsame.
  - intros fen board m Hfen Hboard Hm Hnext.
    apply Hsame in Hfen, Hnext.
    exact (all_positions_closed _ _ _ Hfen Hboard Hm Hnext).
Qed.

Lemma expected_entry_no_move positions fen dtm best_move :
  expected_entry positions fen = Some (dtm, best_move) -> best_move = None.
Proof.
  unfold expected_entry. destruct (bool_decide _); [|discriminate].
  destruct (chess.Board_of_fen fen) as [board|]; [|discriminate].
  destruct (chess.is_checkmate board); now intros [= _ <-].
Qed.

(** X12. With the tablebase [generate_tablebase_simple()] builds, the window
    never shows or plays a move: [query] returns no best move for any FEN,
    so [play_best_move()] answers [False] and leaves the board alone (which
    ends auto-play), and [update_best_move_highlight()] leaves no square
    highlighted. *)
Theorem solver_never_plays order :
  OptimizedTablebaseGenerator.iteration_order
    OptimizedTablebaseGenerator._generate_all_positions order ->
  exists tablebase,
    OptimizedTablebaseGenerator.generate_tablebase_simple order ∅ = Some tablebase
    /\ (forall fen, snd (OptimizedTablebaseGenerator.query tablebase fen) = None)
    /\ forall self,
         ChessEndgameSolver.tablebase self = tablebase ->
         ChessEndgameSolver.play_best_move self = Some (false, self)
         /\ ChessEndgameSolver.update_best_move_highlight self
            = Some (ChessEndgameSolver.with_best_move_squares self []).
Proof.
  intros Horder. destruct (iteration_order_listed order Horder) as [Hread Hclosed].
  destruct (generate_tablebase_simple_spec order Hread Hclosed)
    as (tablebase & Hgen & Hfinal).
  exists tablebase. split; [exact Hgen|].
  assert (Hquery : forall fen,
            snd (OptimizedTablebaseGenerator.query tablebase fen) = None).
  { intros fen. unfold OptimizedTablebaseGenerator.query.
    destruct (tablebase !! fen) as [[dtm best_move]|] eqn:Hfen; [|reflexivity].
    rewrite Hfinal in Hfen. cbn [snd].
    exact (expected_entry_no_move _ _ _ _ Hfen). }
  split; [exact Hquery|]. intros self <-. split.
  - unfold ChessEndgameSolver.play_best_move. cbv zeta.
    specialize (Hquery (chess.fen (chess.position (ChessEndgameSolver.board self)))).
    destruct (OptimizedTablebaseGenerator.query _ _) as [dtm best_move].
    cbn [snd] in Hquery. now rewrite Hquery.
  - unfold ChessEndgameSolver.update_best_move_highlight. cbv zeta.
    cbn [ChessEndgameSolver.setup_mode ChessEndgameSolver.board
         ChessEndgameSolver.tablebase ChessEndgameSolver.with_best_move_squares].
    destruct (negb _); [|reflexivity].
    specialize (Hquery (chess.fen (chess.position (ChessEndgameSolver.board self)))).
    destruct (OptimizedTablebaseGenerator.query _ _) as [dtm best_move].
    cbn [snd] in Hquery. now rewrite Hquery.
Qed.

Lemma solver_never_plays_witness :
  exists tablebase,
    OptimizedTablebaseGenerator.generate_tablebase_simple
      (elements OptimizedTablebaseGenerator._generate_all_positions) ∅
    = Some tablebase
    /\ forall fen, snd (OptimizedTablebaseGenerator.query tablebase fen) = None.
Proof.
  destruct (solver_never_plays
              (elements OptimizedTablebaseGenerator._generate_all_positions))
    as (tablebase & Hgen & Hquery & _).
  - split; [apply NoDup_elements|]. intros fen. apply elem_of_elements.
  - exists tablebase. split; [exact Hgen|exact Hquery].
Defined.

(** X13. [play_best_move()] plays the stored move or nothing.  On a board of
    the fragment, an answer [True] means that the tablebase holds a move for
    the FEN of the board, that this move is legal and that it was pushed on
    the board; an answer [False] leaves the object unchanged.  Conversely a
    stored move that is the UCI string of a legal move is read back by
    [Move.from_uci] and played. *)
Theorem play_best_move_plays_stored_move self :
  well_formed (chess.position (ChessEndgameSolver.board self)) ->
  let position := chess.position (ChessEndgameSolver.board self) in
  let stored :=
    snd (OptimizedTablebaseGenerator.query (ChessEndgameSolver.tablebase self)
           (chess.fen position)) in
  (forall answer self',
     ChessEndgameSolver.play_best_move self = Some (answer, self') ->
     (answer = false -> self' = self)
     /\ (answer = true ->
         exists uci move,
           stored = Some uci
           /\ chess.from_uci uci = Some (chess.Plain move)
           /\ In move (chess.legal_moves position)
           /\ ChessEndgameSolver.board self'
              = chess.Game_push (ChessEndgameSolver.board self) move
           /\ ChessEndgameSolver.tablebase self' = ChessEndgameSolver.tablebase self))
  /\ (forall move,
        In move (chess.legal_moves position) ->
        stored = Some (chess.uci move) ->
        chess.from_uci (chess.uci move) = Some (chess.Plain move)
        /\ ChessEndgameSolver.play_best_move self
           = match ChessEndgameSolver.update_best_move_highlight
                     (ChessEndgameSolver.with_board self
                        (chess.Game_push (ChessEndgameSolver.board self) move)) with
             | Some self' => Some (true, self')
             | None => None
             end).
Proof.
  intros Hwf position stored. subst stored position.
  unfold ChessEndgameSolver.play_best_move. cbv zeta.
  destruct (OptimizedTablebaseGenerator.query _ _) as [dtm best_move]. cbn [snd].
  split.
  - intros answer self' Hplay.
    destruct best_move as [uci|]; [|injection Hplay as <- <-; split; [auto|discriminate]].
    destruct (negb (uci =? "")%string);
      [|injection Hplay as <- <-; split; [auto|discriminate]].
    destruct (chess.from_uci uci) as [[move|]|] eqn:Huci;
      [|injection Hplay as <- <-; split; [auto|discriminate]|discriminate].
    destruct (chess.is_legal _ move) eqn:Hlegal;
      [|injection Hplay as <- <-; split; [auto|discriminate]].
    destruct (ChessEndgameSolver.update_best_move_highlight _) as [self''|] eqn:Hup;
      [|discriminate].
    injection Hplay as <- <-. split; [discriminate|]. intros _.
    exists uci, move. split; [reflexivity|]. split; [exact Huci|].
    split; [now apply is_legal_spec|].
    unfold ChessEndgameSolver.update_best_move_highlight in Hup. cbv zeta in Hup.
    destruct (negb _) in Hup; [|now injection Hup as <-].
    destruct (OptimizedTablebaseGenerator.query _ _) as [dtm' best_move'] in Hup.
    destruct best_move' as [uci'|]; [|now injection Hup as <-].
    destruct (negb (uci' =? "")%string) in Hup; [|now injection Hup as <-].
    destruct (chess.parse_square (substring 0 2 uci')) in Hup; [|discriminate].
    destruct (chess.parse_square (substring 2 2 uci')) in Hup; [|discriminate].
    now injection Hup as <-.
  - intros move Hmove [= ->].
    destruct (legal_move_squares _ _ Hwf Hmove) as (Hfrom & Hto & Hne).
    split; [now apply from_uci_uci|].
    rewrite uci_truthy_string, (from_uci_uci _ Hfrom Hto Hne).
    now rewrite (proj2 (is_legal_spec _ _ Hwf) Hmove).
Qed.

Lemma play_best_move_plays_stored_move_witness :
  exists self',
    ChessEndgameSolver.play_best_move solver_at_mate_in_one = Some (true, self').
Proof.
  destruct (proj2 (play_best_move_plays_stored_move solver_at_mate_in_one
                     (krk_position_well_formed _ _ mate_in_one_position))
              rook_a1a8 rook_a1a8_legal) as [_ Hplay].
  - vm_compute. reflexivity.
  - rewrite Hplay. vm_compute. eexists. reflexivity.
Defined.


(** ** The engine behind the board window *)

Lemma In_engine_positions_at_iff wk wr bk fen :
  0 <= wk < 64 -> 0 <= bk < 64 ->
  In fen (ChessEngine.positions_at wk wr bk)
  <-> (wk <> wr /\ wk <> bk /\ wr <> bk)
      /\ kings_adjacent wk bk = false
      /\ exists t, fen = chess.fen (krk_board wk wr bk t)
           /\ (t = chess.WHITE ->
               chess.is_attacked_by (krk_board wk wr bk t) chess.WHITE bk = false).
Proof.
  intros Hk Hb. unfold ChessEngine.positions_at. fold (kings_adjacent wk bk).
  destruct (Z.eqb_spec wk wr) as [|Hkr];
    [|destruct (Z.eqb_spec wk bk) as [|Hkb];
      [|destruct (Z.eqb_spec wr bk) as [|Hrb]]]; cbn [orb];
    try (split; [intros []|intros ((? & ? & ?) & _); congruence]).
  destruct (kings_adjacent wk bk) eqn:Hadj;
    [split; [intros []|intros (_ & ? & _); congruence]|].
  cbn [flat_map chess.Color_eqb andb app].
  rewrite (not_attacked_by_black wk wr bk chess.BLACK) by assumption.
  destruct (chess.is_attacked_by (krk_board wk wr bk chess.WHITE) chess.WHITE bk)
    eqn:Hatt; cbn [app In]; split.
  - intros [<-|[]]. repeat split; auto. exists chess.BLACK. split; [reflexivity|discriminate].
  - intros (_ & _ & t & -> & Ht). destruct t; [|now left].
    specialize (Ht eq_refl). congruence.
  - intros [<-|[<-|[]]]; (repeat split; auto);
      [exists chess.WHITE|exists chess.BLACK]; split; auto; discriminate.
  - intros (_ & _ & t & -> & _). destruct t; auto.
Qed.

Lemma In_engine_positions fen :
  In fen ChessEngine.generate_all_krk_positions
  <-> exists wk wr bk t,
        (0 <= wk < 64 /\ 0 <= wr < 64 /\ 0 <= bk < 64)
        /\ (wk <> wr /\ wk <> bk /\ wr <> bk)
        /\ kings_adjacent wk bk = false
        /\ (t = chess.WHITE ->
            chess.is_attacked_by (krk_board wk wr bk t) chess.WHITE bk = false)
        /\ fen = chess.fen (krk_board wk wr bk t).
Proof.
  rewrite engine_positions_unfold. rewrite in_flat_map. split.
  - intros (wk & Hk & H). rewrite in_flat_map in H.
    destruct H as (wr & Hr & H). rewrite in_flat_map in H.
    destruct H as (bk & Hb & H). apply In_range64 in Hk, Hr, Hb.
    apply In_engine_positions_at_iff in H as (Hd & Hadj & t & -> & Hsafe);
      [|assumption..].
    exists wk, wr, bk, t. auto.
  - intros (wk & wr & bk & t & (Hk & Hr & Hb) & Hd & Hadj & Hsafe & ->).
    exists wk. split; [now apply In_range64|]. rewrite in_flat_map.
    exists wr. split; [now apply In_range64|]. rewrite in_flat_map.
    exists bk. split; [now apply In_range64|].
    apply In_engine_positions_at_iff; [assumption..|]. eauto 10.
Qed.

(** X14. [ChessEngine.generate_all_krk_positions] appends the position of a
    tuple of squares and a side to move if and only if the squares are
    pairwise distinct, the kings are at Chebyshev distance 2 or more and,
    when White is to move, no white piece attacks the black king.  Its test
    for a white king attacked by Black with Black to move never fires. *)
Theorem engine_enumerator_emits wk wr bk t :
  0 <= wk < 64 -> 0 <= wr < 64 -> 0 <= bk < 64 ->
  let board := krk_board wk wr bk t in
  (In (chess.fen board) ChessEngine.generate_all_krk_positions
   <-> (wk <> wr /\ wk <> bk /\ wr <> bk)
       /\ 2 <= chess.square_distance wk bk
       /\ (t = chess.WHITE -> chess.is_attacked_by board chess.WHITE bk = false))
  /\ ((wk <> wr /\ wk <> bk /\ wr <> bk) -> 2 <= chess.square_distance wk bk ->
      chess.is_attacked_by board chess.BLACK wk = false).
Proof.
  intros Hk Hr Hb board. subst board. split.
  - rewrite In_engine_positions. rewrite <- kings_apart_distance by assumption. split.
    + intros (wk' & wr' & bk' & t' & (Hk' & Hr' & Hb') & Hd & Hadj & Hsafe & Hfen).
      apply fen_inj in Hfen; [|now apply krk_board_well_formed..].
      pose proof Hd as (Hkr & Hkb & Hrb).
      rewrite (krk_board_distinct wk' wr' bk' t') in Hfen by assumption.
      apply krk_board_fields in Hfen as (-> & -> & -> & -> & _). auto.
    + intros (Hd & Hadj & Hsafe). exists wk, wr, bk, t. auto 10.
  - intros (Hkr & Hkb & Hrb) Hdist.
    apply not_attacked_by_black; try assumption.
    now apply kings_apart_distance.
Qed.

Lemma engine_enumerator_emits_witness :
  In (chess.fen (krk_board 4 0 60 chess.WHITE)) ChessEngine.generate_all_krk_positions.
Proof.
  apply (proj1 (engine_enumerator_emits 4 0 60 chess.WHITE
                  ltac:(lia) ltac:(lia) ltac:(lia))).
  split; [repeat split; lia|]. split; [vm_compute; discriminate|].
  intros _. vm_compute. reflexivity.
Defined.

(** X15. The enumeration of [ChessEngine] is contained in that of
    [TablebaseGenerator]: a FEN is in the former if and only if it is in
    the latter and is not a position with White to move whose black king is
    attacked by a white piece. *)
Theorem engine_positions_among_generator_positions fen :
  In fen ChessEngine.generate_all_krk_positions
  <-> In fen TablebaseGenerator._generate_all_positions
      /\ forall board k,
           chess.Board_of_fen fen = Some board ->
           chess.turn board = chess.WHITE -> chess.bk board = Some k ->
           chess.is_attacked_by board chess.WHITE k = false.
Proof.
  rewrite In_engine_positions, In_all_positions. split.
  - intros (wk & wr & bk & t & (Hk & Hr & Hb) & Hd & Hadj & Hsafe & ->). split.
    + exists wk, wr, bk, t. split; [auto|]. split; [|reflexivity].
      split; [exact Hd|]. split; [exact Hadj|]. intros _.
      destruct Hd as (? & ? & ?). now apply not_attacked_by_black.
    + intros board k Hboard Hturn Hbk.
      rewrite Board_of_fen_fen in Hboard by now apply krk_board_well_formed.
      apply Some_eq in Hboard. subst board.
      destruct Hd as (? & ? & ?).
      rewrite krk_board_distinct in Hturn, Hbk, Hsafe |- * by assumption.
      cbn [chess.turn chess.bk] in Hturn, Hbk. subst t.
      apply Some_eq in Hbk. subst k. now apply Hsafe.
  - intros ((wk & wr & bk & t & (Hk & Hr & Hb) & (Hd & Hadj & _) & ->) & Hsafe).
    exists wk, wr, bk, t. split; [auto|]. split; [exact Hd|]. split; [exact Hadj|].
    split; [|reflexivity]. intros ->.
    apply (Hsafe _ bk (Board_of_fen_fen _ (krk_board_well_formed _ _ _ _ Hk Hr Hb))).
    + destruct Hd as (? & ? & ?). now rewrite krk_board_distinct.
    + destruct Hd as (? & ? & ?). now rewrite krk_board_distinct.
Qed.


Lemma parse_square_name sq :
  0 <= sq < 64 -> chess.parse_square (chess.square_name sq) = Some sq.
Proof.
  intros Hsq.
  assert (H : forallb (fun s =>
                match chess.parse_square (chess.square_name s) with
                | Some s' => s' =? s
                | None => false
                end) range64 = true) by (vm_compute; reflexivity).
  rewrite forallb_forall in H. specialize (H sq (proj2 (In_range64 sq) Hsq)).
  destruct (chess.parse_square (chess.square_name sq)); [|discriminate].
  apply Z.eqb_eq in H. now subst.
Qed.



Lemma mem_SQUARES sq : 0 <= sq < 64 -> chess.mem sq chess.SQUARES = true.
Proof. intros Hsq. apply mem_In. now apply In_range64. Qed.

Lemma placed_all_squares target :
  in_range target -> placed target None chess.SQUARES = target.
Proof.
  destruct target as [s|]; [|reflexivity]. intros Hs. simpl in Hs.
  unfold placed. now rewrite mem_SQUARES.
Qed.

Lemma placed_here_cons sq previous sqs :
  placed (Some sq) (Some sq) sqs = placed (Some sq) previous (sq :: sqs).
Proof.
  rewrite placed_cons_here. unfold placed. now destruct (chess.mem sq sqs).
Qed.

Lemma fold_note_square b sqs w0 r0 k0 :
  apart (chess.wk b) (chess.wr b) ->
  apart (chess.wk b) (chess.bk b) ->
  apart (chess.wr b) (chess.bk b) ->
  fold_left (ChessEngine.note_square b) sqs (w0, r0, k0)
  = (placed (chess.wk b) w0 sqs, placed (chess.wr b) r0 sqs,
     placed (chess.bk b) k0 sqs).
Proof.
  intros Hkr Hkk Hrk. revert w0 r0 k0.
  induction sqs as [|sq sqs IH]; intros w0 r0 k0.
  - simpl. now destruct (chess.wk b), (chess.wr b), (chess.bk b).
  - cbn [fold_left]. unfold ChessEngine.note_square at 2.
    pose proof (piece_at_cases b sq) as Hcell.
    destruct (chess.piece_at b sq) as [[ | | ]|];
      cbn [chess.piece_type chess.color chess.Color_eqb]; rewrite IH.
    + rename Hcell into Ek.
      assert (Hr : chess.wr b <> Some sq)
        by (intros Hr; rewrite Ek, Hr in Hkr; now apply Hkr).
      assert (Hb : chess.bk b <> Some sq)
        by (intros Hb; rewrite Ek, Hb in Hkk; now apply Hkk).
      rewrite (placed_cons_other _ _ _ _ Hr), (placed_cons_other _ _ _ _ Hb).
      rewrite Ek. now rewrite (placed_here_cons sq w0).
    + destruct Hcell as [Ek Er].
      assert (Hb : chess.bk b <> Some sq)
        by (intros Hb; rewrite Er, Hb in Hrk; now apply Hrk).
      rewrite (placed_cons_other _ _ _ _ Ek), (placed_cons_other _ _ _ _ Hb).
      rewrite Er. now rewrite (placed_here_cons sq r0).
    + destruct Hcell as (Ek & Er & Eb).
      rewrite (placed_cons_other _ _ _ _ Ek), (placed_cons_other _ _ _ _ Er).
      rewrite Eb. now rewrite (placed_here_cons sq k0).
    + destruct Hcell as (Ek & Er & Eb).
      now rewrite (placed_cons_other _ _ _ _ Ek), (placed_cons_other _ _ _ _ Er),
        (placed_cons_other _ _ _ _ Eb).
Qed.

Lemma encode_position_well_formed self :
  well_formed (chess.position (ChessEngine.board self)) ->
  ChessEngine.encode_position self
  = (chess.wk (chess.position (ChessEngine.board self)),
     chess.wr (chess.position (ChessEngine.board self)),
     chess.bk (chess.position (ChessEngine.board self)),
     chess.turn (chess.position (ChessEngine.board self))).
Proof.
  intros [Hk Hr Hb Hkr Hkb Hrb _]. unfold ChessEngine.encode_position. cbv zeta.
  rewrite fold_note_square by assumption.
  now rewrite !placed_all_squares by assumption.
Qed.

Lemma setup_krk_endgame_names self wk wr bk :
  0 <= wk < 64 -> 0 <= wr < 64 -> 0 <= bk < 64 ->
  ChessEngine.setup_krk_endgame self
    (chess.square_name wk) (chess.square_name wr) (chess.square_name bk)
  = Some (ChessEngine.mkEngine
            (chess.mkGame (krk_board wk wr bk chess.WHITE) []) []).
Proof.
  intros Hk Hr Hb. unfold ChessEngine.setup_krk_endgame.
  rewrite !parse_square_name by assumption. reflexivity.
Qed.

(** X16. [setup_krk_endgame] followed by [encode_position] gives back the
    squares: for three distinct squares named as python-chess names them,
    the engine holds the position with White to move, clocks 0 and 1 and an
    empty history, and [encode_position()] returns the three squares and
    [chess.WHITE]. *)
Theorem setup_then_encode self wk wr bk :
  0 <= wk < 64 -> 0 <= wr < 64 -> 0 <= bk < 64 ->
  wk <> wr -> wk <> bk -> wr <> bk ->
  exists self',
    ChessEngine.setup_krk_endgame self
      (chess.square_name wk) (chess.square_name wr) (chess.square_name bk)
    = Some self'
    /\ ChessEngine.encode_position self' = (Some wk, Some wr, Some bk, chess.WHITE)
    /\ ChessEngine.get_fen self' = chess.fen (krk_board wk wr bk chess.WHITE)
    /\ chess.position (ChessEngine.board self')
       = chess.mkBoard (Some wk) (Some wr) (Some bk) chess.WHITE 0 1
    /\ ChessEngine.move_history self' = []
    /\ chess.stack (ChessEngine.board self') = [].
Proof.
  intros Hk Hr Hb Hkr Hkb Hrb. eexists. split; [now apply setup_krk_endgame_names|].
  split; [|split; [reflexivity|split; [now apply krk_board_distinct|split; reflexivity]]].
  rewrite encode_position_well_formed
    by (cbn [ChessEngine.board chess.position]; now apply krk_board_well_formed).
  cbn [ChessEngine.board chess.position].
  now rewrite krk_board_distinct by assumption.
Qed.

Lemma setup_then_encode_witness :
  exists self',
    ChessEngine.setup_krk_endgame ChessEngine.init "e1" "a1" "e8" = Some self'
    /\ ChessEngine.encode_position self' = (Some 4, Some 0, Some 60, chess.WHITE)
    /\ ChessEngine.get_fen self' = "4k3/8/8/8/8/8/8/R3K3 w - - 0 1".
Proof.
  destruct (setup_then_encode ChessEngine.init 4 0 60)
    as (self' & Hsetup & Hencode & Hfen & _); try lia.
  exists self'. split; [exact Hsetup|]. split; [exact Hencode|].
  rewrite Hfen. vm_compute. reflexivity.
Defined.

Lemma square_coordinates sq :
  0 <= sq < 64 ->
  0 <= 7 - chess.square_rank sq < 8 /\ 0 <= chess.square_file sq < 8
  /\ chess.square (chess.square_file sq) (chess.square_rank sq) = sq.
Proof.
  intros Hsq.
  assert (H : forallb (fun s =>
                (0 <=? 7 - chess.square_rank s) && (7 - chess.square_rank s <? 8)
                && (0 <=? chess.square_file s) && (chess.square_file s <? 8)
                && (chess.square (chess.square_file s) (chess.square_rank s) =? s))
              range64 = true) by (vm_compute; reflexivity).
  rewrite forallb_forall in H. specialize (H sq (proj2 (In_range64 sq) Hsq)).
  rewrite !andb_true_iff in H. destruct H as ((((? & ?) & ?) & ?) & ?). lia.
Qed.

Lemma coordinates_square col rank :
  0 <= col < 8 -> 0 <= rank < 8 ->
  0 <= chess.square col rank < 64
  /\ chess.square_file (chess.square col rank) = col
  /\ chess.square_rank (chess.square col rank) = rank.
Proof.
  intros Hc Hr.
  assert (H : forallb (fun c => forallb (fun r =>
                (0 <=? chess.square c r) && (chess.square c r <? 64)
                && (chess.square_file (chess.square c r) =? c)
                && (chess.square_rank (chess.square c r) =? r))
              (seqZ 0 8)) (seqZ 0 8) = true) by (vm_compute; reflexivity).
  rewrite forallb_forall in H.
  assert (Hin : forall x, 0 <= x < 8 -> In x (seqZ 0 8)).
  { intros x Hx. apply list_elem_of_In, elem_of_seqZ. lia. }
  specialize (H col (Hin col Hc)). rewrite forallb_forall in H.
  specialize (H rank (Hin rank Hr)).
  rewrite !andb_true_iff in H. destruct H as (((? & ?) & ?) & ?). lia.
Qed.

Lemma cell_at_show_square b board_array sq r c :
  0 <= sq < 64 ->
  cell_at (ChessEngine.show_square b board_array sq) r c
  = if decide (r = Z.to_nat (7 - chess.square_rank sq)
               /\ c = Z.to_nat (chess.square_file sq))
    then match chess.piece_at b sq, cell_at board_array r c with
         | Some piece, Some _ => Some (Some (ChessEngine.shown piece))
         | _, old => old
         end
    else cell_at board_array r c.
Proof.
  intros Hsq. unfold ChessEngine.show_square, cell_at.
  destruct (chess.piece_at b sq) as [piece|]; cbv zeta.
  - destruct (decide _) as [[-> ->]|Hne].
    + rewrite list_lookup_alter_eq.
      destruct (board_array !! _) as [cells|]; cbn [fmap option_fmap option_map mbind option_bind];
        [|reflexivity].
      destruct (cells !! _) as [old|] eqn:Hold.
      * apply list_lookup_insert_eq. now apply lookup_lt_Some in Hold.
      * apply lookup_ge_None. rewrite length_insert. now apply lookup_ge_None.
    + destruct (decide (r = Z.to_nat (7 - chess.square_rank sq))) as [->|Hr].
      * rewrite list_lookup_alter_eq.
        destruct (board_array !! _) as [cells|]; cbn [fmap option_fmap option_map mbind option_bind];
          [|reflexivity].
        apply list_lookup_insert_ne. intros <-. now apply Hne.
      * now rewrite list_lookup_alter_ne by congruence.
  - destruct (decide _); [|reflexivity]. now destruct (_ ≫= _).
Qed.

Lemma fold_show_square b sqs board_array r c :
  (forall sq, In sq sqs -> 0 <= sq < 64) ->
  (r < 8)%nat -> (c < 8)%nat ->
  cell_at board_array r c = Some None ->
  cell_at (fold_left (ChessEngine.show_square b) (rev sqs) board_array) r c
  = Some (if chess.mem (chess.square (Z.of_nat c) (7 - Z.of_nat r)) sqs
          then ChessEngine.shown <$> chess.piece_at b (chess.square (Z.of_nat c) (7 - Z.of_nat r))
          else None).
Proof.
  intros Hsqs Hr Hc Hempty. induction sqs as [|sq sqs IH]; [exact Hempty|].
  cbn [rev]. rewrite fold_left_app. cbn [fold_left].
  assert (Hsq : 0 <= sq < 64) by (apply Hsqs; now left).
  rewrite cell_at_show_square by exact Hsq.
  rewrite IH by (intros sq' Hsq'; apply Hsqs; now right).
  destruct (square_coordinates sq Hsq) as (Hrow & Hcol & Hback).
  destruct (coordinates_square (Z.of_nat c) (7 - Z.of_nat r)) as (_ & Hfile & Hrank);
    [lia..|].
  cbn [chess.mem existsb].
  set (target := chess.square (Z.of_nat c) (7 - Z.of_nat r)) in *.
  destruct (Z.eqb_spec target sq) as [Heq|Hdiff].
  - rewrite decide_True by (rewrite <- Heq, Hfile, Hrank; lia).
    cbn [orb]. rewrite Heq.
    destruct (chess.piece_at b sq); [reflexivity|].
    now destruct (chess.mem sq sqs).
  - rewrite decide_False; [reflexivity|]. intros [Er Ec]. apply Hdiff.
    unfold target. rewrite Er, Ec, !Z2Nat.id by lia.
    replace (7 - (7 - chess.square_rank sq)) with (chess.square_rank sq) by lia.
    exact Hback.
Qed.

Lemma length_show_square b board_array sq :
  length (ChessEngine.show_square b board_array sq) = length board_array.
Proof.
  unfold ChessEngine.show_square. destruct (chess.piece_at b sq); [|reflexivity].
  cbv zeta. apply length_alter.
Qed.

Lemma rows_show_square b board_array sq :
  Forall (fun cells => length cells = 8%nat) board_array ->
  Forall (fun cells => length cells = 8%nat) (ChessEngine.show_square b board_array sq).
Proof.
  intros Hrows. unfold ChessEngine.show_square.
  destruct (chess.piece_at b sq); [|exact Hrows]. cbv zeta.
  apply Forall_alter; [exact Hrows|]. intros cells _ Hlen. now rewrite length_insert.
Qed.

Lemma fold_show_square_shape b sqs board_array :
  length board_array = 8%nat ->
  Forall (fun cells => length cells = 8%nat) board_array ->
  length (fold_left (ChessEngine.show_square b) sqs board_array) = 8%nat
  /\ Forall (fun cells => length cells = 8%nat)
       (fold_left (ChessEngine.show_square b) sqs board_array).
Proof.
  revert board_array. induction sqs as [|sq sqs IH]; intros board_array Hlen Hrows;
    [auto|].
  cbn [fold_left]. apply IH; [now rewrite length_show_square|now apply rows_show_square].
Qed.

Lemma rev_SQUARES_range sq : In sq (rev chess.SQUARES) <-> 0 <= sq < 64.
Proof. rewrite <- in_rev. apply In_range64. Qed.

Lemma replicate_cells r c :
  (r < 8)%nat -> (c < 8)%nat ->
  cell_at (replicate 8 (replicate 8 None)) r c = Some None.
Proof.
  intros Hr Hc. unfold cell_at.
  rewrite (lookup_replicate_2 8 _ r Hr). cbn [mbind option_bind].
  now rewrite (lookup_replicate_2 8 _ c Hc).
Qed.

Lemma get_board_array_unfold self :
  ChessEngine.get_board_array self
  = fold_left (ChessEngine.show_square (chess.position (ChessEngine.board self)))
      chess.SQUARES (replicate 8 (replicate 8 None)).
Proof. reflexivity. Qed.

Lemma board_array_cells b r c :
  (r < 8)%nat -> (c < 8)%nat ->
  cell_at (fold_left (ChessEngine.show_square b) chess.SQUARES
             (replicate 8 (replicate 8 None))) r c
  = Some (ChessEngine.shown
            <$> chess.piece_at b (chess.square (Z.of_nat c) (7 - Z.of_nat r))).
Proof.
  intros Hr Hc.
  pose proof (fold_show_square b (rev chess.SQUARES)
                (replicate 8 (replicate 8 None)) r c) as H.
  rewrite rev_involutive in H. rewrite H; clear H.
  - destruct (coordinates_square (Z.of_nat c) (7 - Z.of_nat r)) as (Hsq & _);
      [lia..|].
    rewrite (proj2 (mem_In _ _) (proj2 (rev_SQUARES_range _) Hsq)). reflexivity.
  - intros sq Hsq. apply rev_SQUARES_range. exact Hsq.
  - exact Hr.
  - exact Hc.
  - apply replicate_cells; [exact Hr|exact Hc].
Qed.

Lemma board_array_shape b :
  length (fold_left (ChessEngine.show_square b) chess.SQUARES
            (replicate 8 (replicate 8 None))) = 8%nat
  /\ Forall (fun cells => length cells = 8%nat)
       (fold_left (ChessEngine.show_square b) chess.SQUARES
          (replicate 8 (replicate 8 None))).
Proof. apply fold_show_square_shape; [reflexivity|repeat constructor]. Qed.

(** X17. [get_board_array()] and [get_piece_at(row, col)] agree: the array
    has eight rows of eight cells and, for every row and column of the
    board, [board_array[row][col]] is what [get_piece_at(row, col)]
    returns. *)
Theorem board_array_shows_pieces self :
  length (ChessEngine.get_board_array self) = 8%nat
  /\ (forall cells, In cells (ChessEngine.get_board_array self) -> length cells = 8%nat)
  /\ forall row col, 0 <= row < 8 -> 0 <= col < 8 ->
       ChessEngine.get_board_array self !! Z.to_nat row
         ≫= (fun cells => cells !! Z.to_nat col)
       = Some (ChessEngine.get_piece_at self row col).
Proof.
  rewrite get_board_array_unfold.
  pose proof (board_array_shape (chess.position (ChessEngine.board self)))
    as [Hlen Hrows].
  pose proof (board_array_cells (chess.position (ChessEngine.board self))) as Hcells.
  revert Hlen Hrows Hcells.
  generalize (fold_left (ChessEngine.show_square (chess.position (ChessEngine.board self)))
                chess.SQUARES (replicate 8 (replicate 8 None))).
  intros board_array Hlen Hrows Hcells.
  split; [exact Hlen|]. split.
  { intros cells Hcells'. rewrite Forall_forall in Hrows. exact (Hrows _ Hcells'). }
  intros row col Hrow Hcol.
  specialize (Hcells (Z.to_nat row) (Z.to_nat col)). unfold cell_at in Hcells.
  rewrite Hcells by lia. rewrite !Z2Nat.id by lia.
  unfold ChessEngine.get_piece_at. cbv zeta.
  destruct (chess.piece_at _ (chess.square col (7 - row))); reflexivity.
Qed.










Lemma In_legal_destinations self row col to_row to_col :
  In (to_row, to_col) (ChessEngine.get_legal_moves_from_square self row col)
  <-> exists move,
        In move (chess.legal_moves (chess.position (ChessEngine.board self)))
        /\ chess.from_square move = chess.square col (7 - row)
        /\ 7 - chess.square_rank (chess.to_square move) = to_row
        /\ chess.square_file (chess.to_square move) = to_col.
Proof.
  unfold ChessEngine.get_legal_moves_from_square. cbv zeta. rewrite in_flat_map.
  split.
  - intros (move & Hmove & Hin).
    destruct (Z.eqb_spec (chess.from_square move) (chess.square col (7 - row)))
      as [Hfrom|]; [|destruct Hin].
    destruct Hin as [[= <- <-]|[]]. exists move. auto.
  - intros (move & Hmove & Hfrom & <- & <-). exists move. split; [exact Hmove|].
    rewrite Hfrom, Z.eqb_refl. now left.
Qed.

Lemma make_move_unfold self from_row from_col to_row to_col :
  ChessEngine.make_move self from_row from_col to_row to_col
  = let move := chess.mkMove (chess.square from_col (7 - from_row))
                             (chess.square to_col (7 - to_row)) in
    if chess.is_legal (chess.position (ChessEngine.board self)) move then
      (true, ChessEngine.mkEngine (chess.Game_push (ChessEngine.board self) move)
               (ChessEngine.move_history self ++ [move]))
    else (false, self).
Proof. reflexivity. Qed.

(** X18. [make_move] accepts exactly the destinations that
    [get_legal_moves_from_square] lists for the origin: on a board of the
    fragment and for coordinates of the board it answers [True] if and only
    if [(to_row, to_col)] is in that list.  It then pushes the move, a legal
    move of the position, on the board and appends it to the history; when it
    answers [False] the object is unchanged. *)
Theorem make_move_iff_listed self from_row from_col to_row to_col :
  well_formed (chess.position (ChessEngine.board self)) ->
  0 <= from_row < 8 -> 0 <= from_col < 8 -> 0 <= to_row < 8 -> 0 <= to_col < 8 ->
  let move := chess.mkMove (chess.square from_col (7 - from_row))
                           (chess.square to_col (7 - to_row)) in
  let result := ChessEngine.make_move self from_row from_col to_row to_col in
  (fst result = true
   <-> In (to_row, to_col)
          (ChessEngine.get_legal_moves_from_square self from_row from_col))
  /\ (fst result = true ->
      In move (chess.legal_moves (chess.position (ChessEngine.board self)))
      /\ snd result
         = ChessEngine.mkEngine (chess.Game_push (ChessEngine.board self) move)
             (ChessEngine.move_history self ++ [move]))
  /\ (fst result = false -> snd result = self).
Proof.
  intros Hwf Hfr Hfc Htr Htc move result. subst result.
  rewrite make_move_unfold. fold move. cbv zeta.
  pose proof (is_legal_spec _ move Hwf) as Hlegal.
  destruct (chess.is_legal (chess.position (ChessEngine.board self)) move) eqn:Hm;
    cbn [fst snd].
  - apply proj1 in Hlegal. specialize (Hlegal eq_refl).
    split; [|split; [auto|discriminate]]. split; [intros _|reflexivity].
    apply In_legal_destinations. exists move. split; [exact Hlegal|].
    destruct (coordinates_square to_col (7 - to_row)) as (_ & Hfile & Hrank); [lia..|].
    subst move. cbn [chess.from_square chess.to_square].
    rewrite Hfile, Hrank. repeat split; lia.
  - split; [|split; [discriminate|reflexivity]]. split; [discriminate|].
    intros Hin. apply In_legal_destinations in Hin
      as (move' & Hmove' & Hfrom & Hrow & Hcol).
    assert (move' = move); [|subst move'; apply Hlegal in Hmove'; congruence].
    destruct (legal_moves_plausible _ _ Hwf Hmove') as (_ & Hrange & _).
    destruct (square_coordinates _ Hrange) as (_ & _ & Hback).
    destruct move' as [from to]. cbn [chess.from_square chess.to_square] in *.
    subst move. f_equal; [exact Hfrom|].
    rewrite <- Hback. f_equal; lia.
Qed.

Lemma make_move_iff_listed_witness :
  fst (ChessEngine.make_move
         (ChessEngine.mkEngine (chess.mkGame (krk_board 4 0 60 chess.WHITE) []) [])
         7 0 0 0) = true
  <-> In (0, 0)
         (ChessEngine.get_legal_moves_from_square
            (ChessEngine.mkEngine (chess.mkGame (krk_board 4 0 60 chess.WHITE) []) [])
            7 0).
Proof.
  exact (proj1 (make_move_iff_listed
                  (ChessEngine.mkEngine
                     (chess.mkGame (krk_board 4 0 60 chess.WHITE) []) [])
                  7 0 0 0
                  (krk_board_well_formed 4 0 60 chess.WHITE
                     ltac:(lia) ltac:(lia) ltac:(lia))
                  ltac:(lia) ltac:(lia) ltac:(lia) ltac:(lia))).
Defined.

Lemma pop_last_app {A} (l : list A) (x : A) : chess.pop_last (l ++ [x]) = Some (l, x).
Proof.
  induction l as [|y l IH]; [reflexivity|].
  cbn [app chess.pop_last]. rewrite IH. destruct (l ++ [x])%list eqn:E; [now destruct l|reflexivity].
Qed.

(** X19. [undo_move] takes back what [make_move] did: after a call of
    [make_move] that answered [True], [undo_move] answers [True] and the
    board, its move stack and the history are those before the move. *)
Theorem make_move_then_undo self from_row from_col to_row to_col :
  fst (ChessEngine.make_move self from_row from_col to_row to_col) = true ->
  ChessEngine.undo_move
    (snd (ChessEngine.make_move self from_row from_col to_row to_col))
  = Some (true, self).
Proof.
  rewrite make_move_unfold. cbv zeta.
  destruct (chess.is_legal _ _); cbn [fst snd]; [intros _|discriminate].
  unfold ChessEngine.undo_move. cbn [ChessEngine.move_history ChessEngine.board].
  unfold chess.Game_pop, chess.Game_push. cbn [chess.stack].
  rewrite !pop_last_app.
  destruct (ChessEngine.move_history self ++ _)%list eqn:E.
  - now destruct (ChessEngine.move_history self).
  - now destruct self as [[position stack] history].
Qed.

Lemma make_move_then_undo_witness :
  ChessEngine.undo_move
    (snd (ChessEngine.make_move
            (ChessEngine.mkEngine (chess.mkGame (krk_board 4 0 60 chess.WHITE) []) [])
            7 0 0 0))
  = Some (true,
          ChessEngine.mkEngine (chess.mkGame (krk_board 4 0 60 chess.WHITE) []) []).
Proof.
  apply (make_move_then_undo
           (ChessEngine.mkEngine (chess.mkGame (krk_board 4 0 60 chess.WHITE) []) [])
           7 0 0 0).
  vm_compute. reflexivity.
Defined.








Lemma no_destinations_iff self :
  well_formed (chess.position (ChessEngine.board self)) ->
  (forall row col, 0 <= row < 8 -> 0 <= col < 8 ->
     ChessEngine.get_legal_moves_from_square self row col = [])
  <-> chess.legal_moves (chess.position (ChessEngine.board self)) = [].
Proof.
  intros Hwf. split.
  - intros Hnone.
    destruct (chess.legal_moves (chess.position (ChessEngine.board self)))
      as [|move moves] eqn:Hmoves; [reflexivity|]. exfalso.
    assert (Hmove : In move (chess.legal_moves (chess.position (ChessEngine.board self))))
      by (rewrite Hmoves; now left).
    destruct (legal_moves_plausible _ _ Hwf Hmove) as (Hown & _ & _).
    pose proof (occupied_co_on_board _ _ _ Hwf Hown) as Hrange.
    destruct (square_coordinates _ Hrange) as (Hrow & Hcol & Hback).
    assert (Hin : In (7 - chess.square_rank (chess.to_square move),
                      chess.square_file (chess.to_square move))
                     (ChessEngine.get_legal_moves_from_square self
                        (7 - chess.square_rank (chess.from_square move))
                        (chess.square_file (chess.from_square move)))).
    { apply In_legal_destinations. exists move. split; [exact Hmove|].
      split; [|auto].
      replace (7 - (7 - chess.square_rank (chess.from_square move)))
        with (chess.square_rank (chess.from_square move)) by lia.
      now rewrite Hback. }
    rewrite Hnone in Hin by assumption. destruct Hin.
  - intros Hmoves row col _ _.
    unfold ChessEngine.get_legal_moves_from_square. cbv zeta. now rewrite Hmoves.
Qed.

(** X22. [get_game_state()] and [get_legal_moves_from_square] agree: on a
    board of the fragment the state reports checkmate or stalemate exactly
    when no square of the board has a legal destination, checkmate if the
    side to move is in check and stalemate if it is not, and never both. *)
Theorem game_over_iff_no_destination self :
  well_formed (chess.position (ChessEngine.board self)) ->
  let state := ChessEngine.get_game_state self in
  let stuck :=
    forall row col, 0 <= row < 8 -> 0 <= col < 8 ->
      ChessEngine.get_legal_moves_from_square self row col = [] in
  (ChessEngine.state_is_checkmate state = true
   <-> stuck /\ ChessEngine.state_is_check state = true)
  /\ (ChessEngine.state_is_stalemate state = true
      <-> stuck /\ ChessEngine.state_is_check state = false)
  /\ (ChessEngine.state_is_checkmate state && ChessEngine.state_is_stalemate state
      = false).
Proof.
  intros Hwf state stuck. subst state stuck.
  rewrite (no_destinations_iff self Hwf).
  unfold ChessEngine.get_game_state. cbv zeta.
  cbn [ChessEngine.state_is_checkmate ChessEngine.state_is_stalemate
       ChessEngine.state_is_check].
  unfold chess.is_checkmate, chess.is_stalemate, chess.has_legal_moves.
  destruct (chess.is_check _);
    destruct (chess.legal_moves (chess.position (ChessEngine.board self)));
    cbn [negb andb]; repeat split; try discriminate; try tauto;
    intros [? ?]; discriminate.
Qed.

Lemma game_over_iff_no_destination_witness :
  ChessEngine.state_is_checkmate
    (ChessEngine.get_game_state
       (ChessEngine.mkEngine (chess.mkGame back_rank_board []) [])) = true
  <-> (forall row col, 0 <= row < 8 -> 0 <= col < 8 ->
         ChessEngine.get_legal_moves_from_square
           (ChessEngine.mkEngine (chess.mkGame back_rank_board []) []) row col = [])
      /\ ChessEngine.state_is_check
           (ChessEngine.get_game_state
              (ChessEngine.mkEngine (chess.mkGame back_rank_board []) [])) = true.
Proof.
  exact (proj1 (game_over_iff_no_destination
                  (ChessEngine.mkEngine (chess.mkGame back_rank_board []) [])
                  (krk_position_well_formed _ _ back_rank_position))).
Defined.

(** X23. [get_square_notation(row, col)] writes the python-chess name of the
    square [chess.square(col, 7 - row)] that the other methods use for the
    same row and column, and [chess.parse_square] reads it back as that
    square. *)
Theorem square_notation_names_square row col :
  0 <= row < 8 -> 0 <= col < 8 ->
  ChessEngine.get_square_notation row col
  = chess.square_name (chess.square col (7 - row))
  /\ nth (Z.to_nat (chess.square col (7 - row))) chess.SQUARE_NAMES ""
     = ChessEngine.get_square_notation row col
  /\ chess.parse_square (ChessEngine.get_square_notation row col)
     = Some (chess.square col (7 - row)).
Proof.
  intros Hrow Hcol.
  assert (H : forallb (fun r => forallb (fun c =>
                String.eqb (ChessEngine.get_square_notation r c)
                           (chess.square_name (chess.square c (7 - r)))
                && String.eqb (nth (Z.to_nat (chess.square c (7 - r)))
                                   chess.SQUARE_NAMES "")
                              (ChessEngine.get_square_notation r c))
              (seqZ 0 8)) (seqZ 0 8) = true) by (vm_compute; reflexivity).
  rewrite forallb_forall in H.
  assert (Hin : forall x, 0 <= x < 8 -> In x (seqZ 0 8)).
  { intros x Hx. apply list_elem_of_In, elem_of_seqZ. lia. }
  specialize (H row (Hin row Hrow)). rewrite forallb_forall in H.
  specialize (H col (Hin col Hcol)).
  apply andb_true_iff in H as [H1 H2].
  apply String.eqb_eq in H1, H2. split; [exact H1|]. split; [exact H2|].
  rewrite H1. apply parse_square_name.
  apply coordinates_square; lia.
Qed.

Lemma square_notation_names_square_witness :
  ChessEngine.get_square_notation 7 0 = chess.square_name (chess.square 0 (7 - 7)).
Proof.
  exact (proj1 (square_notation_names_square 7 0 ltac:(lia) ltac:(lia))).
Defined.

(** ** The click handler of [chess_UI.py] *)

Lemma listed_In row col squares :
  ChessGUI.listed row col squares = true <-> In (row, col) squares.
Proof.
  unfold ChessGUI.listed. rewrite existsb_exists. split.
  - intros ([r c] & Hin & H). cbn [fst snd] in H.
    apply andb_true_iff in H as [Hr Hc]. apply Z.eqb_eq in Hr, Hc. now subst.
  - intros Hin. exists (row, col). split; [exact Hin|]. cbn [fst snd].
    now rewrite !Z.eqb_refl.
Qed.

Lemma handle_click_unfold self x y :
  ChessGUI.handle_click self (x, y)
  = if y >=? 640 then self
    else
      let col := x / 80 in
      let row := y / 80 in
      if (0 <=? row) && (row <? 8) && (0 <=? col) && (col <? 8) then
        match ChessGUI.selected_square self with
        | Some (from_row, from_col) =>
            let self :=
              if ChessGUI.listed row col (ChessGUI.legal_moves self) then
                let '(made, engine) :=
                  ChessEngine.make_move (ChessGUI.engine self) from_row from_col row col in
                if made then
                  ChessGUI.mkGUI engine (ChessGUI.selected_square self)
                    (ChessGUI.legal_moves self)
                    (Some ((from_row, from_col), (row, col)))
                else ChessGUI.mkGUI engine (ChessGUI.selected_square self)
                       (ChessGUI.legal_moves self) (ChessGUI.last_move self)
              else self in
            ChessGUI.mkGUI (ChessGUI.engine self) None [] (ChessGUI.last_move self)
        | None =>
            let piece := ChessEngine.get_piece_at (ChessGUI.engine self) row col in
            let state := ChessEngine.get_game_state (ChessGUI.engine self) in
            match piece with
            | Some (color, _) =>
                if String.eqb color (ChessEngine.state_turn state) then
                  ChessGUI.mkGUI (ChessGUI.engine self) (Some (row, col))
                    (ChessEngine.get_legal_moves_from_square (ChessGUI.engine self) row col)
                    (ChessGUI.last_move self)
                else self
            | None => self
            end
        end
      else self.
Proof. reflexivity. Qed.

Lemma color_name_eqb c1 c2 :
  String.eqb (ChessEngine.color_name c1) (ChessEngine.color_name c2)
  = chess.Color_eqb c1 c2.
Proof. now destruct c1, c2. Qed.

Lemma pixel_square x : 0 <= x < 640 -> 0 <= x / 80 < 8.
Proof.
  intros Hx. split; [apply Z.div_pos; lia|apply Z.div_lt_upper_bound; lia].
Qed.

Lemma on_board_true row col :
  0 <= row < 8 -> 0 <= col < 8 ->
  (0 <=? row) && (row <? 8) && (0 <=? col) && (col <? 8) = true.
Proof. intros. rewrite !andb_true_iff, !Z.leb_le, !Z.ltb_lt. lia. Qed.

Lemma listed_destination_is_legal self from_row from_col to_row to_col :
  well_formed (chess.position (ChessEngine.board self)) ->
  0 <= to_row < 8 -> 0 <= to_col < 8 ->
  In (to_row, to_col) (ChessEngine.get_legal_moves_from_square self from_row from_col) ->
  chess.is_legal (chess.position (ChessEngine.board self))
    (chess.mkMove (chess.square from_col (7 - from_row))
                  (chess.square to_col (7 - to_row))) = true.
Proof.
  intros Hwf Htr Htc Hin.
  apply In_legal_destinations in Hin as (move & Hmove & Hfrom & Hrow & Hcol).
  apply (is_legal_spec _ _ Hwf).
  destruct (legal_moves_plausible _ _ Hwf Hmove) as (_ & Hrange & _).
  destruct (square_coordinates _ Hrange) as (_ & _ & Hback).
  destruct move as [from to]. cbn [chess.from_square chess.to_square] in *.
  replace (chess.square to_col (7 - to_row)) with to;
    [now rewrite <- Hfrom|].
  rewrite <- Hback at 1. f_equal; lia.
Qed.

(** X24. A click changes the position by a legal move or not at all: after
    [handle_click] the engine is the one before the click, or a square was
    selected, the click fell on a square of the board that is among the
    remembered destinations, and the engine holds the position after the
    legal move from the selected square to the clicked square, with that
    move appended to the history and recorded as [last_move].  A click on the
    board made while a square is selected always clears the selection. *)
Theorem handle_click_moves_legally self x y :
  well_formed (chess.position (ChessEngine.board (ChessGUI.engine self))) ->
  let self' := ChessGUI.handle_click self (x, y) in
  let row := y / 80 in
  let col := x / 80 in
  (ChessGUI.engine self' = ChessGUI.engine self
   \/ exists from_row from_col,
        ChessGUI.selected_square self = Some (from_row, from_col)
        /\ (0 <= row < 8 /\ 0 <= col < 8)
        /\ In (row, col) (ChessGUI.legal_moves self)
        /\ let move := chess.mkMove (chess.square from_col (7 - from_row))
                                    (chess.square col (7 - row)) in
           In move (chess.legal_moves
                      (chess.position (ChessEngine.board (ChessGUI.engine self))))
           /\ ChessGUI.engine self'
              = ChessEngine.mkEngine
                  (chess.Game_push (ChessEngine.board (ChessGUI.engine self)) move)
                  (ChessEngine.move_history (ChessGUI.engine self) ++ [move])
           /\ ChessGUI.last_move self' = Some ((from_row, from_col), (row, col)))
  /\ (ChessGUI.selected_square self <> None ->
      y < 640 -> 0 <= row < 8 -> 0 <= col < 8 ->
      ChessGUI.selected_square self' = None /\ ChessGUI.legal_moves self' = []).
Proof.
  intros Hwf self' row col. subst self' row col. rewrite handle_click_unfold.
  destruct (Z.geb_spec y 640) as [Hy|Hy]; [split; [now left|lia]|].
  cbv zeta.
  destruct ((0 <=? y / 80) && (y / 80 <? 8) && (0 <=? x / 80) && (x / 80 <? 8))
    eqn:Hboard.
  2: { split; [now left|]. intros _ _ Hr Hc.
       rewrite (on_board_true _ _ Hr Hc) in Hboard. discriminate. }
  assert (Hrange : 0 <= y / 80 < 8 /\ 0 <= x / 80 < 8).
  { rewrite !andb_true_iff, !Z.leb_le, !Z.ltb_lt in Hboard. lia. }
  destruct (ChessGUI.selected_square self) as [[from_row from_col]|] eqn:Hsel.
  - split; [|intros; split; reflexivity].
    destruct (ChessGUI.listed (y / 80) (x / 80) (ChessGUI.legal_moves self)) eqn:Hlisted;
      [|now left].
    rewrite make_move_unfold. cbv zeta.
    destruct (chess.is_legal _ _) eqn:Hlegal; [|now left].
    right. exists from_row, from_col. split; [reflexivity|]. split; [exact Hrange|].
    split; [now apply listed_In|]. cbv zeta.
    split; [now apply is_legal_spec|]. split; reflexivity.
  - split; [|congruence].
    destruct (ChessEngine.get_piece_at _ _ _) as [[color kind]|]; [|now left].
    destruct (String.eqb _ _); now left.
Qed.

Lemma handle_click_moves_legally_witness :
  ChessGUI.selected_square
    (ChessGUI.handle_click
       (ChessGUI.mkGUI
          (ChessEngine.mkEngine (chess.mkGame (krk_board 4 0 60 chess.WHITE) []) [])
          (Some (7, 0)) [(0, 0)] None)
       (10, 10)) = None
  /\ ChessGUI.legal_moves
       (ChessGUI.handle_click
          (ChessGUI.mkGUI
             (ChessEngine.mkEngine (chess.mkGame (krk_board 4 0 60 chess.WHITE) []) [])
             (Some (7, 0)) [(0, 0)] None)
          (10, 10)) = [].
Proof.
  refine (proj2 (handle_click_moves_legally
                   (ChessGUI.mkGUI
                      (ChessEngine.mkEngine
                         (chess.mkGame (krk_board 4 0 60 chess.WHITE) []) [])
                      (Some (7, 0)) [(0, 0)] None)
                   10 10
                   (krk_board_well_formed 4 0 60 chess.WHITE
                      ltac:(lia) ltac:(lia) ltac:(lia))) _ _ _ _).
  - discriminate.
  - lia.
  - change (10 / 80) with 0. lia.
  - change (10 / 80) with 0. lia.
Defined.

(** X25. Selecting a piece and clicking a destination makes the move.  With
    no square selected, a click on a square of the board that holds a piece
    of the side to move selects it and remembers the destinations
    [get_legal_moves_from_square] lists for it, leaving the engine alone; a
    second click on one of these destinations makes that move, a second
    click on any other square of the board leaves the engine as it is, and
    either way the selection is cleared.  A first click on an empty square or
    on a piece of the other side changes nothing. *)
Theorem click_piece_then_destination self x y x' y' :
  well_formed (chess.position (ChessEngine.board (ChessGUI.engine self))) ->
  ChessGUI.selected_square self = None ->
  0 <= x < 640 -> 0 <= y < 640 -> 0 <= x' < 640 -> 0 <= y' < 640 ->
  let position := chess.position (ChessEngine.board (ChessGUI.engine self)) in
  let row := y / 80 in
  let col := x / 80 in
  let row' := y' / 80 in
  let col' := x' / 80 in
  let self1 := ChessGUI.handle_click self (x, y) in
  let self2 := ChessGUI.handle_click self1 (x', y') in
  let move := chess.mkMove (chess.square col (7 - row)) (chess.square col' (7 - row')) in
  ((exists piece,
      chess.piece_at position (chess.square col (7 - row)) = Some piece
      /\ chess.color piece = chess.turn position)
   -> ChessGUI.selected_square self1 = Some (row, col)
      /\ ChessGUI.legal_moves self1
         = ChessEngine.get_legal_moves_from_square (ChessGUI.engine self) row col
      /\ ChessGUI.engine self1 = ChessGUI.engine self
      /\ ChessGUI.selected_square self2 = None
      /\ (In (row', col')
             (ChessEngine.get_legal_moves_from_square (ChessGUI.engine self) row col) ->
          In move (chess.legal_moves position)
          /\ ChessGUI.engine self2
             = ChessEngine.mkEngine
                 (chess.Game_push (ChessEngine.board (ChessGUI.engine self)) move)
                 (ChessEngine.move_history (ChessGUI.engine self) ++ [move])
          /\ ChessGUI.last_move self2 = Some ((row, col), (row', col')))
      /\ (~ In (row', col')
              (ChessEngine.get_legal_moves_from_square (ChessGUI.engine self) row col) ->
          ChessGUI.engine self2 = ChessGUI.engine self
          /\ ChessGUI.last_move self2 = ChessGUI.last_move self))
  /\ (~ (exists piece,
           chess.piece_at position (chess.square col (7 - row)) = Some piece
           /\ chess.color piece = chess.turn position)
      -> self1 = self).
Proof.
  intros Hwf Hsel Hx Hy Hx' Hy' position row col row' col' self1 self2 move.
  pose proof (pixel_square y Hy) as Hrow. pose proof (pixel_square x Hx) as Hcol.
  pose proof (pixel_square y' Hy') as Hrow'. pose proof (pixel_square x' Hx') as Hcol'.
  fold row in Hrow. fold col in Hcol. fold row' in Hrow'. fold col' in Hcol'.
  assert (H1 : self1
               = match chess.piece_at position (chess.square col (7 - row)) with
                 | Some piece =>
                     if chess.Color_eqb (chess.color piece) (chess.turn position)
                     then ChessGUI.mkGUI (ChessGUI.engine self) (Some (row, col))
                            (ChessEngine.get_legal_moves_from_square
                               (ChessGUI.engine self) row col)
                            (ChessGUI.last_move self)
                     else self
                 | None => self
                 end).
  { subst self1. rewrite handle_click_unfold.
    destruct (Z.geb_spec y 640); [lia|]. cbv zeta. fold row col.
    rewrite (on_board_true _ _ Hrow Hcol).
    rewrite Hsel. unfold ChessEngine.get_piece_at, ChessEngine.get_game_state.
    cbv zeta. cbn [ChessEngine.state_turn]. fold position.
    destruct (chess.piece_at position (chess.square col (7 - row))) as [piece|];
      [|reflexivity].
    unfold ChessEngine.shown. now rewrite color_name_eqb. }
  assert (H2 : forall from_row from_col,
             ChessGUI.selected_square self1 = Some (from_row, from_col) ->
             self2
             = let self :=
                 if ChessGUI.listed row' col' (ChessGUI.legal_moves self1) then
                   let '(made, engine) :=
                     ChessEngine.make_move (ChessGUI.engine self1)
                       from_row from_col row' col' in
                   if made then
                     ChessGUI.mkGUI engine (ChessGUI.selected_square self1)
                       (ChessGUI.legal_moves self1)
                       (Some ((from_row, from_col), (row', col')))
                   else ChessGUI.mkGUI engine (ChessGUI.selected_square self1)
                          (ChessGUI.legal_moves self1) (ChessGUI.last_move self1)
                 else self1 in
               ChessGUI.mkGUI (ChessGUI.engine self) None [] (ChessGUI.last_move self)).
  { intros from_row from_col Hsel1. subst self2. rewrite handle_click_unfold.
    destruct (Z.geb_spec y' 640); [lia|]. cbv zeta. fold row' col'.
    rewrite (on_board_true _ _ Hrow' Hcol'). now rewrite Hsel1. }
  clearbody self1 self2.
  split.
  - intros (piece & Hpiece & Hcolor). rewrite Hpiece, Hcolor in H1.
    assert (Heq : chess.Color_eqb (chess.turn position) (chess.turn position) = true)
      by now destruct (chess.turn position).
    rewrite Heq in H1. clear Heq. subst self1.
    cbn [ChessGUI.selected_square ChessGUI.legal_moves ChessGUI.engine
         ChessGUI.last_move] in *.
    specialize (H2 row col eq_refl). cbv zeta in H2.
    split; [reflexivity|]. split; [reflexivity|]. split; [reflexivity|].
    rewrite make_move_unfold in H2. cbv zeta in H2. fold move position in H2.
    destruct (ChessGUI.listed row' col' _) eqn:Hlisted.
    + apply listed_In in Hlisted.
      pose proof (listed_destination_is_legal _ _ _ _ _ Hwf Hrow' Hcol' Hlisted)
        as Hlegal.
      fold move position in Hlegal. rewrite Hlegal in H2. subst self2.
      cbn [ChessGUI.selected_square ChessGUI.engine ChessGUI.last_move].
      split; [reflexivity|]. split; [|intros Hout; contradiction].
      intros _. split; [now apply is_legal_spec|]. split; reflexivity.
    + assert (Hout : ~ In (row', col')
                       (ChessEngine.get_legal_moves_from_square
                          (ChessGUI.engine self) row col)).
      { intros Hin. apply listed_In in Hin. congruence. }
      subst self2. cbn [ChessGUI.selected_square ChessGUI.engine ChessGUI.last_move].
      split; [reflexivity|]. split; [intros Hin; contradiction|].
      intros _. split; reflexivity.
  - intros Hnot. rewrite H1.
    destruct (chess.piece_at position (chess.square col (7 - row))) as [piece|];
      [|reflexivity].
    destruct (chess.Color_eqb (chess.color piece) (chess.turn position)) eqn:Hc;
      [|reflexivity].
    exfalso. apply Hnot. exists piece. split; [reflexivity|].
    now destruct (chess.color piece), (chess.turn position).
Qed.

Lemma click_piece_then_destination_witness :
  ChessGUI.last_move
    (ChessGUI.handle_click
       (ChessGUI.handle_click
          (ChessGUI.mkGUI
             (ChessEngine.mkEngine (chess.mkGame (krk_board 4 0 60 chess.WHITE) []) [])
             None [] None)
          (10, 570))
       (10, 10))
  = Some ((7, 0), (0, 0)).
Proof.
  refine (proj2 (proj2
    (proj1 (proj2 (proj2 (proj2 (proj2
      (proj1 (click_piece_then_destination
                (ChessGUI.mkGUI
                   (ChessEngine.mkEngine
                      (chess.mkGame (krk_board 4 0 60 chess.WHITE) []) [])
                   None [] None)
                10 570 10 10
                (krk_board_well_formed 4 0 60 chess.WHITE
                   ltac:(lia) ltac:(lia) ltac:(lia))
                eq_refl ltac:(lia) ltac:(lia) ltac:(lia) ltac:(lia)) _))))) _))).
  - exists chess.WhiteRook. split; reflexivity.
  - vm_compute. auto 10.
Defined.
